(** * Mini Aaron Flight: the simulation core of [src/main.c]

    A shallow embedding of the game's simulation loop (obstacle store,
    collision test, player physics, difficulty and progress model, session
    flags and event handling) and of what it draws, and the properties of
    it that the specification states, followed by further properties of
    the code: bounds that the loop keeps, the event loop, the obstacle
    array, the rendering, what the store holds, and the end of a
    session.

    Arithmetic.  The program computes in C [float].  A [float] is modelled
    as an IEEE 754 binary32 number: [spec_float] of the Standard Library
    with a 24 bit significand and [emax = 128], every operation rounded to
    nearest, ties to even.  Each C operation on [float] operands is one
    rounded operation (no excess precision, no fused multiply-add), an
    [int] operand of a mixed expression is first converted to [float], and
    a decimal constant such as [0.8f] denotes the binary32 number nearest
    to it.  Integer arithmetic ([rand() % 80], the [Uint32] tick counter)
    is modelled in [Z], the unsigned difference with its wrap-around.

    State.  The variables that the loop changes are the fields of
    [Session]; [rand] is a stream of integers of which the session counts
    the calls; the events of a pass and the reading of the tick counter are
    the inputs of [frame].  Rendering reads the state and changes nothing:
    the choice of the overlay is [state], and the rectangles and points
    that a pass draws are functions of the state (section Rendering).

    Contents: the arithmetic; the program; concrete inputs; what the
    operations of binary32 compute, in integers (section Rounding), with
    the order and the bounds of their results; the obstacle array with the
    loops that index it, and the rendering; then the properties, by
    component. *)

From Stdlib Require Import ZArith List Bool Lia.
From Stdlib Require Import Floats.SpecFloat.
From Stdlib Require Import Decimal Number.
Import ListNotations.
#[local] Set Warnings "-notation-for-abbreviation".
Open Scope Z_scope.

(** ** Binary32 arithmetic *)

Module F32.

Definition prec : Z := 24.
Definition emax : Z := 128.

Definition float : Set := spec_float.

Definition add : float -> float -> float := SFadd prec emax.
Definition sub : float -> float -> float := SFsub prec emax.
Definition mul : float -> float -> float := SFmul prec emax.
Definition div : float -> float -> float := SFdiv prec emax.
Definition opp : float -> float := SFopp.

(** [x < y], [x <= y], [x > y], [x >= y] of C: false as soon as an operand
    is a NaN. *)
Definition ltb : float -> float -> bool := SFltb.
Definition leb : float -> float -> bool := SFleb.
Definition gtb (x y : float) : bool := SFltb y x.
Definition geb (x y : float) : bool := SFleb y x.

(** Conversion of an integer to [float] (round to nearest even). *)
Definition of_int (n : Z) : float := binary_normalize prec emax n 0 false.

(** A decimal constant [n / d] with [n] and [d] both exact in binary32:
    the correctly rounded quotient is the binary32 number nearest to the
    constant. *)
Definition exactly (n : Z) : bool := Z.abs n <? 2 ^ prec.

Definition lit (n d : Z) : option float :=
  if exactly n && exactly d then Some (div (of_int n) (of_int d)) else None.

Definition parse (n : Number.number) : option float :=
  match n with
  | Number.Decimal (Decimal.Decimal i f) =>
      let d := 10 ^ Z.of_nat (Decimal.nb_digits f) in
      match i with
      | Decimal.Pos u => lit (Z.of_uint (Decimal.app u f)) d
      | Decimal.Neg u => lit (- Z.of_uint (Decimal.app u f)) d
      end
  | _ => None
  end.

Definition print (x : float) : option Number.number := None.

Definition is_nan (x : float) : bool :=
  match x with S754_nan => true | _ => false end.

(** [fminf] and [fmaxf] of <math.h>: when one argument is a NaN the other
    one is returned. *)
Definition fminf (x y : float) : float :=
  if is_nan x then y
  else if is_nan y then x
  else if ltb y x then y else x.

Definition fmaxf (x y : float) : float :=
  if is_nan x then y
  else if is_nan y then x
  else if ltb x y then y else x.

End F32.

Declare Scope f32_scope.
Delimit Scope f32_scope with f32.
Bind Scope f32_scope with F32.float.
Number Notation spec_float F32.parse F32.print : f32_scope.

Infix "+" := F32.add : f32_scope.
Infix "-" := F32.sub : f32_scope.
Infix "*" := F32.mul : f32_scope.
Infix "/" := F32.div : f32_scope.
Notation "- x" := (F32.opp x) : f32_scope.
Infix "<?" := F32.ltb : f32_scope.
Infix "<=?" := F32.leb : f32_scope.
Infix ">?" := F32.gtb : f32_scope.
Infix ">=?" := F32.geb : f32_scope.

Import F32.

Arguments F32.add : simpl never.
Arguments F32.sub : simpl never.
Arguments F32.mul : simpl never.
Arguments F32.div : simpl never.
Arguments F32.opp : simpl never.
Arguments F32.ltb : simpl never.
Arguments F32.leb : simpl never.
Arguments F32.gtb : simpl never.
Arguments F32.geb : simpl never.
Arguments F32.of_int : simpl never.
Arguments F32.fminf : simpl never.
Arguments F32.fmaxf : simpl never.

(** ** The program *)

(** [typedef struct { float x,y,w,h,speed; int type; } Obstacle;] *)
Record Obstacle : Set := mkObstacle {
  o_x : float;
  o_y : float;
  o_w : float;
  o_h : float;
  o_speed : float;
  o_type : Z
}.

Definition W : Z := 960.
Definition H : Z := 540.
Definition GROUND_Y : Z := 460.
Definition KM_TOTAL : float := 12000%f32.

(** The events and keys the loop looks at; [SDL_other] and [SDLK_other]
    stand for all the others. *)
Inductive Key : Set := SDLK_SPACE | SDLK_UP | SDLK_RETURN | SDLK_other.

Inductive Event : Set :=
  | SDL_QUIT
  | SDL_KEYDOWN (sym : Key)
  | SDL_KEYUP (sym : Key)
  | SDL_MOUSEBUTTONDOWN
  | SDL_MOUSEBUTTONUP
  | SDL_other.

(** The mutable variables of the program: the live prefix
    [obs[0 .. obsCount)] of the obstacle array (entries at and after
    [obsCount] are never read), the number of calls made to [rand] so far,
    and the variables of [main] that change ([px], [baseSpeed] and the
    physics constants never do). *)
Record Session : Type := mkSession {
  obs : list Obstacle;
  calls : nat;
  py : float;
  vy : float;
  holding : bool;
  running : bool;
  victory : bool;
  gameOver : bool;
  kmLeft : float;
  difficulty : float;
  spawnMs : float;
  spawnTimer : float;
  last : Z
}.

Definition obsCount (store : list Obstacle) : Z := Z.of_nat (length store).

(** The session a player sees: the overlay test of the renderer,
    [if (gameOver) ... else if (victory) ...]. *)
Inductive State : Set := Active | Crashed | Completed.

Definition state (s : Session) : State :=
  if gameOver s then Crashed else if victory s then Completed else Active.

(** Code that calls [rand]: it reads the next values of the stream and
    returns how many calls have been made. *)
Definition Rand (A : Type) : Type := nat -> A * nat.

Definition ret {A : Type} (a : A) : Rand A := fun k => (a, k).

Definition bind {A B : Type} (m : Rand A) (f : A -> Rand B) : Rand B :=
  fun k => let (a, k') := m k in f a k'.

Notation "x <- m ;; f" := (bind m (fun x => f))
  (at level 61, m at next level, right associativity).

Section Program.

(** [RAND_MAX] of <stdlib.h> and the values that the successive calls of
    [rand] return: the [k]-th call returns [stream k]. *)
Variable RAND_MAX : Z.
Variable stream : nat -> Z.

Definition rand : Rand Z := fun k => (stream k, S k).

Local Open Scope f32_scope.

Definition px : float := of_int W * 0.22.
Definition gravity : float := 0.38.
Definition thrust : float := 0.8.
Definition maxVy : float := 7.0.
Definition baseSpeed : float := 4.2.

(** The fields of an obstacle that depend on its kind; [x] is set last. *)
Definition cloud (speed : float) : Rand (float -> Obstacle) :=
  a <- rand ;; b <- rand ;; c <- rand ;;
  ret (fun x => mkObstacle x (of_int (60 + Z.rem c 240))
                 (of_int (90 + Z.rem a 80)) (of_int (50 + Z.rem b 30))
                 (speed * 1.0) 0).

Definition bird (speed : float) : Rand (float -> Obstacle) :=
  c <- rand ;;
  ret (fun x => mkObstacle x (of_int (100 + Z.rem c 260)) 44 28
                 (speed * 1.35) 1).

Definition storm (speed : float) : Rand (float -> Obstacle) :=
  b <- rand ;; t <- rand ;;
  let h := of_int (120 + Z.rem b 120) in
  let top := (Z.rem t 2 =? 0)%Z in
  ret (fun x => mkObstacle x (if top then 40 else of_int GROUND_Y - h)
                 50 h (speed * 1.1) 2).

Definition addObstacle (speed : float) (store : list Obstacle)
  : Rand (list Obstacle) :=
  if (obsCount store >=? 128)%Z then ret store
  else
    r0 <- rand ;;
    let r := of_int r0 / of_int RAND_MAX in
    o <- (if r <? 0.55 then cloud speed
          else if r <? 0.85 then bird speed
          else storm speed) ;;
    j <- rand ;;
    ret (store ++ [o (of_int W + 40.0 + of_int (Z.rem j 120))]).

Definition hit (ax ay aw ah : float) (b : Obstacle) : bool :=
  let shrink := 0.8 in
  let aox := ax - (aw * (1 - shrink) / 2) in
  let aoy := ay - (ah * (1 - shrink) / 2) in
  let aow := aw * shrink in
  let aoh := ah * shrink in
  (aox <? o_x b + o_w b) && (aox + aow >? o_x b)
  && (aoy <? o_y b + o_h b) && (aoy + aoh >? o_y b).

(** One event of the [SDL_PollEvent] loop. *)
Definition restart (s : Session) : Session :=
  mkSession [] (calls s) (of_int H * 0.5) 0 (holding s) (running s)
    false false KM_TOTAL 1.0 1100.0 0.0 (last s).

Definition set_running (b : bool) (s : Session) : Session :=
  mkSession (obs s) (calls s) (py s) (vy s) (holding s) b (victory s)
    (gameOver s) (kmLeft s) (difficulty s) (spawnMs s) (spawnTimer s) (last s).

Definition set_holding (b : bool) (s : Session) : Session :=
  mkSession (obs s) (calls s) (py s) (vy s) b (running s) (victory s)
    (gameOver s) (kmLeft s) (difficulty s) (spawnMs s) (spawnTimer s) (last s).

Definition set_last (t : Z) (s : Session) : Session :=
  mkSession (obs s) (calls s) (py s) (vy s) (holding s) (running s) (victory s)
    (gameOver s) (kmLeft s) (difficulty s) (spawnMs s) (spawnTimer s) t.

Definition is_thrust_key (k : Key) : bool :=
  match k with SDLK_SPACE | SDLK_UP => true | _ => false end.

Definition handle_event (s : Session) (e : Event) : Session :=
  match e with
  | SDL_QUIT => set_running false s
  | SDL_KEYDOWN sym =>
      let s1 := if is_thrust_key sym then set_holding true s else s in
      match sym with
      | SDLK_RETURN => if gameOver s1 || victory s1 then restart s1 else s1
      | _ => s1
      end
  | SDL_KEYUP sym => if is_thrust_key sym then set_holding false s else s
  | SDL_MOUSEBUTTONDOWN => set_holding true s
  | SDL_MOUSEBUTTONUP => set_holding false s
  | SDL_other => s
  end.

(** Player physics, lines 122 to 128. *)
Definition clamp_vy (v : float) : float :=
  let v1 := if v >? maxVy then maxVy else v in
  if v1 <? - maxVy then - maxVy else v1.

Definition clamp_py (p : float) : float :=
  let p1 := if p <? 60 then 60 else p in
  if p1 >? of_int (GROUND_Y - 20) then of_int (GROUND_Y - 20) else p1.

Definition physics_vy (dt : float) (hold : bool) (v : float) : float :=
  let v1 := v + gravity * dt in
  let v2 := if hold then v1 - thrust * dt else v1 in
  clamp_vy v2.

(** Obstacle store, lines 133 to 136. *)
Definition advance (o : Obstacle) : Obstacle :=
  mkObstacle (o_x o - o_speed o * 3.2) (o_y o) (o_w o) (o_h o) (o_speed o)
    (o_type o).

Definition on_screen (o : Obstacle) : bool := o_x o + o_w o >? -10.

Definition cull (store : list Obstacle) : list Obstacle :=
  filter on_screen store.

(** Progress model, lines 140 to 144. *)
Definition progress (km : float) : float := (KM_TOTAL - km) / KM_TOTAL.

Definition kmPerSec (km : float) : float :=
  let startSpd := 120.0 in
  let endSpd := 160.0 in
  let prog := progress km in
  let t := prog * prog * (3 - 2 * prog) in
  startSpd + (endSpd - startSpd) * t.

(** The body of [if (!gameOver && !victory)], lines 118 to 145. *)
Definition update (dtms dt dts : float) (s : Session) : Session :=
  let difficulty' := difficulty s + 0.00045 * dtms in
  let worldSpeed := baseSpeed * (1.0 + (difficulty' - 1.0) * 0.35) in
  let spawnMs' := fmaxf 580.0 (1100.0 - (difficulty' - 1.0) * 160.0) in
  let vy' := physics_vy dt (holding s) (vy s) in
  let py' := clamp_py (py s + vy' * 3.2) in
  let timer := spawnTimer s + dtms in
  let fire := timer >=? spawnMs' in
  let spawnTimer' := if fire then 0.0 else timer in
  let spawned :=
    if fire then addObstacle worldSpeed (obs s) (calls s)
    else (obs s, calls s) in
  let obs' := cull (map advance (fst spawned)) in
  let gameOver' :=
    if existsb (hit (px - 30) (py' - 18) 60 36) obs' then true
    else gameOver s in
  let km := kmLeft s - kmPerSec (kmLeft s) * dts in
  let done := km <=? 0 in
  mkSession obs' (snd spawned) py' vy' (holding s) (running s)
    (if done then true else victory s) gameOver'
    (if done then 0 else km) difficulty' spawnMs' spawnTimer' (last s).

(** The simulation part of one pass of the main loop for an elapsed time
    of [dtms] milliseconds, lines 113 to 146. *)
Definition simulate (dtms : float) (s : Session) : Session :=
  let dt := fminf 48.0 dtms / 16.6667 in
  let dts := dtms / 1000.0 in
  if negb (gameOver s) && negb (victory s) then update dtms dt dts s else s.

(** [Uint32] arithmetic of the tick counter. *)
Definition u32 (n : Z) : Z := n mod 2 ^ 32.

(** One pass of [while (running)]: the pending events [evs], then the
    simulation with the tick counter reading [now]. *)
Definition frame (evs : list Event) (now : Z) (s : Session) : Session :=
  let s1 := fold_left handle_event evs s in
  let dtms := of_int (u32 (now - last s1)) in
  simulate dtms (set_last (u32 now) s1).

(** The variables of [main] when the loop is entered at tick [t0]. *)
Definition init (t0 : Z) : Session :=
  mkSession [] 0 (of_int H * 0.5) 0.0 false true false false KM_TOTAL 1.0
    1100.0 0.0 (u32 t0).

(** [while (running)] over the passes whose inputs are listed. *)
Fixpoint run (inputs : list (list Event * Z)) (s : Session) : Session :=
  match inputs with
  | [] => s
  | (evs, now) :: rest => if running s then run rest (frame evs now s) else s
  end.

End Program.

(** ** What the specification says of the collision test

    The hitbox of section 4.3 in the specification's words: 80% of the
    visual box in each dimension, centred in it, tested for strict overlap
    with the obstacle box. *)
Definition Collides (ax ay aw ah : float) (b : Obstacle) : bool :=
  let left := (ax + 0.1 * aw)%f32 in
  let top := (ay + 0.1 * ah)%f32 in
  let right := (left + 0.8 * aw)%f32 in
  let bottom := (top + 0.8 * ah)%f32 in
  ((left <? o_x b + o_w b) && (right >? o_x b)
   && (top <? o_y b + o_h b) && (bottom >? o_y b))%f32.

(** ** Concrete inputs *)

(** [RAND_MAX] of the C library of Emscripten (and of glibc). *)
Definition RAND_MAX_emscripten : Z := 2147483647.

(** The player's visual box as [main] passes it to [hit], at [py]. *)
Definition player_hit (p : float) (b : Obstacle) : bool :=
  hit (px - 30) (p - 18) 60 36 b.

Definition player_Collides (p : float) (b : Obstacle) : bool :=
  Collides (px - 30) (p - 18) 60 36 b.

(** A bird whose lower edge is 18 above the player's centre line, and one
    whose upper edge is 12 below it. *)
Definition bird_above : Obstacle := mkObstacle 200 224 44 28 5.67 1.
Definition bird_below : Obstacle := mkObstacle 200 282 44 28 5.67 1.

(** A stream whose first obstacle is a storm column on the ground. *)
Definition stream_storm (k : nat) : Z :=
  match k with
  | 0%nat => RAND_MAX_emscripten
  | 2%nat => 1
  | _ => 0
  end.

(** 45 passes of the loop: 1100 ms, then 43 passes within the same
    millisecond, then one pass 200 s later. *)
Definition passes_storm : list (list Event * Z) :=
  ([], 1100) :: repeat ([], 1100) 43 ++ [([], 201100)].

(** One pass of 1100 ms, which spawns the first obstacle. *)
Definition first_pass : list (list Event * Z) := [([], 1100)].

(** An Active session with one kilometre left and a bird in the player's
    way. *)
Definition bird_ahead : Obstacle := mkObstacle 200 262 44 28 5.67 1.

Definition near_finish : Session :=
  mkSession [bird_ahead] 0 270 0 false true false false 1 1.0 1100.0 0.0 0.

(** A stream that always returns the same value. *)
Definition stream_const (v : Z) (k : nat) : Z := v.

(** The restart action. *)
Definition return_key : Event := SDL_KEYDOWN SDLK_RETURN.

(** ** Rounding, in integers

    What the operations of [SpecFloat] compute, stated on integers so that
    the order of the results can be reasoned about.  A number is measured
    in units of [2 ^ (fine - 1)], small enough for the sums, products and
    quotients of binary32 numbers. *)

Definition fine : Z := -300.

(** [a / d] with its fractional part jammed into the last bit: twice the
    integer part, plus one when a remainder is left. *)
Definition jam (a d : Z) : Z := 2 * (a / d) + (if a mod d =? 0 then 0 else 1).

(** A shifted significand with its round and sticky bits, as one integer. *)
Definition code (mrs : shr_record) : Z :=
  4 * shr_m mrs + (if shr_r mrs then 2 else 0) + (if shr_s mrs then 1 else 0).

(** Round to nearest, ties to even, of a coded significand. *)
Definition rne (c : Z) : Z :=
  let m := c / 4 in
  let k := c mod 4 in
  if k <=? 1 then m
  else if k =? 2 then (if Z.even m then m else m + 1)
  else m + 1.

(** The exponent at which the positive number [A / B] (in units of
    [2 ^ (fine - 1)]) is rounded. *)
Definition target (A B : Z) : Z := fexp prec emax (Zdigits2 (A / B) + fine - 1).

(** The end of [binary_round_aux]: renormalisation and overflow test. *)
Definition finish (s : bool) (m e : Z) : float :=
  let '(mrs, e') := shr_fexp prec emax m e loc_Exact in
  match shr_m mrs with
  | Z0 => S754_zero s
  | Zpos p => if e' <=? emax - prec then S754_finite s p e' else S754_infinity s
  | Zneg _ => S754_nan
  end.

(** The binary32 number nearest to [A / B], with sign [s]. *)
Definition rounded (s : bool) (A B : Z) : float :=
  finish s (rne (jam A (B * 2 ^ (target A B - fine)))) (target A B).

(** The binary32 number nearest to the integer [V]. *)
Definition roundZ (V : Z) : float :=
  if V =? 0 then S754_zero false else rounded (V <? 0) (Z.abs V) 1.

(** The value of a number in units of [2 ^ (fine - 1)]; the infinities
    are given the first power of two that overflows. *)
Definition ord (x : float) : Z :=
  match x with
  | S754_zero _ => 0
  | S754_infinity s => cond_Zopp s (2 ^ 429)
  | S754_nan => 0
  | S754_finite s m e => cond_Zopp s (Z.pos m * 2 ^ (e + 301))
  end.

(** The value of [rounded false A B], and its signed version. *)
Definition ordR (A B : Z) : Z :=
  Z.min (rne (jam A (B * 2 ^ (target A B - fine))) * 2 ^ (target A B + 301))
        (2 ^ 429).

Definition ordRQ (A B : Z) : Z :=
  if A <? 0 then - ordR (- A) B else ordR A B.

(** Finite numbers in canonical form: what the operations return unless
    they overflow or are undefined. *)
Definition finite (x : float) : bool :=
  match x with
  | S754_zero _ | S754_finite _ _ _ => true
  | _ => false
  end.

Definition wf (x : float) : bool := valid_binary prec emax x && finite x.

(** [x] is a finite number between the finite numbers [a] and [b]. *)
Definition between (a b x : float) : Prop :=
  wf a = true /\ wf b = true /\ wf x = true /\ ord a <= ord x <= ord b.

Definition betweenb (a b x : float) : bool :=
  wf a && wf b && wf x && (ord a <=? ord x) && (ord x <=? ord b).

(** The largest elapsed time that a pass can measure, as [float]. *)
Definition dtms_max : float := of_int (2 ^ 32 - 1).

(** A bound that the difficulty accumulator never passes: above it one
    more frame's increment is rounded away. *)
Definition difficulty_cap : float := of_int (2 ^ 50).

(** The bounds that every pass of the loop keeps on the player. *)
Definition player_ok (s : Session) : Prop :=
  between (- maxVy)%f32 maxVy (vy s) /\
  between 60%f32 (of_int (GROUND_Y - 20)) (py s).

(** Facts about given numbers are settled by evaluation. *)
Ltac by_computation :=
  match goal with
  | |- context [?x] => is_var x; fail 1 "the goal has a variable"
  | |- _ => vm_compute; reflexivity
  end.

(** The spawn interval of section 4.4 for a value of the difficulty
    accumulator. *)
Definition spawn_interval (d : float) : float :=
  fmaxf 580.0%f32 (1100.0 - (d - 1.0) * 160.0)%f32.

(** What every pass of the loop keeps true of the difficulty model. *)
Definition difficulty_ok (s : Session) : Prop :=
  between 1%f32 difficulty_cap (difficulty s) /\
  spawnMs s = spawn_interval (difficulty s).

(** What every pass of the loop keeps true of the remaining distance. *)
Definition distance_ok (s : Session) : Prop :=
  between 0%f32 KM_TOTAL (kmLeft s) /\
  (victory s = true -> kmLeft s = 0%f32).

(** A bound on the result of an operation from bounds on its arguments:
    the lemma of the operation, the bounds, then evaluation of what is
    left about the given numbers. *)
Ltac bound1 lem h := eapply lem; [.. | exact h]; by_computation.
Ltac bound2 lem h1 h2 := eapply lem; [.. | exact h1 | exact h2]; by_computation.


(** What an event does to the thrust flag, lines 97 and 104 to 108. *)
Definition thrust_event (e : Event) : option bool :=
  match e with
  | SDL_KEYDOWN k => if is_thrust_key k then Some true else None
  | SDL_KEYUP k => if is_thrust_key k then Some false else None
  | SDL_MOUSEBUTTONDOWN => Some true
  | SDL_MOUSEBUTTONUP => Some false
  | _ => None
  end.

(** The last press or release among the events, [b] when there is none. *)
Definition last_thrust (evs : list Event) (b : bool) : bool :=
  fold_left (fun h e => match thrust_event e with Some h' => h' | None => h end)
    evs b.

(** What every pass of the loop keeps true of the spawn timer. *)
Definition timer_ok (s : Session) : Prop :=
  difficulty_ok s /\
  between 0%f32 1100%f32 (spawnTimer s) /\
  ord (spawnTimer s) < ord (spawnMs s).

(** ** The obstacle array

    The store as the program has it: the array [obs] of 128 cells, all
    of them, and the loops of lines 133 to 138 that read and write it by
    index.  A cell of the static array is zero before it is first
    written.  An access outside the array, which C leaves undefined, is
    [None]. *)
Definition zero_obstacle : Obstacle := mkObstacle 0 0 0 0 0 0.

Definition obs_array : list Obstacle := repeat zero_obstacle 128.

Definition and_then {A B : Type} (m : option A) (f : A -> option B)
  : option B :=
  match m with
  | Some a => f a
  | None => None
  end.

(** [a[i]] and [a[i] = o]. *)
Definition read (i : nat) (a : list Obstacle) : option Obstacle :=
  nth_error a i.

Fixpoint write (i : nat) (o : Obstacle) (a : list Obstacle) {struct a}
  : option (list Obstacle) :=
  match a, i with
  | [], _ => None
  | _ :: t, O => Some (o :: t)
  | c :: t, S j => option_map (cons c) (write j o t)
  end.

(** [for (; i < n; i++) obs[i].x -= obs[i].speed * 3.2f;] with [todo]
    cells to go. *)
Fixpoint advance_loop (todo i : nat) (a : list Obstacle)
  : option (list Obstacle) :=
  match todo with
  | O => Some a
  | S todo' =>
      and_then (read i a) (fun c =>
      and_then (write i (advance c) a) (advance_loop todo' (S i)))
  end.

(** [for (; i < n; i++) if (obs[i].x + obs[i].w > -10) obs[wix++] = obs[i];]
    with [todo] cells to go: the array and [wix] at the end. *)
Fixpoint compact_loop (todo i wix : nat) (a : list Obstacle)
  : option (list Obstacle * nat) :=
  match todo with
  | O => Some (a, wix)
  | S todo' =>
      and_then (read i a) (fun c =>
      if on_screen c
      then and_then (write wix c a) (compact_loop todo' (S i) (S wix))
      else compact_loop todo' (S i) wix a)
  end.

(** [for (; i < n; i++) if (hit(px-30, py-18, 60, 36, &obs[i])) { gameOver
    = true; break; }]: whether the loop sets [gameOver]. *)
Fixpoint hit_loop (todo i : nat) (p : float) (a : list Obstacle)
  : option bool :=
  match todo with
  | O => Some false
  | S todo' =>
      and_then (read i a) (fun c =>
      if hit (px - 30)%f32 (p - 18)%f32 60%f32 36%f32 c then Some true
      else hit_loop todo' (S i) p a)
  end.

Section Array.

Variable RAND_MAX : Z.
Variable stream : nat -> Z.

(** [addObstacle] on the array: [obs[obsCount++] = o]. *)
Definition addObstacle_array (speed : float) (a : list Obstacle) (n : nat)
  : Rand (option (list Obstacle * nat)) :=
  if (Z.of_nat n >=? 128)%Z then ret (Some (a, n))
  else
    r0 <- rand stream ;;
    let r := (of_int r0 / of_int RAND_MAX)%f32 in
    o <- (if (r <? 0.55)%f32 then cloud stream speed
          else if (r <? 0.85)%f32 then bird stream speed
          else storm stream speed) ;;
    j <- rand stream ;;
    ret (option_map (fun a' => (a', S n))
           (write n (o (of_int W + 40.0 + of_int (Z.rem j 120))%f32) a)).

(** Lines 131 to 138 on the array: the spawn when the timer fired, the
    advance, the compaction and the collision loop.  The result is the
    array, [obsCount], the number of calls of [rand] and whether
    [gameOver] is set. *)
Definition store_pass (fire : bool) (worldSpeed p : float)
  (a : list Obstacle) (n k : nat)
  : option (list Obstacle * nat * nat * bool) :=
  let '(spawned, k1) :=
    if fire then addObstacle_array worldSpeed a n k else (Some (a, n), k) in
  and_then spawned (fun '(a1, n1) =>
  and_then (advance_loop n1 0 a1) (fun a2 =>
  and_then (compact_loop n1 0 0 a2) (fun '(a3, n3) =>
  and_then (hit_loop n3 0 p a3) (fun crash =>
  Some (a3, n3, k1, crash))))).

End Array.

(** Equations between lengths of appended lists. *)
Ltac lengths :=
  repeat rewrite length_app in *; cbn [length Datatypes.app] in *; lia.

(** ** Rendering

    The rectangles that a pass draws from the state, lines 157 to 177.
    [(int)x] keeps the integer part of a [float]; C leaves it undefined
    when the integer part is not an [int], which is [None] here. *)
Definition trunc (x : float) : Z :=
  match x with
  | S754_finite s m e =>
      cond_Zopp s (if 0 <=? e then Z.pos m * 2 ^ e else Z.pos m / 2 ^ (- e))
  | _ => 0
  end.

Definition to_int (x : float) : option Z :=
  if finite x && (- 2 ^ 31 <=? trunc x) && (trunc x <? 2 ^ 31)
  then Some (trunc x) else None.

Record SDL_Rect : Set := mkRect { r_x : Z; r_y : Z; r_w : Z; r_h : Z }.

Definition rect (x y w h : option Z) : option SDL_Rect :=
  match x, y, w, h with
  | Some x, Some y, Some w, Some h => Some (mkRect x y w h)
  | _, _, _, _ => None
  end.

(** The three rectangles of the craft, lines 167 to 171. *)
Definition body (py : float) : option SDL_Rect :=
  rect (to_int (of_int W * 0.22 - 30)%f32) (to_int (py - 14)%f32)
    (Some 60) (Some 28).

Definition nose (py : float) : option SDL_Rect :=
  rect (to_int (of_int W * 0.22 + 18)%f32) (to_int (py - 12)%f32)
    (Some 20) (Some 24).

Definition winr (py : float) : option SDL_Rect :=
  rect (to_int (of_int W * 0.22 + 2)%f32) (to_int (py - 6)%f32)
    (Some 18) (Some 12).

(** The progress bar and its track, lines 173 to 177. *)
Definition track : SDL_Rect := mkRect 20 (H - 28) (W - 40) 10.

Definition progBar (kmLeft : float) : option SDL_Rect :=
  let p := ((KM_TOTAL - kmLeft) / KM_TOTAL)%f32 in
  rect (Some 20) (Some (H - 28)) (to_int (of_int (W - 40) * p)%f32) (Some 10).

(** The rectangle of an obstacle, line 162. *)
Definition box (o : Obstacle) : option SDL_Rect :=
  rect (to_int (o_x o)) (to_int (o_y o)) (to_int (o_w o)) (to_int (o_h o)).

(** ** What the store holds *)

(** The finite number [x] is the integer [n]. *)
Definition is_int (n : Z) (x : float) : Prop :=
  wf x = true /\ ord x = n * 2 ^ 301.

(** [worldSpeed] of line 119 for a value of the difficulty accumulator,
    and the largest speed that an obstacle can get. *)
Definition worldSpeed (d : float) : float :=
  (baseSpeed * (1.0 + (d - 1.0) * 0.35))%f32.

Definition speed_cap : float := (worldSpeed difficulty_cap * 1.35)%f32.

(** What every pass of the loop keeps true of an obstacle of the store:
    its kind is one of the three, its size and its row are integers in
    the ranges of the kinds, it ends at the ground line or above, it is
    not faster than [speed_cap] nor slower than [baseSpeed], and its left
    edge is between -179 and 1119. *)
Definition obstacle_ok (o : Obstacle) : Prop :=
  (o_type o = 0 \/ o_type o = 1 \/ o_type o = 2) /\
  (exists w h y : Z,
     is_int w (o_w o) /\ is_int h (o_h o) /\ is_int y (o_y o) /\
     44 <= w <= 169 /\ 28 <= h <= 239 /\ 40 <= y /\ y + h <= GROUND_Y) /\
  between baseSpeed speed_cap (o_speed o) /\
  between (- 179)%f32 1119%f32 (o_x o).

(** The store is in the order of the spawns, and a tick moves every
    obstacle left by at least 13: an obstacle followed by [n] younger ones
    has its left edge at [1119 - 13 * (k + n)] or less, where [k] is 1
    at the end of a tick and 0 before the advance. *)
Fixpoint aged (k : Z) (store : list Obstacle) : Prop :=
  match store with
  | [] => True
  | o :: rest =>
      ord (o_x o) <= (1119 - 13 * (k + obsCount rest)) * 2 ^ 301 /\
      aged k rest
  end.

Definition store_ok (s : Session) : Prop :=
  difficulty_ok s /\ Forall obstacle_ok (obs s) /\ aged 1 (obs s).

(** ** The kind of a spawned obstacle

    With [RAND_MAX = 2 ^ 31 - 1] the first draw below which [r < 0.55f]
    holds, and the one below which [r < 0.85f] holds. *)
Definition cloud_draws : Z := 1181115969.
Definition bird_draws : Z := 1825361088.

(** The kind that [addObstacle] chooses for a first draw, the number of
    calls of [rand] of a spawn of that kind, and the factor of its
    speed. *)
Definition kind_of_draw (r0 : Z) : Z :=
  if r0 <? cloud_draws then 0 else if r0 <? bird_draws then 1 else 2.

Definition calls_of_kind (t : Z) : nat :=
  if t =? 0 then 5%nat else if t =? 1 then 3%nat else 4%nat.

Definition speed_of_kind (t : Z) : float :=
  if t =? 0 then 1.0%f32 else if t =? 1 then 1.35%f32 else 1.1%f32.

(** The points of the backdrop, lines 151 to 155, and of the victory
    scene, lines 185 to 189, for the index [i] of their loop and the
    reading [ticks] of the tick counter.  [%] and [/] of C on [int] and
    [Uint32] are [Z.rem] and [Z.quot]; none of the sums leaves the range of
    [int]. *)
Definition star (i : Z) : Z * Z :=
  (Z.rem (i * 97) W, Z.rem (i * 53) (H - 160) + 20).

Definition confetti (ticks i : Z) : Z * Z :=
  (Z.rem (i * 137 + Z.quot (u32 ticks) 30) W, Z.rem (i * 71) (H - 200) + 40).

(** Whether both points drawn for a star are columns of the window. *)
Definition star_in_window (i : Z) : bool :=
  (0 <=? fst (star i)) && (fst (star i) + 1 <? W).

(** The session after one pass of 1100 ms on a stream of zeros, which
    spawns a cloud, and the cloud. *)
Definition one_cloud : Session :=
  run RAND_MAX_emscripten (stream_const 0) first_pass (init 0).

Definition the_cloud : Obstacle := hd zero_obstacle (obs one_cloud).

(** ** Passes in which time passes

    Passes that follow one another by 1 ms at least and by less than
    [2 ^ 32] ms, none of which handles the restart key; [t] is the reading
    of the tick counter before the first of them. *)
Fixpoint paced (t : Z) (inputs : list (list Event * Z)) : Prop :=
  match inputs with
  | [] => True
  | (evs, now) :: rest =>
      1 <= now - t < 2 ^ 32 /\ ~ In return_key evs /\ paced now rest
  end.

(** [n] passes without events, 16 ms apart, after the reading [t]. *)
Fixpoint steady (n : nat) (t : Z) : list (list Event * Z) :=
  match n with
  | O => []
  | S m => ([], t + 16) :: steady m (t + 16)
  end.

(** What such passes keep true: of a session in which [victory] is not
    set some distance is left. *)
Definition progress_ok (s : Session) : Prop :=
  distance_ok s /\ (victory s = false -> 0 < ord (kmLeft s)).

(** ** The arithmetic on known values

    0.8f is 0x3F4CCCCD, 0.1f + 0.2f is 0x3E99999A, 1.0f / 3.0f is
    0x3EAAAAAB, 2^24 + 1 converts to 2^24 (a tie, to even), and
    [px = 960 * 0.22f] is 211.2f, 0x43533333. *)

Example constant_0_8 : 0.8%f32 = S754_finite false 0xCCCCCD (-24).
Proof. reflexivity. Qed.

Example sum_0_1_0_2 : (0.1 + 0.2)%f32 = S754_finite false 0x99999A (-25).
Proof. reflexivity. Qed.

Example quotient_1_3 : (1 / 3)%f32 = S754_finite false 0xAAAAAB (-25).
Proof. reflexivity. Qed.

Example conversion_tie : of_int (2 ^ 24 + 1) = of_int (2 ^ 24).
Proof. reflexivity. Qed.

Example px_value : px = S754_finite false 0xD33333 (-16).
Proof. reflexivity. Qed.

(** ** Comparisons of binary32 numbers *)

Lemma SFcompare_swap (x y : float) :
  SFcompare y x = option_map CompOpp (SFcompare x y).
Proof.
  destruct x as [sx|sx| |sx mx ex], y as [sy|sy| |sy my ey]; simpl;
    try reflexivity;
    try (destruct sx; reflexivity); try (destruct sy; reflexivity);
    try (destruct sx, sy; reflexivity).
  change (Pos.compare_cont Eq my mx) with (Pos.compare my mx).
  change (Pos.compare_cont Eq mx my) with (Pos.compare mx my).
  rewrite (Z.compare_antisym ey ex), (Pos.compare_antisym my mx).
  destruct sx, sy; simpl; try reflexivity;
    destruct (ey ?= ex); simpl; try reflexivity.
  all: rewrite ?CompOpp_involutive; reflexivity.
Qed.

Lemma ltb_not_nan (x y : float) :
  ltb x y = true -> is_nan x = false /\ is_nan y = false.
Proof.
  unfold ltb, SFltb. destruct x, y; simpl; try discriminate; auto.
Qed.

Lemma leb_not_nan (x y : float) :
  leb x y = true -> is_nan x = false /\ is_nan y = false.
Proof.
  unfold leb, SFleb. destruct x, y; simpl; try discriminate; auto.
Qed.

Lemma ltb_asym (x y : float) : ltb x y = true -> ltb y x = false.
Proof.
  unfold ltb, SFltb. rewrite (SFcompare_swap x y).
  destruct (SFcompare x y) as [[ | | ]|]; simpl; congruence.
Qed.

Lemma ltb_leb (x y : float) : ltb x y = true -> leb x y = true.
Proof.
  unfold ltb, leb, SFltb, SFleb.
  destruct (SFcompare x y) as [[ | | ]|]; congruence.
Qed.

(** Between two numbers neither of which is a NaN, [x < y] fails exactly
    when [y <= x]. *)
Lemma ltb_false_leb (x y : float) :
  is_nan x = false -> is_nan y = false -> ltb x y = false -> leb y x = true.
Proof.
  unfold ltb, leb, SFltb, SFleb. rewrite (SFcompare_swap x y).
  intros Hx Hy.
  assert (Hc : SFcompare x y <> None)
    by (destruct x, y; simpl in *; congruence).
  destruct (SFcompare x y) as [[ | | ]|]; simpl; congruence.
Qed.

Lemma fminf_above (c x : float) :
  ltb c x = true -> fminf c x = c.
Proof.
  intros Hlt. unfold fminf.
  destruct (ltb_not_nan _ _ Hlt) as [-> ->].
  now rewrite (ltb_asym _ _ Hlt).
Qed.

(** ** Rounding: the operations of binary32 on integers *)

(** *** Jamming

    Jamming twice is jamming once by the product; it is monotone and does
    not depend on the scale. *)

Lemma jam_jam (a d e : Z) :
  0 < d -> 0 < e -> jam (jam a d) (2 * e) = jam a (d * e).
Proof.
  intros Hd He. unfold jam.
  set (j := if a mod d =? 0 then 0 else 1).
  assert (Hj : 0 <= j <= 1) by (subst j; destruct (a mod d =? 0); lia).
  pose proof (Z.div_mod a d ltac:(lia)) as Ha.
  pose proof (Z.mod_pos_bound a d Hd) as Hr.
  set (q := a / d) in *. set (r := a mod d) in *.
  pose proof (Z.div_mod q e ltac:(lia)) as Hq.
  pose proof (Z.mod_pos_bound q e He) as Hr'.
  set (q' := q / e) in *. set (r' := q mod e) in *.
  assert (H1 : (2 * q + j) / (2 * e) = q')
    by (symmetry; apply (Z.div_unique _ _ _ (2 * r' + j)); nia).
  assert (H2 : (2 * q + j) mod (2 * e) = 2 * r' + j)
    by (symmetry; apply (Z.mod_unique _ _ q'); nia).
  assert (H3 : a / (d * e) = q')
    by (symmetry; apply (Z.div_unique _ _ _ (d * r' + r)); nia).
  assert (H4 : a mod (d * e) = d * r' + r)
    by (symmetry; apply (Z.mod_unique _ _ q'); nia).
  rewrite H1, H2, H3, H4. f_equal.
  subst j. destruct (r =? 0) eqn:E1, (2 * r' + 0 =? 0) eqn:E2;
    destruct (d * r' + r =? 0) eqn:E3; try lia;
    destruct (2 * r' + 1 =? 0) eqn:E4; try lia; try nia.
  all: try (apply Z.eqb_eq in E3); try (apply Z.eqb_neq in E3);
       try (apply Z.eqb_eq in E1); try (apply Z.eqb_neq in E1);
       try (apply Z.eqb_eq in E2); try (apply Z.eqb_neq in E2); try nia.
Qed.

Lemma jam_mono (a b d : Z) : 0 < d -> a <= b -> jam a d <= jam b d.
Proof.
  intros Hd Hab. unfold jam.
  pose proof (Z.div_mod a d ltac:(lia)) as Ha.
  pose proof (Z.mod_pos_bound a d Hd) as Hra.
  pose proof (Z.div_mod b d ltac:(lia)) as Hb.
  pose proof (Z.mod_pos_bound b d Hd) as Hrb.
  assert (Hq : a / d <= b / d) by (apply Z.div_le_mono; lia).
  destruct (a mod d =? 0) eqn:Ea, (b mod d =? 0) eqn:Eb; try lia.
  apply Z.eqb_neq in Ea. apply Z.eqb_eq in Eb.
  assert (a / d <> b / d) by nia. lia.
Qed.

Lemma jam_scale (a d k : Z) : 0 < d -> 0 < k -> jam (a * k) (d * k) = jam a d.
Proof.
  intros Hd Hk. unfold jam.
  rewrite Z.div_mul_cancel_r by lia.
  rewrite Zmult_mod_distr_r.
  destruct (a mod d =? 0) eqn:E.
  - apply Z.eqb_eq in E. rewrite E. reflexivity.
  - apply Z.eqb_neq in E.
    destruct (a mod d * k =? 0) eqn:E'; [|reflexivity].
    apply Z.eqb_eq in E'. nia.
Qed.

Lemma jam_nonneg (a d : Z) : 0 <= a -> 0 < d -> 0 <= jam a d.
Proof.
  intros Ha Hd. unfold jam.
  pose proof (Z.div_pos a d Ha Hd). destruct (a mod d =? 0); lia.
Qed.

Lemma jam_exact (q d : Z) : 0 < d -> jam (q * d) d = 2 * q.
Proof.
  intros Hd. unfold jam. rewrite Z.div_mul, Z.mod_mul by lia. simpl. lia.
Qed.

Lemma jam_div4 (a d : Z) : 0 < d -> jam a d / 4 = a / (2 * d).
Proof.
  intros Hd. unfold jam.
  pose proof (Z.div_mod a d ltac:(lia)) as Ha.
  pose proof (Z.mod_pos_bound a d Hd) as Hr.
  set (q := a / d) in *. set (r := a mod d) in *.
  pose proof (Z.div_mod q 2 ltac:(lia)) as Hq.
  pose proof (Z.mod_pos_bound q 2 ltac:(lia)) as Hr2.
  assert (H3 : a / (2 * d) = q / 2)
    by (symmetry; apply (Z.div_unique _ _ _ (d * (q mod 2) + r)); nia).
  rewrite H3.
  symmetry. apply (Z.div_unique _ _ _ (2 * (q mod 2) + (if r =? 0 then 0 else 1))).
  - destruct (r =? 0); lia.
  - lia.
Qed.

(** *** Shifting a significand

    One step of [shr_1] jams the code by 4, [n] steps by [2 * 2 ^ n]. *)

Lemma code_div4 (mrs : shr_record) : code mrs / 4 = shr_m mrs.
Proof.
  unfold code. symmetry.
  apply (Z.div_unique _ _ _ ((if shr_r mrs then 2 else 0) + (if shr_s mrs then 1 else 0)));
    destruct (shr_r mrs), (shr_s mrs); lia.
Qed.

Lemma code_mod4 (mrs : shr_record) :
  code mrs mod 4 = (if shr_r mrs then 2 else 0) + (if shr_s mrs then 1 else 0).
Proof.
  unfold code. symmetry.
  apply (Z.mod_unique _ _ (shr_m mrs));
    destruct (shr_r mrs), (shr_s mrs); lia.
Qed.

Lemma shr_1_code (mrs : shr_record) :
  0 <= shr_m mrs ->
  code (shr_1 mrs) = jam (code mrs) 4 /\ 0 <= shr_m (shr_1 mrs).
Proof.
  intros Hm. unfold jam. rewrite code_div4, code_mod4.
  destruct mrs as [m r s]. cbn [shr_m shr_r shr_s] in *.
  unfold code, shr_1.
  destruct m as [|p|p]; [| |lia].
  - destruct r, s; simpl; split; reflexivity || lia.
  - destruct p as [p|p|]; destruct r, s; cbn [orb shr_m shr_r shr_s Z.eqb Z.add Pos.add Pos.succ];
      split; lia.
Qed.

Lemma jam_2 (c : Z) : jam c 2 = c.
Proof.
  unfold jam. pose proof (Z.div_mod c 2 ltac:(lia)).
  pose proof (Z.mod_pos_bound c 2 ltac:(lia)).
  destruct (c mod 2 =? 0) eqn:E; [apply Z.eqb_eq in E|apply Z.eqb_neq in E]; lia.
Qed.

Lemma iter_shr_1_code (p : positive) (mrs : shr_record) :
  0 <= shr_m mrs ->
  code (iter_pos shr_1 p mrs) = jam (code mrs) (2 * 2 ^ Z.pos p) /\
  0 <= shr_m (iter_pos shr_1 p mrs).
Proof.
  revert mrs. induction p as [p IH|p IH|]; intros mrs Hm; cbn [iter_pos].
  - destruct (shr_1_code mrs Hm) as [E1 H1].
    destruct (IH _ H1) as [E2 H2]. destruct (IH _ H2) as [E3 H3].
    split; [|exact H3].
    rewrite E3, E2, E1.
    assert (0 < 2 ^ Z.pos p) by (apply Z.pow_pos_nonneg; lia).
    rewrite jam_jam by lia.
    replace (2 * 2 ^ Z.pos p * 2 ^ Z.pos p)
      with (2 * (2 ^ Z.pos p * 2 ^ Z.pos p)) by lia.
    rewrite jam_jam by lia. f_equal.
    replace (Z.pos p~1) with (Z.pos p + Z.pos p + 1) by lia.
    rewrite !Z.pow_add_r by lia. change (2 ^ 1) with 2. lia.
  - destruct (IH _ Hm) as [E2 H2]. destruct (IH _ H2) as [E3 H3].
    split; [|exact H3].
    rewrite E3, E2.
    assert (0 < 2 ^ Z.pos p) by (apply Z.pow_pos_nonneg; lia).
    rewrite !jam_jam by lia. f_equal.
    replace (Z.pos p~0) with (Z.pos p + Z.pos p) by lia.
    rewrite !Z.pow_add_r by lia. lia.
  - exact (shr_1_code mrs Hm).
Qed.

Lemma shr_code (mrs : shr_record) (e n : Z) :
  0 <= shr_m mrs -> 0 <= n ->
  code (fst (shr mrs e n)) = jam (code mrs) (2 * 2 ^ n) /\
  0 <= shr_m (fst (shr mrs e n)) /\
  snd (shr mrs e n) = e + n.
Proof.
  intros Hm Hn. unfold shr. destruct n as [|p|p]; [| |lia]; cbn [fst snd].
  - rewrite jam_2. repeat split; auto; lia.
  - destruct (iter_shr_1_code p mrs Hm). repeat split; auto.
Qed.

Lemma rne_code (mrs : shr_record) :
  round_nearest_even (shr_m mrs) (loc_of_shr_record mrs) = rne (code mrs).
Proof.
  unfold rne. rewrite code_div4, code_mod4.
  destruct mrs as [m r s]; destruct r, s; reflexivity.
Qed.

Lemma code_of_loc (m : Z) (l : location) :
  shr_m (shr_record_of_loc m l) = m.
Proof. destruct l as [|[ | | ]]; reflexivity. Qed.

(** *** Number of binary digits *)

Lemma digits2_size (p : positive) : digits2_pos p = Pos.size p.
Proof. induction p; simpl; congruence. Qed.

Lemma Zdigits2_bounds (x : Z) :
  0 < x -> 2 ^ (Zdigits2 x - 1) <= x < 2 ^ Zdigits2 x.
Proof.
  destruct x as [|p|p]; try lia. intros _. simpl Zdigits2.
  rewrite digits2_size.
  pose proof (Pos.size_gt p) as Hgt. pose proof (Pos.size_le p) as Hle.
  rewrite <- Pos2Z.inj_pow. split; [|lia].
  assert (Hs : 2 * 2 ^ (Z.pos (Pos.size p) - 1) = 2 ^ Z.pos (Pos.size p)).
  { rewrite <- (Z.pow_succ_r 2) by lia. f_equal. lia. }
  rewrite <- Pos2Z.inj_pow in Hs. lia.
Qed.

Lemma Zdigits2_unique (x d : Z) :
  2 ^ (d - 1) <= x < 2 ^ d -> 0 < x -> Zdigits2 x = d.
Proof.
  intros Hx Hpos. pose proof (Zdigits2_bounds x Hpos) as Hb.
  assert (Hd0 : 0 <= Zdigits2 x) by (destruct x; simpl; lia).
  assert (0 < d).
  { destruct (Z_lt_le_dec 0 d); auto.
    assert (2 ^ d <= 2 ^ 0) by (destruct (Z.eq_dec d 0); [subst; lia|rewrite Z.pow_neg_r; simpl; lia]).
    simpl in *. lia. }
  destruct (Z.lt_trichotomy (Zdigits2 x) d) as [Hl|[He|Hg]]; auto.
  - assert (2 ^ Zdigits2 x <= 2 ^ (d - 1)) by (apply Z.pow_le_mono_r; lia). lia.
  - assert (2 ^ d <= 2 ^ (Zdigits2 x - 1)) by (apply Z.pow_le_mono_r; lia). lia.
Qed.

Lemma Zdigits2_nonneg (x : Z) : 0 <= Zdigits2 x.
Proof. destruct x; simpl; lia. Qed.

Lemma Zdigits2_shift (x k : Z) :
  0 <= x -> 0 <= k -> Zdigits2 (x / 2 ^ k) = Z.max (Zdigits2 x - k) 0.
Proof.
  intros Hx Hk.
  assert (Hp : 0 < 2 ^ k) by (apply Z.pow_pos_nonneg; lia).
  destruct (Z.eq_dec x 0) as [->|Hx0].
  { rewrite Z.div_0_l by lia. simpl. lia. }
  pose proof (Zdigits2_bounds x ltac:(lia)) as Hb.
  destruct (Z_lt_le_dec k (Zdigits2 x)) as [Hlt|Hge].
  - rewrite Z.max_l by lia.
    assert (E1 : 2 ^ (Zdigits2 x - 1) = 2 ^ (Zdigits2 x - k - 1) * 2 ^ k)
      by (rewrite <- Z.pow_add_r by lia; f_equal; lia).
    assert (E2 : 2 ^ Zdigits2 x = 2 ^ (Zdigits2 x - k) * 2 ^ k)
      by (rewrite <- Z.pow_add_r by lia; f_equal; lia).
    assert (H1 : 2 ^ (Zdigits2 x - k - 1) <= x / 2 ^ k)
      by (apply Z.div_le_lower_bound; lia).
    assert (H2 : x / 2 ^ k < 2 ^ (Zdigits2 x - k))
      by (apply Z.div_lt_upper_bound; lia).
    assert (0 < 2 ^ (Zdigits2 x - k - 1)) by (apply Z.pow_pos_nonneg; lia).
    apply Zdigits2_unique; [split|]; auto; lia.
  - rewrite Z.max_r by lia.
    assert (2 ^ Zdigits2 x <= 2 ^ k) by (apply Z.pow_le_mono_r; lia).
    rewrite Z.div_small by lia. reflexivity.
Qed.

Lemma Zdigits2_mono (x y : Z) : 0 <= x <= y -> Zdigits2 x <= Zdigits2 y.
Proof.
  intros [Hx Hxy].
  destruct (Z.eq_dec x 0) as [->|Hx0]; [apply Zdigits2_nonneg|].
  pose proof (Zdigits2_bounds x ltac:(lia)).
  pose proof (Zdigits2_bounds y ltac:(lia)).
  destruct (Z_lt_le_dec (Zdigits2 y) (Zdigits2 x)); [|lia].
  assert (2 ^ Zdigits2 y <= 2 ^ (Zdigits2 x - 1))
    by (apply Z.pow_le_mono_r; lia).
  lia.
Qed.

(** *** What [binary_round_aux] returns

    On a significand [M] with location [l] at exponent [E], no coarser
    than the format wants, that stands for the number [A / B]:
    [rounded s A B], which depends on the number only. *)

Lemma fexp_eq (e : Z) : fexp prec emax e = Z.max (e - 24) (-149).
Proof. reflexivity. Qed.

Lemma round_aux_spec (s : bool) (M E : Z) (l : location) (A B : Z) :
  0 <= M -> fine <= E -> 0 < B ->
  code (shr_record_of_loc M l) = jam A (B * 2 ^ (E - fine)) ->
  E <= fexp prec emax (Zdigits2 M + E) ->
  binary_round_aux prec emax s M E l = rounded s A B.
Proof.
  intros HM HE HB Hcode Hn.
  assert (HD : 0 < B * 2 ^ (E - fine))
    by (apply Z.mul_pos_pos; [lia | apply Z.pow_pos_nonneg; lia]).
  assert (HMq : M = (A / B) / 2 ^ (E - fine + 1)).
  { rewrite <- (code_of_loc M l), <- code_div4, Hcode, jam_div4 by lia.
    rewrite Z.div_div by lia. f_equal.
    rewrite Z.pow_add_r by lia. change (2 ^ 1) with 2. lia. }
  assert (HAB : 0 <= A / B).
  { destruct (Z_lt_le_dec (A / B) 0) as [Hneg|]; [|lia].
    assert (A / B / 2 ^ (E - fine + 1) < 0).
    { apply Z.div_lt_upper_bound; [apply Z.pow_pos_nonneg; lia | lia]. }
    lia. }
  assert (Ht : fexp prec emax (Zdigits2 M + E) = target A B).
  { unfold target. rewrite !fexp_eq. rewrite fexp_eq in Hn.
    assert (Hd : Zdigits2 M = Z.max (Zdigits2 (A / B) - (E - fine + 1)) 0)
      by (rewrite HMq at 1; apply Zdigits2_shift; unfold fine in *; lia).
    rewrite Hd in *. unfold fine in *. lia. }
  unfold binary_round_aux, shr_fexp at 1.
  set (n := fexp prec emax (Zdigits2 M + E) - E).
  assert (Hn0 : 0 <= n) by (subst n; lia).
  destruct (shr_code (shr_record_of_loc M l) E n) as (Hc & Hm & He);
    [rewrite code_of_loc; lia | lia |].
  destruct (shr (shr_record_of_loc M l) E n) as [mrs' e'].
  cbn [fst snd] in *.
  rewrite rne_code, Hc, Hcode.
  replace (2 * 2 ^ n) with (2 * (2 ^ n)) by lia.
  rewrite jam_jam by (try apply Z.pow_pos_nonneg; lia).
  assert (He' : e' = target A B) by (subst n; lia).
  assert (HDn : B * 2 ^ (E - fine) * 2 ^ n = B * 2 ^ (target A B - fine)).
  { rewrite <- Z.mul_assoc, <- Z.pow_add_r by lia. do 2 f_equal. subst n. lia. }
  rewrite HDn, He'. reflexivity.
Qed.

(** *** Rounding to nearest even is monotone *)

Lemma rne_bounds (c : Z) : c / 4 <= rne c <= c / 4 + 1.
Proof.
  unfold rne. destruct (c mod 4 <=? 1); [lia|].
  destruct (c mod 4 =? 2); [destruct (Z.even (c / 4))|]; lia.
Qed.

Lemma rne_mono (c1 c2 : Z) : c1 <= c2 -> rne c1 <= rne c2.
Proof.
  intros Hle.
  pose proof (Z.div_mod c1 4 ltac:(lia)) as H1.
  pose proof (Z.mod_pos_bound c1 4 ltac:(lia)) as R1.
  pose proof (Z.div_mod c2 4 ltac:(lia)) as H2.
  pose proof (Z.mod_pos_bound c2 4 ltac:(lia)) as R2.
  destruct (Z.eq_dec (c1 / 4) (c2 / 4)) as [E|NE].
  - unfold rne. rewrite E.
    destruct (c1 mod 4 <=? 1) eqn:A1, (c2 mod 4 <=? 1) eqn:A2;
      destruct (c1 mod 4 =? 2) eqn:B1, (c2 mod 4 =? 2) eqn:B2;
      destruct (Z.even (c2 / 4)); lia.
  - assert (c1 / 4 < c2 / 4) by lia.
    pose proof (rne_bounds c1). pose proof (rne_bounds c2). lia.
Qed.

Lemma rne_exact (m : Z) : rne (4 * m) = m.
Proof.
  unfold rne.
  replace (4 * m) with (m * 4) by lia.
  rewrite Z.div_mul, Z.mod_mul by lia. reflexivity.
Qed.

(** *** The result is a canonical number, an infinity on overflow *)

Lemma target_mantissa (A B : Z) :
  0 <= A -> 0 < B ->
  let t := target A B in
  let c := jam A (B * 2 ^ (t - fine)) in
  -149 <= t /\ 0 <= c / 4 < 2 ^ 24 /\ (-149 < t -> 2 ^ 23 <= c / 4).
Proof.
  intros HA HB t c.
  assert (Ht : t = Z.max (Zdigits2 (A / B) + fine - 1 - 24) (-149)) by reflexivity.
  assert (Ht0 : -149 <= t) by lia.
  assert (HD : 0 < B * 2 ^ (t - fine))
    by (apply Z.mul_pos_pos; [lia | apply Z.pow_pos_nonneg; unfold fine; lia]).
  assert (HAB : 0 <= A / B) by (apply Z.div_pos; lia).
  assert (Hc : c / 4 = (A / B) / 2 ^ (t - fine + 1)).
  { subst c. rewrite jam_div4 by lia.
    rewrite Z.div_div by (try apply Z.pow_pos_nonneg; unfold fine; lia). f_equal.
    rewrite Z.pow_add_r by (unfold fine; lia). change (2 ^ 1) with 2. lia. }
  assert (Hd : Zdigits2 (c / 4) = Z.max (Zdigits2 (A / B) - (t - fine + 1)) 0)
    by (rewrite Hc; apply Zdigits2_shift; unfold fine; lia).
  assert (Hc0 : 0 <= c / 4).
  { rewrite Hc. apply Z.div_pos; [lia | apply Z.pow_pos_nonneg; unfold fine; lia]. }
  split; [exact Ht0|]. split; [split; [exact Hc0|]|].
  - destruct (Z.eq_dec (c / 4) 0) as [->|Hne]; [reflexivity|].
    pose proof (Zdigits2_bounds (c / 4) ltac:(lia)) as Hb.
    assert (2 ^ Zdigits2 (c / 4) <= 2 ^ 24)
      by (apply Z.pow_le_mono_r; unfold fine in *; lia).
    lia.
  - intros Hgt.
    assert (Hd24 : Zdigits2 (c / 4) = 24) by (unfold fine in *; lia).
    destruct (Z.eq_dec (c / 4) 0) as [E|Hne]; [rewrite E in Hd24; discriminate|].
    pose proof (Zdigits2_bounds (c / 4) ltac:(lia)) as Hb.
    rewrite Hd24 in Hb. exact (proj1 Hb).
Qed.

Lemma finish_cases (s : bool) (m e : Z) :
  0 <= m <= 2 ^ 24 -> -149 <= e -> (-149 < e -> 2 ^ 23 <= m) ->
  finish s m e =
  if m =? 0 then S754_zero s
  else if m =? 2 ^ 24 then
    (if e + 1 <=? 104 then S754_finite s (Z.to_pos (2 ^ 23)) (e + 1)
     else S754_infinity s)
  else (if e <=? 104 then S754_finite s (Z.to_pos m) e else S754_infinity s).
Proof.
  intros Hm He Hnorm. unfold finish, shr_fexp.
  destruct (m =? 0) eqn:E0.
  { apply Z.eqb_eq in E0. subst m. cbn [Zdigits2 shr_record_of_loc].
    rewrite fexp_eq. unfold shr.
    destruct (Z.max (0 + e - 24) (-149) - e) eqn:En; try reflexivity. lia. }
  apply Z.eqb_neq in E0.
  destruct (m =? 2 ^ 24) eqn:E24.
  { apply Z.eqb_eq in E24. subst m. cbn [Zdigits2 shr_record_of_loc].
    rewrite fexp_eq.
    assert (En : Z.max (Zdigits2 (2 ^ 24) + e - 24) (-149) - e = 1)
      by (change (Zdigits2 (2 ^ 24)) with 25; lia).
    rewrite En. reflexivity. }
  apply Z.eqb_neq in E24.
  assert (Hd : Zdigits2 m <= 24).
  { pose proof (Zdigits2_bounds m ltac:(lia)) as Hb.
    destruct (Z_lt_le_dec 24 (Zdigits2 m)); [|lia].
    assert (2 ^ 24 <= 2 ^ (Zdigits2 m - 1)) by (apply Z.pow_le_mono_r; lia).
    lia. }
  rewrite fexp_eq. cbn [shr_record_of_loc]. unfold shr.
  destruct (Z.max (Zdigits2 m + e - 24) (-149) - e) eqn:En; try lia;
    cbn [shr_m]; destruct m; try lia; reflexivity.
Qed.

Lemma bounded_intro (m : positive) (e : Z) :
  -149 <= e <= 104 -> Z.pos m < 2 ^ 24 -> (-149 < e -> 2 ^ 23 <= Z.pos m) ->
  bounded prec emax m e = true.
Proof.
  intros He Hm Hn. unfold bounded, canonical_mantissa.
  rewrite fexp_eq. change (emax - prec) with 104.
  apply andb_true_intro. split; [|apply Z.leb_le; lia].
  apply Z.eqb_eq.
  change (Z.pos (digits2_pos m)) with (Zdigits2 (Z.pos m)).
  destruct (Z.eq_dec e (-149)) as [->|Hne].
  - assert (Zdigits2 (Z.pos m) <= 24); [|lia].
    pose proof (Zdigits2_bounds (Z.pos m) ltac:(lia)) as Hb.
    destruct (Z_lt_le_dec 24 (Zdigits2 (Z.pos m))); [|lia].
    assert (2 ^ 24 <= 2 ^ (Zdigits2 (Z.pos m) - 1)) by (apply Z.pow_le_mono_r; lia).
    lia.
  - rewrite (Zdigits2_unique (Z.pos m) 24); [lia | | lia].
    change (24 - 1) with 23. split; [apply Hn|]; lia.
Qed.

Lemma bounded_elim (m : positive) (e : Z) :
  bounded prec emax m e = true ->
  -149 <= e <= 104 /\ Z.pos m < 2 ^ 24 /\ (-149 < e -> 2 ^ 23 <= Z.pos m).
Proof.
  unfold bounded, canonical_mantissa. rewrite fexp_eq.
  change (emax - prec) with 104.
  change (Z.pos (digits2_pos m)) with (Zdigits2 (Z.pos m)).
  intros Hb. apply andb_prop in Hb. destruct Hb as [Hc He].
  apply Z.eqb_eq in Hc. apply Z.leb_le in He.
  pose proof (Zdigits2_bounds (Z.pos m) ltac:(lia)) as Hd.
  assert (Zdigits2 (Z.pos m) <= 24) by lia.
  split; [lia|]. split.
  - assert (2 ^ Zdigits2 (Z.pos m) <= 2 ^ 24) by (apply Z.pow_le_mono_r; lia). lia.
  - intros Hgt. assert (E : Zdigits2 (Z.pos m) = 24) by lia.
    rewrite E in Hd. exact (proj1 Hd).
Qed.

Lemma pow2_split (a b : Z) : 0 <= a -> 0 <= b -> 2 ^ (a + b) = 2 ^ a * 2 ^ b.
Proof. intros. apply Z.pow_add_r; lia. Qed.

Lemma rounded_props (s : bool) (A B : Z) :
  0 <= A -> 0 < B ->
  ord (rounded s A B) = cond_Zopp s (ordR A B) /\
  valid_binary prec emax (rounded s A B) = true /\
  is_nan (rounded s A B) = false.
Proof.
  intros HA HB.
  destruct (target_mantissa A B HA HB) as (Ht & Hc & Hnorm).
  unfold rounded, ordR.
  set (t := target A B) in *.
  set (c := jam A (B * 2 ^ (t - fine))) in *.
  pose proof (rne_bounds c) as Hr.
  set (m := rne c) in *.
  rewrite finish_cases by lia.
  assert (HP : 0 < 2 ^ (t + 301)) by (apply Z.pow_pos_nonneg; lia).
  destruct (m =? 0) eqn:E0.
  { apply Z.eqb_eq in E0. rewrite E0. simpl. destruct s; auto. }
  apply Z.eqb_neq in E0.
  destruct (m =? 2 ^ 24) eqn:E24.
  - apply Z.eqb_eq in E24. rewrite E24.
    destruct (t + 1 <=? 104) eqn:El;
      [apply Z.leb_le in El | apply Z.leb_gt in El].
    + repeat split.
      * cbn [ord]. f_equal.
        assert (Hle : 2 ^ 24 * 2 ^ (t + 301) <= 2 ^ 24 * 2 ^ 404).
        { apply Z.mul_le_mono_nonneg_l; [lia|].
          apply Z.pow_le_mono_r; lia. }
        replace (2 ^ 24 * 2 ^ 404) with (2 ^ 428) in Hle by reflexivity.
        rewrite Z.min_l by (change (2 ^ 429) with (2 * 2 ^ 428); lia).
        replace (t + 1 + 301) with (1 + (t + 301)) by lia.
        rewrite pow2_split by lia.
        change (Z.pos (Z.to_pos (2 ^ 23))) with (2 ^ 23).
        rewrite Z.mul_assoc. reflexivity.
      * cbn [valid_binary]. apply bounded_intro; try lia; simpl; lia.
    + repeat split. cbn [ord]. f_equal.
      assert (Hle : 2 ^ 24 * 2 ^ 405 <= 2 ^ 24 * 2 ^ (t + 301)).
      { apply Z.mul_le_mono_nonneg_l; [lia|].
        apply Z.pow_le_mono_r; lia. }
      replace (2 ^ 24 * 2 ^ 405) with (2 ^ 429) in Hle by reflexivity.
      rewrite Z.min_r; lia.
  - apply Z.eqb_neq in E24.
    destruct (t <=? 104) eqn:El;
      [apply Z.leb_le in El | apply Z.leb_gt in El].
    + repeat split.
      * cbn [ord]. f_equal. rewrite Z2Pos.id by lia.
        assert (Hle : m * 2 ^ (t + 301) < 2 ^ 24 * 2 ^ 405).
        { apply Z.le_lt_trans with (m * 2 ^ 405).
          - apply Z.mul_le_mono_nonneg_l; [lia|].
            apply Z.pow_le_mono_r; lia.
          - apply Z.mul_lt_mono_pos_r; [reflexivity|lia]. }
        replace (2 ^ 24 * 2 ^ 405) with (2 ^ 429) in Hle by reflexivity.
        rewrite Z.min_l; lia.
      * cbn [valid_binary]. apply bounded_intro; rewrite ?Z2Pos.id; lia.
    + repeat split. cbn [ord]. f_equal.
      assert (Hle : 2 ^ 23 * 2 ^ 406 <= m * 2 ^ (t + 301)).
      { apply Z.le_trans with (2 ^ 23 * 2 ^ (t + 301)).
        - apply Z.mul_le_mono_nonneg_l; [lia|].
          apply Z.pow_le_mono_r; lia.
        - apply Z.mul_le_mono_nonneg_r; lia. }
      replace (2 ^ 23 * 2 ^ 406) with (2 ^ 429) in Hle by reflexivity.
      rewrite Z.min_r; lia.
Qed.

(** *** The value of the result is monotone in the number rounded *)

Lemma target_mono (X Y B : Z) :
  0 <= X <= Y -> 0 < B -> target X B <= target Y B.
Proof.
  intros HXY HB. unfold target. rewrite !fexp_eq.
  assert (Zdigits2 (X / B) <= Zdigits2 (Y / B)).
  { apply Zdigits2_mono. split; [apply Z.div_pos; lia|].
    apply Z.div_le_mono; lia. }
  lia.
Qed.

Lemma ordR_scale (A B k : Z) :
  0 < B -> 0 < k -> ordR (A * k) (B * k) = ordR A B.
Proof.
  intros HB Hk. unfold ordR, target.
  rewrite Z.div_mul_cancel_r by lia.
  set (t := fexp prec emax (Zdigits2 (A / B) + fine - 1)).
  assert (-149 <= t) by (subst t; rewrite fexp_eq; lia).
  replace (B * k * 2 ^ (t - fine)) with (B * 2 ^ (t - fine) * k) by lia.
  rewrite jam_scale; [reflexivity| |lia].
  apply Z.mul_pos_pos; [lia|apply Z.pow_pos_nonneg; unfold fine; lia].
Qed.

Lemma ordR_mono_num (X Y B : Z) :
  0 <= X <= Y -> 0 < B -> ordR X B <= ordR Y B.
Proof.
  intros HXY HB.
  pose proof (target_mono X Y B HXY HB) as Ht.
  destruct (target_mantissa X B ltac:(lia) HB) as (HtX & HcX & HnX).
  destruct (target_mantissa Y B ltac:(lia) HB) as (HtY & HcY & HnY).
  unfold ordR.
  set (tX := target X B) in *. set (tY := target Y B) in *.
  set (cX := jam X (B * 2 ^ (tX - fine))) in *.
  set (cY := jam Y (B * 2 ^ (tY - fine))) in *.
  pose proof (rne_bounds cX) as HrX. pose proof (rne_bounds cY) as HrY.
  apply Z.min_le_compat_r.
  destruct (Z.eq_dec tX tY) as [E|NE].
  - assert (HcXY : cX <= cY).
    { subst cX cY. rewrite E. apply jam_mono; [|lia].
      apply Z.mul_pos_pos; [lia|apply Z.pow_pos_nonneg; unfold fine; lia]. }
    apply rne_mono in HcXY. rewrite E.
    apply Z.mul_le_mono_nonneg_r; [apply Z.pow_nonneg|]; lia.
  - assert (HlX : rne cX * 2 ^ (tX + 301) <= 2 ^ 24 * 2 ^ (tX + 301))
      by (apply Z.mul_le_mono_nonneg_r; [apply Z.pow_nonneg|]; lia).
    assert (HlY : 2 ^ 23 * 2 ^ (tY + 301) <= rne cY * 2 ^ (tY + 301))
      by (apply Z.mul_le_mono_nonneg_r; [apply Z.pow_nonneg|]; lia).
    assert (Hmid : 2 ^ 24 * 2 ^ (tX + 301) <= 2 ^ 23 * 2 ^ (tY + 301)).
    { rewrite <- !pow2_split by lia. apply Z.pow_le_mono_r; lia. }
    lia.
Qed.

Lemma ordR_mono (A1 B1 A2 B2 : Z) :
  0 <= A1 -> 0 < B1 -> 0 < B2 -> A1 * B2 <= A2 * B1 ->
  ordR A1 B1 <= ordR A2 B2.
Proof.
  intros HA HB1 HB2 Hle.
  rewrite <- (ordR_scale A1 B1 B2), <- (ordR_scale A2 B2 B1) by lia.
  replace (B2 * B1) with (B1 * B2) by lia.
  apply ordR_mono_num; [nia | nia].
Qed.

Lemma ordR_nonneg (A B : Z) : 0 <= A -> 0 < B -> 0 <= ordR A B.
Proof.
  intros HA HB.
  destruct (target_mantissa A B HA HB) as (Ht & Hc & _).
  unfold ordR. pose proof (rne_bounds (jam A (B * 2 ^ (target A B - fine)))).
  apply Z.min_glb; [|apply Z.pow_nonneg; lia].
  apply Z.mul_nonneg_nonneg; [lia|apply Z.pow_nonneg; lia].
Qed.

Lemma ordR_0 (B : Z) : 0 < B -> ordR 0 B = 0.
Proof.
  intros HB. unfold ordR, target. rewrite Z.div_0_l by lia.
  unfold jam. rewrite Z.div_0_l, Z.mod_0_l.
  - reflexivity.
  - apply Z.neq_mul_0. split; [lia|]. apply Z.pow_nonzero; [lia|].
    rewrite fexp_eq. unfold fine. simpl. lia.
  - apply Z.neq_mul_0. split; [lia|]. apply Z.pow_nonzero; [lia|].
    rewrite fexp_eq. unfold fine. simpl. lia.
Qed.

(** ** Order of valid numbers *)

Lemma bounded_ord_lt (m : positive) (e : Z) :
  bounded prec emax m e = true -> 0 < Z.pos m * 2 ^ (e + 301) < 2 ^ 429.
Proof.
  intros Hb. apply bounded_elim in Hb. destruct Hb as (He & Hm & _).
  assert (0 < 2 ^ (e + 301)) by (apply Z.pow_pos_nonneg; lia).
  split; [lia|].
  apply Z.lt_le_trans with (2 ^ 24 * 2 ^ (e + 301)).
  - apply Z.mul_lt_mono_pos_r; lia.
  - rewrite <- pow2_split by lia. apply Z.pow_le_mono_r; lia.
Qed.

Lemma bounded_ord_exp (m1 m2 : positive) (e1 e2 : Z) :
  bounded prec emax m1 e1 = true -> bounded prec emax m2 e2 = true ->
  e1 < e2 -> Z.pos m1 * 2 ^ (e1 + 301) < Z.pos m2 * 2 ^ (e2 + 301).
Proof.
  intros H1 H2 Hlt.
  apply bounded_elim in H1. destruct H1 as (He1 & Hm1 & _).
  apply bounded_elim in H2. destruct H2 as (He2 & _ & Hn2).
  assert (0 < 2 ^ (e1 + 301)) by (apply Z.pow_pos_nonneg; lia).
  assert (0 < 2 ^ (e2 + 301)) by (apply Z.pow_pos_nonneg; lia).
  apply Z.lt_le_trans with (2 ^ 24 * 2 ^ (e1 + 301)).
  - apply Z.mul_lt_mono_pos_r; lia.
  - apply Z.le_trans with (2 ^ 23 * 2 ^ (e2 + 301)).
    + rewrite <- !pow2_split by lia. apply Z.pow_le_mono_r; lia.
    + apply Z.mul_le_mono_nonneg_r; lia.
Qed.

Lemma mul_compare_r (a b p : Z) : 0 < p -> (a * p ?= b * p) = (a ?= b).
Proof.
  intros Hp. destruct (Z.compare_spec a b) as [E|L|G].
  - subst. apply Z.compare_refl.
  - apply Z.compare_lt_iff. nia.
  - apply Z.compare_gt_iff. nia.
Qed.

Lemma compare_ord (x y : float) :
  valid_binary prec emax x = true -> valid_binary prec emax y = true ->
  is_nan x = false -> is_nan y = false ->
  SFcompare x y = Some (ord x ?= ord y).
Proof.
  intros Vx Vy Nx Ny.
  destruct x as [sx|sx| |sx mx ex], y as [sy|sy| |sy my ey];
    try discriminate; cbn [valid_binary] in *; cbn [SFcompare ord].
  - reflexivity.
  - destruct sy; reflexivity.
  - pose proof (bounded_ord_lt _ _ Vy). destruct sy; cbn [cond_Zopp]; f_equal;
      symmetry; [apply Z.compare_gt_iff | apply Z.compare_lt_iff]; lia.
  - destruct sx; reflexivity.
  - destruct sx, sy; reflexivity.
  - pose proof (bounded_ord_lt _ _ Vy).
    destruct sx, sy; cbn [cond_Zopp]; f_equal; symmetry;
      try (apply Z.compare_gt_iff; lia); try (apply Z.compare_lt_iff; lia).
  - pose proof (bounded_ord_lt _ _ Vx). destruct sx; cbn [cond_Zopp]; f_equal;
      symmetry; [apply Z.compare_lt_iff | apply Z.compare_gt_iff]; lia.
  - pose proof (bounded_ord_lt _ _ Vx).
    destruct sx, sy; cbn [cond_Zopp]; f_equal; symmetry;
      try (apply Z.compare_gt_iff; lia); try (apply Z.compare_lt_iff; lia).
  - pose proof (bounded_ord_lt _ _ Vx). pose proof (bounded_ord_lt _ _ Vy).
    change (Pos.compare_cont Eq mx my) with (Z.pos mx ?= Z.pos my).
    destruct sx, sy; cbn [cond_Zopp]; f_equal.
    + destruct (Z.compare_spec ex ey) as [E|L|G].
      * subst ey.
        assert (0 < 2 ^ (ex + 301))
          by (apply Z.pow_pos_nonneg; apply bounded_elim in Vx; lia).
        destruct (Z.compare_spec (Z.pos mx) (Z.pos my)); cbn [CompOpp];
          symmetry;
          [apply Z.compare_eq_iff | apply Z.compare_gt_iff
           | apply Z.compare_lt_iff]; nia.
      * symmetry. apply Z.compare_gt_iff.
        pose proof (bounded_ord_exp _ _ _ _ Vx Vy L). lia.
      * symmetry. apply Z.compare_lt_iff.
        pose proof (bounded_ord_exp _ _ _ _ Vy Vx ltac:(lia)). lia.
    + symmetry. apply Z.compare_lt_iff. lia.
    + symmetry. apply Z.compare_gt_iff. lia.
    + destruct (Z.compare_spec ex ey) as [E|L|G].
      * subst ey.
        rewrite mul_compare_r by (apply Z.pow_pos_nonneg;
          apply bounded_elim in Vx; lia).
        reflexivity.
      * symmetry. apply Z.compare_lt_iff.
        exact (bounded_ord_exp _ _ _ _ Vx Vy L).
      * symmetry. apply Z.compare_gt_iff.
        pose proof (bounded_ord_exp _ _ _ _ Vy Vx ltac:(lia)). lia.
Qed.

(** *** Signed numbers *)

Lemma ordRQ_mono (A1 B1 A2 B2 : Z) :
  0 < B1 -> 0 < B2 -> A1 * B2 <= A2 * B1 -> ordRQ A1 B1 <= ordRQ A2 B2.
Proof.
  intros HB1 HB2 Hle. unfold ordRQ.
  destruct (A1 <? 0) eqn:E1, (A2 <? 0) eqn:E2;
    [apply Z.ltb_lt in E1 | apply Z.ltb_lt in E1 | apply Z.ltb_ge in E1
     | apply Z.ltb_ge in E1];
    [apply Z.ltb_lt in E2 | apply Z.ltb_ge in E2 | apply Z.ltb_lt in E2
     | apply Z.ltb_ge in E2].
  - assert (ordR (- A2) B2 <= ordR (- A1) B1) by (apply ordR_mono; nia). lia.
  - pose proof (ordR_nonneg (- A1) B1 ltac:(lia) HB1).
    pose proof (ordR_nonneg A2 B2 ltac:(lia) HB2). lia.
  - nia.
  - apply ordR_mono; lia.
Qed.

Lemma ordRQ_opp (A B : Z) : 0 < B -> ordRQ (- A) B = - ordRQ A B.
Proof.
  intros HB. unfold ordRQ.
  destruct (Z.lt_trichotomy A 0) as [L|[E|G]].
  - destruct (- A <? 0) eqn:E1; [apply Z.ltb_lt in E1; lia|].
    destruct (A <? 0) eqn:E2; [|apply Z.ltb_ge in E2; lia]. lia.
  - subst A. simpl. rewrite ordR_0 by lia. reflexivity.
  - destruct (- A <? 0) eqn:E1; [|apply Z.ltb_ge in E1; lia].
    destruct (A <? 0) eqn:E2; [apply Z.ltb_lt in E2; lia|].
    rewrite Z.opp_involutive. reflexivity.
Qed.

Lemma roundZ_props (V : Z) :
  ord (roundZ V) = ordRQ V 1 /\
  valid_binary prec emax (roundZ V) = true /\
  is_nan (roundZ V) = false.
Proof.
  unfold roundZ, ordRQ.
  destruct (V =? 0) eqn:E0.
  { apply Z.eqb_eq in E0. subst V. simpl. rewrite ordR_0 by lia. auto. }
  apply Z.eqb_neq in E0.
  destruct (rounded_props (V <? 0) (Z.abs V) 1 ltac:(lia) ltac:(lia))
    as (Ho & Hv & Hn).
  rewrite Ho. repeat split; auto.
  destruct (V <? 0) eqn:E; [apply Z.ltb_lt in E | apply Z.ltb_ge in E];
    cbn [cond_Zopp].
  - rewrite Z.abs_neq by lia. reflexivity.
  - rewrite Z.abs_eq by lia. reflexivity.
Qed.

(** *** [binary_normalize]: conversion of integers, sums *)

Lemma iter_xO (d m : positive) :
  Z.pos (Pos.iter xO m d) = Z.pos m * 2 ^ Z.pos d.
Proof.
  induction d as [|d IH] using Pos.peano_ind.
  - simpl. lia.
  - rewrite Pos.iter_succ, Pos2Z.inj_succ, Z.pow_succ_r by lia.
    rewrite Pos2Z.inj_xO, IH. lia.
Qed.

Lemma shl_align_spec (mx : positive) (ex ex' : Z) :
  snd (shl_align mx ex ex') = Z.min ex ex' /\
  Z.pos (fst (shl_align mx ex ex'))
  = Z.pos mx * 2 ^ (ex - Z.min ex ex').
Proof.
  unfold shl_align. destruct (ex' - ex) as [|d|d] eqn:Ed; cbn [fst snd].
  - rewrite Z.min_l by lia. rewrite Z.sub_diag. simpl. lia.
  - rewrite Z.min_l by lia. rewrite Z.sub_diag. simpl. lia.
  - rewrite Z.min_r by lia. split; [reflexivity|].
    rewrite iter_xO. do 2 f_equal. lia.
Qed.

Lemma Zdigits2_mul_pow2 (x k : Z) :
  0 < x -> 0 <= k -> Zdigits2 (x * 2 ^ k) = Zdigits2 x + k.
Proof.
  intros Hx Hk.
  assert (Hp : 0 < 2 ^ k) by (apply Z.pow_pos_nonneg; lia).
  pose proof (Zdigits2_bounds x Hx) as Hb.
  assert (Hd : 0 < Zdigits2 x).
  { destruct x; simpl; lia. }
  apply Zdigits2_unique; [|nia].
  replace (Zdigits2 x + k - 1) with (Zdigits2 x - 1 + k) by lia.
  rewrite !pow2_split by lia. nia.
Qed.

Lemma binary_round_spec (s : bool) (mx : positive) (ex : Z) :
  fine <= ex ->
  binary_round prec emax s mx ex = rounded s (Z.pos mx * 2 ^ (ex + 301)) 1.
Proof.
  intros Hex. unfold binary_round.
  set (f := fexp prec emax (Z.pos (digits2_pos mx) + ex)).
  assert (Hf : f = Z.max (Zdigits2 (Z.pos mx) + ex - 24) (-149)) by reflexivity.
  destruct (shl_align_spec mx ex f) as [He Hm].
  destruct (shl_align mx ex f) as [mz ez]. cbn [fst snd] in *.
  rewrite <- He in Hm.
  assert (Hk : 0 <= ex - ez) by lia.
  assert (Hez : fine <= ez) by (unfold fine in *; lia).
  apply round_aux_spec; try lia.
  - cbn [shr_record_of_loc code shr_m shr_r shr_s].
    rewrite Z.mul_1_l.
    replace (Z.pos mx * 2 ^ (ex + 301))
      with (2 * Z.pos mz * 2 ^ (ez - fine)).
    + rewrite jam_exact by (apply Z.pow_pos_nonneg; unfold fine in *; lia).
      unfold code; cbn [shr_m shr_r shr_s]. lia.
    + rewrite Hm. replace (ex + 301) with ((ex - ez) + 1 + (ez - fine))
        by (unfold fine; lia).
      rewrite !pow2_split by (unfold fine in *; lia).
      change (2 ^ 1) with 2. ring.
  - rewrite Hm, Zdigits2_mul_pow2 by lia.
    rewrite fexp_eq. lia.
Qed.

Lemma binary_normalize_spec (X E : Z) :
  fine <= E ->
  binary_normalize prec emax X E false = roundZ (X * 2 ^ (E + 301)).
Proof.
  intros HE. unfold roundZ, binary_normalize.
  assert (Hp : 0 < 2 ^ (E + 301))
    by (apply Z.pow_pos_nonneg; unfold fine in *; lia).
  destruct X as [|p|p].
  - reflexivity.
  - destruct (Z.pos p * 2 ^ (E + 301) =? 0) eqn:E0;
      [apply Z.eqb_eq in E0; lia|].
    destruct (Z.pos p * 2 ^ (E + 301) <? 0) eqn:E1;
      [apply Z.ltb_lt in E1; lia|].
    rewrite Z.abs_eq by lia. now apply binary_round_spec.
  - destruct (Z.neg p * 2 ^ (E + 301) =? 0) eqn:E0;
      [apply Z.eqb_eq in E0; lia|].
    destruct (Z.neg p * 2 ^ (E + 301) <? 0) eqn:E1;
      [|apply Z.ltb_ge in E1; lia].
    rewrite Z.abs_neq by lia.
    replace (- (Z.neg p * 2 ^ (E + 301))) with (Z.pos p * 2 ^ (E + 301)) by lia.
    now apply binary_round_spec.
Qed.

(** *** Addition and subtraction

    The result is the rounded exact sum, and a representable number is
    its own rounding. *)

Lemma wf_finite (s : bool) (m : positive) (e : Z) :
  wf (S754_finite s m e) = true -> bounded prec emax m e = true.
Proof. unfold wf. cbn [valid_binary finite]. now rewrite andb_true_r. Qed.

Lemma wf_valid (x : float) :
  wf x = true -> valid_binary prec emax x = true /\ is_nan x = false.
Proof.
  unfold wf. intros Hw. apply andb_prop in Hw. destruct Hw as [Hv Hf].
  split; [exact Hv|]. destruct x; try discriminate; reflexivity.
Qed.

Lemma ordR_id (m : positive) (e : Z) :
  bounded prec emax m e = true ->
  ordR (Z.pos m * 2 ^ (e + 301)) 1 = Z.pos m * 2 ^ (e + 301).
Proof.
  intros Hb. pose proof (bounded_ord_lt m e Hb) as Hlt.
  assert (Hc : fexp prec emax (Zdigits2 (Z.pos m) + e) = e).
  { unfold bounded, canonical_mantissa in Hb. apply andb_prop in Hb.
    destruct Hb as [Hc _]. apply Z.eqb_eq in Hc. exact Hc. }
  apply bounded_elim in Hb. destruct Hb as (He & Hm & _).
  unfold ordR, target. rewrite Z.div_1_r.
  rewrite Zdigits2_mul_pow2 by lia.
  replace (Zdigits2 (Z.pos m) + (e + 301) + fine - 1)
    with (Zdigits2 (Z.pos m) + e) by (unfold fine; lia).
  rewrite Hc, Z.mul_1_l.
  replace (Z.pos m * 2 ^ (e + 301)) with (2 * Z.pos m * 2 ^ (e - fine)) at 1.
  - rewrite jam_exact by (apply Z.pow_pos_nonneg; unfold fine; lia).
    replace (2 * (2 * Z.pos m)) with (4 * Z.pos m) by lia.
    rewrite rne_exact. apply Z.min_l. lia.
  - replace (e + 301) with (1 + (e - fine)) by (unfold fine; lia).
    rewrite pow2_split by (unfold fine; lia). change (2 ^ 1) with 2. ring.
Qed.

Lemma ordRQ_id (x : float) : wf x = true -> ordRQ (ord x) 1 = ord x.
Proof.
  intros Hw. destruct x as [s|s| |s m e]; try discriminate.
  - unfold ordRQ. simpl. now rewrite ordR_0.
  - apply wf_finite in Hw. pose proof (bounded_ord_lt m e Hw) as Hlt.
    cbn [ord]. destruct s; cbn [cond_Zopp].
    + rewrite ordRQ_opp by lia. f_equal.
      unfold ordRQ. destruct (_ <? 0) eqn:E; [apply Z.ltb_lt in E; lia|].
      now apply ordR_id.
    + unfold ordRQ. destruct (_ <? 0) eqn:E; [apply Z.ltb_lt in E; lia|].
      now apply ordR_id.
Qed.

Lemma aligned_sum (sx sy : bool) (mx my : positive) (ex ey : Z) (sg : Z) :
  -149 <= ex -> -149 <= ey -> (sg = 1 \/ sg = -1) ->
  (cond_Zopp sx (Z.pos (fst (shl_align mx ex (Z.min ex ey))))
   + sg * cond_Zopp sy (Z.pos (fst (shl_align my ey (Z.min ex ey)))))
  * 2 ^ (Z.min ex ey + 301)
  = cond_Zopp sx (Z.pos mx * 2 ^ (ex + 301))
    + sg * cond_Zopp sy (Z.pos my * 2 ^ (ey + 301)).
Proof.
  intros Hex Hey Hsg.
  destruct (shl_align_spec mx ex (Z.min ex ey)) as [_ Hx].
  destruct (shl_align_spec my ey (Z.min ex ey)) as [_ Hy].
  rewrite Hx, Hy.
  replace (Z.min ex (Z.min ex ey)) with (Z.min ex ey) by lia.
  replace (Z.min ey (Z.min ex ey)) with (Z.min ex ey) by lia.
  set (ez := Z.min ex ey).
  assert (Hx' : 2 ^ (ex + 301) = 2 ^ (ex - ez) * 2 ^ (ez + 301))
    by (rewrite <- pow2_split by lia; f_equal; lia).
  assert (Hy' : 2 ^ (ey + 301) = 2 ^ (ey - ez) * 2 ^ (ez + 301))
    by (rewrite <- pow2_split by lia; f_equal; lia).
  rewrite Hx', Hy'.
  destruct sx, sy; cbn [cond_Zopp]; ring.
Qed.

Lemma add_spec (x y : float) :
  wf x = true -> wf y = true ->
  ord (SFadd prec emax x y) = ordRQ (ord x + ord y) 1 /\
  valid_binary prec emax (SFadd prec emax x y) = true /\
  is_nan (SFadd prec emax x y) = false.
Proof.
  intros Hx Hy.
  destruct x as [sx|sx| |sx mx ex]; try discriminate;
    destruct y as [sy|sy| |sy my ey]; try discriminate.
  - cbn [SFadd ord]. unfold ordRQ; simpl. rewrite ordR_0 by lia.
    destruct sx, sy; auto.
  - cbn [SFadd]. change (ord (S754_zero sx)) with 0.
    rewrite Z.add_0_l, (ordRQ_id _ Hy).
    destruct (wf_valid _ Hy). auto.
  - cbn [SFadd]. change (ord (S754_zero sy)) with 0.
    rewrite Z.add_0_r, (ordRQ_id _ Hx). destruct (wf_valid _ Hx). auto.
  - pose proof (bounded_elim _ _ (wf_finite _ _ _ Hx)) as (Hex & _ & _).
    pose proof (bounded_elim _ _ (wf_finite _ _ _ Hy)) as (Hey & _ & _).
    cbn [SFadd]. rewrite binary_normalize_spec by (unfold fine; lia).
    pose proof (aligned_sum sx sy mx my ex ey 1 ltac:(lia) ltac:(lia)
                  ltac:(auto)) as Hs.
    rewrite !Z.mul_1_l in Hs. rewrite Hs.
    apply roundZ_props.
Qed.

Lemma sub_spec (x y : float) :
  wf x = true -> wf y = true ->
  ord (SFsub prec emax x y) = ordRQ (ord x - ord y) 1 /\
  valid_binary prec emax (SFsub prec emax x y) = true /\
  is_nan (SFsub prec emax x y) = false.
Proof.
  intros Hx Hy.
  destruct x as [sx|sx| |sx mx ex]; try discriminate;
    destruct y as [sy|sy| |sy my ey]; try discriminate.
  - cbn [SFsub ord]. unfold ordRQ; simpl. rewrite ordR_0 by lia.
    destruct sx, sy; auto.
  - cbn [SFsub]. change (ord (S754_zero sx)) with 0.
    rewrite Z.sub_0_l, ordRQ_opp, (ordRQ_id _ Hy) by lia.
    destruct (wf_valid _ Hy) as [Hv _]. cbn [valid_binary] in *.
    repeat split; auto. cbn [ord]. destruct sy; cbn [negb cond_Zopp]; lia.
  - cbn [SFsub]. change (ord (S754_zero sy)) with 0.
    rewrite Z.sub_0_r, (ordRQ_id _ Hx). destruct (wf_valid _ Hx). auto.
  - pose proof (bounded_elim _ _ (wf_finite _ _ _ Hx)) as (Hex & _ & _).
    pose proof (bounded_elim _ _ (wf_finite _ _ _ Hy)) as (Hey & _ & _).
    cbn [SFsub]. rewrite binary_normalize_spec by (unfold fine; lia).
    pose proof (aligned_sum sx sy mx my ex ey (-1) ltac:(lia) ltac:(lia)
                  ltac:(auto)) as Hs.
    cbn [ord].
    replace (cond_Zopp sx (Z.pos mx * 2 ^ (ex + 301)) -
             cond_Zopp sy (Z.pos my * 2 ^ (ey + 301)))
      with (cond_Zopp sx (Z.pos mx * 2 ^ (ex + 301)) +
            -1 * cond_Zopp sy (Z.pos my * 2 ^ (ey + 301))) by lia.
    rewrite <- Hs.
    match goal with
    | |- context [roundZ (?a * _)] =>
        match goal with
        | |- context [ordRQ (?b * _) 1] => replace a with b by lia
        end
    end.
    apply roundZ_props.
Qed.

(** *** Multiplication and division *)

Lemma Zdigits2_pow2 (k : Z) : 0 <= k -> Zdigits2 (2 ^ k) = k + 1.
Proof.
  intros Hk. apply Zdigits2_unique; [|apply Z.pow_pos_nonneg; lia].
  replace (k + 1 - 1) with k by lia. split; [lia|].
  apply Z.pow_lt_mono_r; lia.
Qed.

Lemma Zdigits2_mul (a b : Z) :
  0 < a -> 0 < b -> Zdigits2 a + Zdigits2 b - 1 <= Zdigits2 (a * b).
Proof.
  intros Ha Hb.
  pose proof (Zdigits2_bounds a Ha) as [Ha1 _].
  pose proof (Zdigits2_bounds b Hb) as [Hb1 _].
  assert (0 < Zdigits2 a) by (destruct a; simpl; lia).
  assert (0 < Zdigits2 b) by (destruct b; simpl; lia).
  assert (Hp : 2 ^ (Zdigits2 a - 1 + (Zdigits2 b - 1)) <= a * b).
  { rewrite pow2_split by lia.
    apply Z.mul_le_mono_nonneg; try lia; apply Z.pow_nonneg; lia. }
  pose proof (Zdigits2_mono (2 ^ (Zdigits2 a - 1 + (Zdigits2 b - 1))) (a * b)) as Hm.
  rewrite Zdigits2_pow2 in Hm by lia.
  assert (0 <= 2 ^ (Zdigits2 a - 1 + (Zdigits2 b - 1))) by (apply Z.pow_nonneg; lia).
  lia.
Qed.

Lemma Zdigits2_div (a b : Z) :
  0 < a -> 0 < b -> Zdigits2 a - Zdigits2 b <= Zdigits2 (a / b).
Proof.
  intros Ha Hb.
  pose proof (Zdigits2_bounds a Ha) as [Ha1 _].
  pose proof (Zdigits2_bounds b Hb) as [_ Hb2].
  pose proof (Zdigits2_nonneg (a / b)).
  assert (0 < Zdigits2 b) by (destruct b; simpl; lia).
  destruct (Z_le_gt_dec (Zdigits2 a - Zdigits2 b) 0) as [|Hgt]; [lia|].
  set (k := Zdigits2 a - Zdigits2 b - 1).
  assert (Hk : 0 <= k) by (subst k; lia).
  assert (Hq : 2 ^ k <= a / b).
  { apply Z.div_le_lower_bound; [lia|].
    apply Z.le_trans with (2 ^ Zdigits2 b * 2 ^ k).
    - apply Z.mul_le_mono_nonneg_r; [apply Z.pow_nonneg|]; lia.
    - rewrite <- pow2_split by lia.
      replace (Zdigits2 b + k) with (Zdigits2 a - 1) by (subst k; lia). exact Ha1. }
  pose proof (Zdigits2_mono (2 ^ k) (a / b)) as Hm.
  rewrite Zdigits2_pow2 in Hm by lia.
  assert (0 <= 2 ^ k) by (apply Z.pow_nonneg; lia).
  subst k. lia.
Qed.

Lemma mul_spec (x y : float) :
  wf x = true -> wf y = true ->
  ord (SFmul prec emax x y) = ordRQ (ord x * ord y) (2 ^ 301) /\
  valid_binary prec emax (SFmul prec emax x y) = true /\
  is_nan (SFmul prec emax x y) = false.
Proof.
  intros Hx Hy.
  assert (HB : 0 < 2 ^ 301) by reflexivity.
  assert (H0 : ordRQ 0 (2 ^ 301) = 0) by (unfold ordRQ; simpl; now rewrite ordR_0).
  destruct x as [sx|sx| |sx mx ex]; try discriminate;
    destruct y as [sy|sy| |sy my ey]; try discriminate;
    try (cbn [SFmul]; change (ord (S754_zero sx)) with 0;
         change (ord (S754_zero sy)) with 0;
         rewrite ?Z.mul_0_l, ?Z.mul_0_r, H0; auto).
  pose proof (wf_finite _ _ _ Hx) as Bx. pose proof (wf_finite _ _ _ Hy) as By.
  pose proof (bounded_ord_lt _ _ Bx) as Ox. pose proof (bounded_ord_lt _ _ By) as Oy.
  assert (Cx : fexp prec emax (Zdigits2 (Z.pos mx) + ex) = ex).
  { unfold bounded, canonical_mantissa in Bx. apply andb_prop in Bx.
    destruct Bx as [Hc _]. apply Z.eqb_eq in Hc. exact Hc. }
  assert (Cy : fexp prec emax (Zdigits2 (Z.pos my) + ey) = ey).
  { unfold bounded, canonical_mantissa in By. apply andb_prop in By.
    destruct By as [Hc _]. apply Z.eqb_eq in Hc. exact Hc. }
  apply bounded_elim in Bx. destruct Bx as (Hex & _ & _).
  apply bounded_elim in By. destruct By as (Hey & _ & _).
  cbn [SFmul].
  set (A := (Z.pos mx * 2 ^ (ex + 301)) * (Z.pos my * 2 ^ (ey + 301))).
  assert (HA : 0 < A) by (subst A; nia).
  rewrite (round_aux_spec _ _ _ _ A (2 ^ 301)); try lia.
  - destruct (rounded_props (xorb sx sy) A (2 ^ 301) ltac:(lia) HB)
      as (Ho & Hv & Hn).
    rewrite Ho. repeat split; auto.
    cbn [ord]. unfold ordRQ.
    destruct sx, sy; cbn [xorb cond_Zopp].
    + replace (- (Z.pos mx * 2 ^ (ex + 301)) * - (Z.pos my * 2 ^ (ey + 301)))
        with A by (subst A; ring).
      destruct (A <? 0) eqn:E; [apply Z.ltb_lt in E; lia|reflexivity].
    + replace (- (Z.pos mx * 2 ^ (ex + 301)) * (Z.pos my * 2 ^ (ey + 301)))
        with (- A) by (subst A; ring).
      destruct (- A <? 0) eqn:E; [|apply Z.ltb_ge in E; lia].
      now rewrite Z.opp_involutive.
    + replace (Z.pos mx * 2 ^ (ex + 301) * - (Z.pos my * 2 ^ (ey + 301)))
        with (- A) by (subst A; ring).
      destruct (- A <? 0) eqn:E; [|apply Z.ltb_ge in E; lia].
      now rewrite Z.opp_involutive.
    + fold A. destruct (A <? 0) eqn:E; [apply Z.ltb_lt in E; lia|reflexivity].
  - unfold fine. lia.
  - cbn [shr_record_of_loc]. unfold code; cbn [shr_m shr_r shr_s].
    replace A with (2 * Z.pos (mx * my) * (2 ^ 301 * 2 ^ (ex + ey - fine))).
    + rewrite jam_exact; [lia|].
      apply Z.mul_pos_pos; [lia|apply Z.pow_pos_nonneg; unfold fine; lia].
    + subst A. rewrite Pos2Z.inj_mul.
      replace (ex + 301) with (1 + (ex + 300)) by lia.
      replace (ex + ey - fine) with ((ex + 300) + ey) by (unfold fine; lia).
      replace (ey + 301) with (ey + 301) by lia.
      assert (E1 : 2 ^ (1 + (ex + 300)) = 2 * 2 ^ (ex + 300))
        by (rewrite pow2_split by lia; reflexivity).
      assert (E2 : 2 ^ 301 * 2 ^ (ex + 300 + ey) = 2 ^ (ex + 300) * 2 ^ (ey + 301)).
      { rewrite <- !pow2_split by lia. f_equal. lia. }
      rewrite E1.
      transitivity (2 * Z.pos mx * Z.pos my * (2 ^ 301 * 2 ^ (ex + 300 + ey)));
        [ring|]. rewrite E2. ring.
  - rewrite Pos2Z.inj_mul.
    pose proof (Zdigits2_mul (Z.pos mx) (Z.pos my) ltac:(lia) ltac:(lia)) as Hd.
    assert (0 < Zdigits2 (Z.pos mx)) by (simpl; lia).
    assert (0 < Zdigits2 (Z.pos my)) by (simpl; lia).
    rewrite fexp_eq in *. lia.
Qed.

Lemma jam_eucl (a d q r : Z) :
  a = d * q + r -> 0 <= r < d -> jam a d = 2 * q + (if r =? 0 then 0 else 1).
Proof.
  intros Ha Hr. unfold jam.
  rewrite <- (Z.div_unique a d q r) by (auto; lia).
  rewrite <- (Z.mod_unique a d q r) by (auto; lia). reflexivity.
Qed.

Lemma new_location_code (q d r : Z) :
  0 < d -> 0 <= r < d ->
  code (shr_record_of_loc q (new_location d r)) = jam (2 * (q * d + r)) d.
Proof.
  intros Hd Hr.
  assert (Hpar : Z.even d = false -> 2 * r <> d).
  { intros He. pose proof (Zmod_even d) as Hm. rewrite He in Hm.
    pose proof (Z.div_mod d 2 ltac:(lia)). lia. }
  assert (Hloc : new_location d r
                 = if r =? 0 then loc_Exact
                   else loc_Inexact (if 2 * r <? d then Lt
                                     else if 2 * r =? d then Eq else Gt)).
  { unfold new_location.
    destruct (Z.even d) eqn:Ev;
      unfold new_location_even, new_location_odd;
      destruct (r =? 0); try reflexivity; f_equal.
    - destruct (Z.compare_spec (2 * r) d);
        destruct (2 * r <? d) eqn:E1; try reflexivity;
        try (apply Z.ltb_lt in E1; lia); try (apply Z.ltb_ge in E1);
        destruct (2 * r =? d) eqn:E2; try reflexivity;
        try (apply Z.eqb_eq in E2; lia); try (apply Z.eqb_neq in E2; lia).
    - specialize (Hpar eq_refl).
      destruct (Z.compare_spec (2 * r + 1) d);
        destruct (2 * r <? d) eqn:E1; try reflexivity;
        try (apply Z.ltb_lt in E1; lia); try (apply Z.ltb_ge in E1; lia);
        destruct (2 * r =? d) eqn:E2; try reflexivity;
        try (apply Z.eqb_eq in E2; lia); try (apply Z.eqb_neq in E2; lia). }
  rewrite Hloc.
  destruct (r =? 0) eqn:E0; [apply Z.eqb_eq in E0 | apply Z.eqb_neq in E0].
  { subst r. rewrite (jam_eucl _ d (2 * q) 0) by lia.
    unfold code; cbn [shr_record_of_loc shr_m shr_r shr_s].
    rewrite ?Z.eqb_refl. lia. }
  destruct (2 * r <? d) eqn:E1; [apply Z.ltb_lt in E1 | apply Z.ltb_ge in E1].
  { rewrite (jam_eucl _ d (2 * q) (2 * r)) by lia.
    replace (2 * r =? 0) with false by (symmetry; apply Z.eqb_neq; lia).
    unfold code; cbn [shr_record_of_loc shr_m shr_r shr_s]. lia. }
  destruct (2 * r =? d) eqn:E2; [apply Z.eqb_eq in E2 | apply Z.eqb_neq in E2].
  { rewrite (jam_eucl _ d (2 * q + 1) 0) by lia.
    unfold code; cbn [shr_record_of_loc shr_m shr_r shr_s].
    rewrite ?Z.eqb_refl. lia. }
  rewrite (jam_eucl _ d (2 * q + 1) (2 * r - d)) by lia.
  replace (2 * r - d =? 0) with false by (symmetry; apply Z.eqb_neq; lia).
  unfold code; cbn [shr_record_of_loc shr_m shr_r shr_s]. lia.
Qed.

Lemma div_core_spec (mx my : positive) (ex ey : Z) :
  let e' := Z.min (fexp prec emax (Zdigits2 (Z.pos mx) + ex
                                  - (Zdigits2 (Z.pos my) + ey))) (ex - ey) in
  let m' := Z.pos mx * 2 ^ (ex - ey - e') in
  SFdiv_core_binary prec emax (Z.pos mx) ex (Z.pos my) ey
  = (m' / Z.pos my, e', new_location (Z.pos my) (m' mod Z.pos my)).
Proof.
  intros e' m'. unfold SFdiv_core_binary.
  fold e'.
  assert (Hs : 0 <= ex - ey - e') by (subst e'; lia).
  assert (Hm : match ex - ey - e' with
               | 0 => Z.pos mx
               | Z.pos _ => Z.shiftl (Z.pos mx) (ex - ey - e')
               | Z.neg _ => 0
               end = m').
  { subst m'. destruct (ex - ey - e') as [|p|p] eqn:Es; try lia.
    rewrite Z.shiftl_mul_pow2 by lia. reflexivity. }
  rewrite Hm. unfold Z.div, Z.modulo.
  destruct (Z.div_eucl m' (Z.pos my)). reflexivity.
Qed.

Lemma div_spec (x y : float) :
  wf x = true -> wf y = true -> 0 < ord y ->
  ord (SFdiv prec emax x y) = ordRQ (ord x * 2 ^ 301) (ord y) /\
  valid_binary prec emax (SFdiv prec emax x y) = true /\
  is_nan (SFdiv prec emax x y) = false.
Proof.
  intros Hx Hy Hpos.
  destruct y as [sy|sy| |sy my ey]; try discriminate.
  pose proof (wf_finite _ _ _ Hy) as By.
  pose proof (bounded_ord_lt _ _ By) as Oy.
  assert (sy = false)
    by (destruct sy; auto; cbn [ord cond_Zopp] in Hpos; lia).
  subst sy.
  cbn [ord cond_Zopp] in *.
  destruct x as [sx|sx| |sx mx ex]; try discriminate.
  { cbn [SFdiv]. change (ord (S754_zero sx)) with 0.
    rewrite Z.mul_0_l. unfold ordRQ.
    rewrite Z.ltb_irrefl, ordR_0 by lia. auto. }
  pose proof (wf_finite _ _ _ Hx) as Bx.
  pose proof (bounded_ord_lt _ _ Bx) as Ox.
  apply bounded_elim in Bx. destruct Bx as (Hex & _ & _).
  apply bounded_elim in By. destruct By as (Hey & _ & _).
  cbn [SFdiv]. rewrite div_core_spec. cbv zeta.
  set (D := Zdigits2 (Z.pos mx) + ex - (Zdigits2 (Z.pos my) + ey)).
  set (e' := Z.min (fexp prec emax D) (ex - ey)).
  set (m' := Z.pos mx * 2 ^ (ex - ey - e')).
  assert (He'1 : e' <= fexp prec emax D) by (subst e'; lia).
  assert (He'2 : -253 <= e') by (subst e'; rewrite fexp_eq; lia).
  assert (Hs : 0 <= ex - ey - e') by (subst e'; lia).
  assert (Hm' : 0 < m').
  { subst m'. apply Z.mul_pos_pos; [lia|apply Z.pow_pos_nonneg; lia]. }
  rewrite xorb_false_r.
  set (A := Z.pos mx * 2 ^ (ex + 301) * 2 ^ 301).
  set (B := Z.pos my * 2 ^ (ey + 301)) in *.
  assert (HA : 0 < A) by (subst A; nia).
  rewrite (round_aux_spec _ _ _ _ A B); try lia.
  - destruct (rounded_props sx A B ltac:(lia) ltac:(lia)) as (Ho & Hv & Hn).
    rewrite Ho. repeat split; auto.
    cbn [ord]. unfold ordRQ. destruct sx; cbn [cond_Zopp].
    + replace (- (Z.pos mx * 2 ^ (ex + 301)) * 2 ^ 301) with (- A)
        by (subst A; ring).
      destruct (- A <? 0) eqn:E; [|apply Z.ltb_ge in E; lia].
      now rewrite Z.opp_involutive.
    + fold A. destruct (A <? 0) eqn:E; [apply Z.ltb_lt in E; lia|reflexivity].
  - apply Z.div_pos; lia.
  - unfold fine; lia.
  - rewrite new_location_code by (try apply Z.mod_pos_bound; lia).
    replace (m' / Z.pos my * Z.pos my + m' mod Z.pos my) with m'
      by (rewrite (Z.div_mod m' (Z.pos my)) at 1; lia).
    set (K := 2 ^ (ey + e' + 601)).
    assert (HK : 0 < K) by (apply Z.pow_pos_nonneg; lia).
    replace A with (2 * m' * K); [replace (B * 2 ^ (e' - fine)) with (Z.pos my * K)|].
    + symmetry. apply jam_scale; lia.
    + subst B K. replace (ey + e' + 601) with ((ey + 301) + (e' - fine))
        by (unfold fine; lia).
      rewrite pow2_split by (unfold fine; lia). ring.
    + assert (E : 2 ^ (ex + 301) * 2 ^ 301
                  = 2 ^ (ex - ey - e') * 2 * 2 ^ (ey + e' + 601)).
      { transitivity (2 ^ (ex - ey - e') * 2 ^ 1 * 2 ^ (ey + e' + 601));
          [|reflexivity].
        rewrite <- !pow2_split by lia. f_equal. lia. }
      subst A m' K. rewrite <- Z.mul_assoc with (n := Z.pos mx) (m := 2 ^ (ex + 301)).
      rewrite E. ring.
  - pose proof (Zdigits2_div m' (Z.pos my) Hm' ltac:(lia)) as Hd.
    assert (Hdm : Zdigits2 m' = Zdigits2 (Z.pos mx) + (ex - ey - e'))
      by (subst m'; apply Zdigits2_mul_pow2; lia).
    rewrite fexp_eq in *. lia.
Qed.

(** ** Order and bounds of the results of the operations *)

Lemma wf_ord_bound (x : float) : wf x = true -> - 2 ^ 429 < ord x < 2 ^ 429.
Proof.
  intros Hw. destruct x as [s|s| |s m e]; try discriminate.
  - simpl. lia.
  - pose proof (bounded_ord_lt _ _ (wf_finite _ _ _ Hw)).
    cbn [ord]. destruct s; cbn [cond_Zopp]; lia.
Qed.

Lemma wf_of_bounds (x lo hi : float) :
  valid_binary prec emax x = true -> is_nan x = false ->
  wf lo = true -> wf hi = true -> ord lo <= ord x <= ord hi ->
  wf x = true.
Proof.
  intros Hv Hn Hlo Hhi Hb.
  pose proof (wf_ord_bound _ Hlo). pose proof (wf_ord_bound _ Hhi).
  unfold wf. rewrite Hv. destruct x as [s|s| |s m e]; try discriminate; auto.
  cbn [ord] in Hb. destruct s; cbn [cond_Zopp] in Hb; lia.
Qed.

Lemma leb_ord (x y : float) :
  wf x = true -> wf y = true -> leb x y = (ord x <=? ord y).
Proof.
  intros Hx Hy. destruct (wf_valid _ Hx), (wf_valid _ Hy).
  unfold leb, SFleb. rewrite compare_ord by assumption.
  unfold Z.leb. destruct (ord x ?= ord y); reflexivity.
Qed.

Lemma ltb_ord (x y : float) :
  wf x = true -> wf y = true -> ltb x y = (ord x <? ord y).
Proof.
  intros Hx Hy. destruct (wf_valid _ Hx), (wf_valid _ Hy).
  unfold ltb, SFltb. rewrite compare_ord by assumption.
  unfold Z.ltb. destruct (ord x ?= ord y); reflexivity.
Qed.

Lemma gtb_ord (x y : float) :
  wf x = true -> wf y = true -> gtb x y = (ord y <? ord x).
Proof. intros Hx Hy. unfold gtb. now apply (ltb_ord y x). Qed.

Lemma between_leb (a b x : float) :
  between a b x -> leb a x = true /\ leb x b = true.
Proof.
  intros (Ha & Hb & Hx & Ho).
  rewrite !leb_ord by assumption. split; apply Z.leb_le; lia.
Qed.

Lemma between_weaken (a b a' b' x : float) :
  between a b x -> wf a' = true -> wf b' = true ->
  (ord a' <=? ord a) = true -> (ord b <=? ord b') = true ->
  between a' b' x.
Proof.
  intros (Ha & Hb & Hx & Ho) Ha' Hb' L1 L2.
  apply Z.leb_le in L1. apply Z.leb_le in L2.
  repeat split; auto; lia.
Qed.

Lemma between_intro (a b x : float) : betweenb a b x = true -> between a b x.
Proof.
  unfold betweenb. intros Hb.
  apply andb_prop in Hb. destruct Hb as [Hb L2].
  apply andb_prop in Hb. destruct Hb as [Hb L1].
  apply andb_prop in Hb. destruct Hb as [Hb Wx].
  apply andb_prop in Hb. destruct Hb as [Wa Wb].
  apply Z.leb_le in L1. apply Z.leb_le in L2.
  repeat split; assumption.
Qed.

Lemma between_refl (x : float) : wf x = true -> between x x x.
Proof. intros Hx. repeat split; auto; lia. Qed.

Lemma add_mono (x x' y y' : float) :
  wf x = true -> wf x' = true -> wf y = true -> wf y' = true ->
  ord x <= ord x' -> ord y <= ord y' -> ord (x + y) <= ord (x' + y').
Proof.
  intros Hx Hx' Hy Hy' Lx Ly. unfold add.
  destruct (add_spec x y Hx Hy) as (-> & _).
  destruct (add_spec x' y' Hx' Hy') as (-> & _).
  apply ordRQ_mono; lia.
Qed.

Lemma sub_mono (x x' y y' : float) :
  wf x = true -> wf x' = true -> wf y = true -> wf y' = true ->
  ord x <= ord x' -> ord y' <= ord y -> ord (x - y) <= ord (x' - y').
Proof.
  intros Hx Hx' Hy Hy' Lx Ly. unfold sub.
  destruct (sub_spec x y Hx Hy) as (-> & _).
  destruct (sub_spec x' y' Hx' Hy') as (-> & _).
  apply ordRQ_mono; lia.
Qed.

Lemma mul_mono (x x' y y' : float) :
  wf x = true -> wf x' = true -> wf y = true -> wf y' = true ->
  0 <= ord x <= ord x' -> 0 <= ord y <= ord y' ->
  ord (x * y) <= ord (x' * y').
Proof.
  intros Hx Hx' Hy Hy' Lx Ly. unfold mul.
  destruct (mul_spec x y Hx Hy) as (-> & _).
  destruct (mul_spec x' y' Hx' Hy') as (-> & _).
  apply ordRQ_mono; try reflexivity.
  apply Z.mul_le_mono_nonneg_r; [apply Z.pow_nonneg; lia|].
  apply Z.mul_le_mono_nonneg; lia.
Qed.

Lemma mul_mono_l (k x x' : float) :
  wf k = true -> wf x = true -> wf x' = true ->
  0 <= ord k -> ord x <= ord x' -> ord (k * x) <= ord (k * x').
Proof.
  intros Hk Hx Hx' Lk Lx. unfold mul.
  destruct (mul_spec k x Hk Hx) as (-> & _).
  destruct (mul_spec k x' Hk Hx') as (-> & _).
  apply ordRQ_mono; try reflexivity.
  apply Z.mul_le_mono_nonneg_r; [apply Z.pow_nonneg; lia|].
  apply Z.mul_le_mono_nonneg_l; lia.
Qed.

Lemma mul_mono_r (k x x' : float) :
  wf k = true -> wf x = true -> wf x' = true ->
  0 <= ord k -> ord x <= ord x' -> ord (x * k) <= ord (x' * k).
Proof.
  intros Hk Hx Hx' Lk Lx. unfold mul.
  destruct (mul_spec x k Hx Hk) as (-> & _).
  destruct (mul_spec x' k Hx' Hk) as (-> & _).
  apply ordRQ_mono; try reflexivity.
  apply Z.mul_le_mono_nonneg_r; [apply Z.pow_nonneg; lia|].
  apply Z.mul_le_mono_nonneg_r; lia.
Qed.

Lemma div_mono (k x x' : float) :
  wf k = true -> wf x = true -> wf x' = true ->
  0 < ord k -> ord x <= ord x' -> ord (x / k) <= ord (x' / k).
Proof.
  intros Hk Hx Hx' Lk Lx. unfold div.
  destruct (div_spec x k Hx Hk Lk) as (-> & _).
  destruct (div_spec x' k Hx' Hk Lk) as (-> & _).
  apply ordRQ_mono; try lia.
  apply Z.mul_le_mono_nonneg_r; [lia|].
  apply Z.mul_le_mono_nonneg_r; [apply Z.pow_nonneg|]; lia.
Qed.

Lemma add_between (a b c d x y : float) :
  wf (a + c) = true -> wf (b + d) = true ->
  between a b x -> between c d y -> between (a + c) (b + d) (x + y).
Proof.
  intros Hlo Hhi (Ha & Hb & Hx & Hox) (Hc & Hd & Hy & Hoy).
  assert (Ho : ord (a + c) <= ord (x + y) <= ord (b + d))
    by (split; apply add_mono; auto; lia).
  repeat split; auto; try lia.
  destruct (add_spec x y Hx Hy) as (_ & Hv & Hn).
  apply (wf_of_bounds _ (a + c) (b + d)); auto.
Qed.

Lemma sub_between (a b c d x y : float) :
  wf (a - d) = true -> wf (b - c) = true ->
  between a b x -> between c d y -> between (a - d) (b - c) (x - y).
Proof.
  intros Hlo Hhi (Ha & Hb & Hx & Hox) (Hc & Hd & Hy & Hoy).
  assert (Ho : ord (a - d) <= ord (x - y) <= ord (b - c))
    by (split; apply sub_mono; auto; lia).
  repeat split; auto; try lia.
  destruct (sub_spec x y Hx Hy) as (_ & Hv & Hn).
  apply (wf_of_bounds _ (a - d) (b - c)); auto.
Qed.

Lemma mul_between (a b c d x y : float) :
  (0 <=? ord a) = true -> (0 <=? ord c) = true ->
  wf (a * c) = true -> wf (b * d) = true ->
  between a b x -> between c d y -> between (a * c) (b * d) (x * y).
Proof.
  intros Pa Pc Hlo Hhi (Ha & Hb & Hx & Hox) (Hc & Hd & Hy & Hoy).
  apply Z.leb_le in Pa. apply Z.leb_le in Pc.
  assert (Ho : ord (a * c) <= ord (x * y) <= ord (b * d))
    by (split; apply mul_mono; auto; lia).
  repeat split; auto; try lia.
  destruct (mul_spec x y Hx Hy) as (_ & Hv & Hn).
  apply (wf_of_bounds _ (a * c) (b * d)); auto.
Qed.

Lemma mul_between_l (k a b x : float) :
  wf k = true -> (0 <=? ord k) = true ->
  wf (k * a) = true -> wf (k * b) = true ->
  between a b x -> between (k * a) (k * b) (k * x).
Proof.
  intros Hk Pk Hlo Hhi (Ha & Hb & Hx & Hox).
  apply Z.leb_le in Pk.
  assert (Ho : ord (k * a) <= ord (k * x) <= ord (k * b))
    by (split; apply mul_mono_l; auto; lia).
  repeat split; auto; try lia.
  destruct (mul_spec k x Hk Hx) as (_ & Hv & Hn).
  apply (wf_of_bounds _ (k * a) (k * b)); auto.
Qed.

Lemma mul_between_r (k a b x : float) :
  wf k = true -> (0 <=? ord k) = true ->
  wf (a * k) = true -> wf (b * k) = true ->
  between a b x -> between (a * k) (b * k) (x * k).
Proof.
  intros Hk Pk Hlo Hhi (Ha & Hb & Hx & Hox).
  apply Z.leb_le in Pk.
  assert (Ho : ord (a * k) <= ord (x * k) <= ord (b * k))
    by (split; apply mul_mono_r; auto; lia).
  repeat split; auto; try lia.
  destruct (mul_spec x k Hx Hk) as (_ & Hv & Hn).
  apply (wf_of_bounds _ (a * k) (b * k)); auto.
Qed.

Lemma div_between (k a b x : float) :
  wf k = true -> (0 <? ord k) = true ->
  wf (a / k) = true -> wf (b / k) = true ->
  between a b x -> between (a / k) (b / k) (x / k).
Proof.
  intros Hk Pk Hlo Hhi (Ha & Hb & Hx & Hox).
  apply Z.ltb_lt in Pk.
  assert (Ho : ord (a / k) <= ord (x / k) <= ord (b / k))
    by (split; apply div_mono; auto; lia).
  repeat split; auto; try lia.
  destruct (div_spec x k Hx Hk Pk) as (_ & Hv & Hn).
  apply (wf_of_bounds _ (a / k) (b / k)); auto.
Qed.

Lemma of_int_spec (n : Z) :
  ord (of_int n) = ordRQ (n * 2 ^ 301) 1 /\
  valid_binary prec emax (of_int n) = true /\ is_nan (of_int n) = false.
Proof.
  unfold of_int. rewrite binary_normalize_spec by (unfold fine; lia).
  apply roundZ_props.
Qed.

Lemma of_int_between (lo hi n : Z) :
  wf (of_int lo) = true -> wf (of_int hi) = true -> lo <= n <= hi ->
  between (of_int lo) (of_int hi) (of_int n).
Proof.
  intros Hlo Hhi Hn.
  destruct (of_int_spec n) as (On & Hv & Hnan).
  destruct (of_int_spec lo) as (Olo & _). destruct (of_int_spec hi) as (Ohi & _).
  assert (Ho : ord (of_int lo) <= ord (of_int n) <= ord (of_int hi)).
  { rewrite On, Olo, Ohi.
    split; apply ordRQ_mono; try lia;
      rewrite !Z.mul_1_r; apply Z.mul_le_mono_nonneg_r;
      try (apply Z.pow_nonneg); lia. }
  repeat split; auto; try lia.
  apply (wf_of_bounds _ (of_int lo) (of_int hi)); auto.
Qed.

Lemma wf_not_nan (x : float) : wf x = true -> is_nan x = false.
Proof. destruct x; try discriminate; reflexivity. Qed.

Lemma fmaxf_ord (c x : float) :
  wf c = true -> wf x = true ->
  wf (fmaxf c x) = true /\ ord (fmaxf c x) = Z.max (ord c) (ord x).
Proof.
  intros Hc Hx. unfold fmaxf.
  rewrite (wf_not_nan _ Hc), (wf_not_nan _ Hx), ltb_ord by assumption.
  destruct (ord c <? ord x) eqn:E;
    [apply Z.ltb_lt in E | apply Z.ltb_ge in E]; split; auto; lia.
Qed.

Lemma fminf_ord (c x : float) :
  wf c = true -> wf x = true ->
  wf (fminf c x) = true /\ ord (fminf c x) = Z.min (ord c) (ord x).
Proof.
  intros Hc Hx. unfold fminf.
  rewrite (wf_not_nan _ Hc), (wf_not_nan _ Hx), ltb_ord by assumption.
  destruct (ord x <? ord c) eqn:E;
    [apply Z.ltb_lt in E | apply Z.ltb_ge in E]; split; auto; lia.
Qed.

(** ** Collision test *)

(** C1.  The specification asks for a hitbox of 80% of the visual box
    centred in it.  [hit] moves the corner of the box up and left by the
    margin instead of down and right: with the player's centre line at
    270 it reports a bird that ends 18 above the line, which the centred
    hitbox (from 14.4 above to 14.4 below) does not touch, and misses a
    bird that starts 12 below the line, which the centred hitbox
    overlaps. *)
Theorem hit_is_not_centred :
  player_hit 270 bird_above = true /\
  player_Collides 270 bird_above = false /\
  player_hit 270 bird_below = false /\
  player_Collides 270 bird_below = true.
Proof. vm_compute. repeat split. Qed.

(** ** Frame time *)

Section Simulation.

Variable RAND_MAX : Z.
Variable stream : nat -> Z.


Local Open Scope f32_scope.

Lemma simulate_active (dtms : float) (s : Session) :
  state s = Active ->
  simulate RAND_MAX stream dtms s
  = update RAND_MAX stream dtms (fminf 48.0 dtms / 16.6667) (dtms / 1000.0)
      s.
Proof.
  unfold state, simulate.
  destruct (gameOver s), (victory s); simpl; congruence.
Qed.

Lemma simulate_frozen (dtms : float) (s : Session) :
  state s <> Active -> simulate RAND_MAX stream dtms s = s.
Proof.
  unfold state, simulate.
  destruct (gameOver s), (victory s); simpl; congruence.
Qed.

(** C2, as amended.  Only the physics step is clamped: for an elapsed time
    above 48 ms the player's velocity and position are updated as in a
    48 ms frame, while the difficulty accumulator, the spawn timer and the
    remaining distance advance by the raw elapsed time. *)
Theorem only_physics_step_is_clamped (dtms : float) (s : Session) :
  (48 <? dtms) = true ->
  vy (simulate RAND_MAX stream dtms s) = vy (simulate RAND_MAX stream 48 s) /\
  py (simulate RAND_MAX stream dtms s) = py (simulate RAND_MAX stream 48 s) /\
  (state s = Active ->
   difficulty (simulate RAND_MAX stream dtms s)
   = difficulty s + 0.00045 * dtms /\
   spawnTimer (simulate RAND_MAX stream dtms s)
   = (if spawnTimer s + dtms >=? spawnMs (simulate RAND_MAX stream dtms s)
      then 0
      else spawnTimer s + dtms) /\
   kmLeft (simulate RAND_MAX stream dtms s)
   = (let km := kmLeft s - kmPerSec (kmLeft s) * (dtms / 1000) in
      if km <=? 0 then 0 else km)).
Proof.
  intros Hlt.
  assert (Hdt : fminf 48.0 dtms = fminf 48.0 48) by
    (rewrite (fminf_above _ _ Hlt); reflexivity).
  unfold simulate, state. rewrite Hdt.
  destruct (gameOver s), (victory s); simpl negb; cbv [andb];
    (split; [reflexivity | split; [reflexivity | intros Hs]]);
    try discriminate Hs.
  repeat split.
Qed.

End Simulation.

Lemma only_physics_step_is_clamped_witness :
  (48 <? 100)%f32 = true /\
  vy (simulate RAND_MAX_emscripten (stream_const 0) 100%f32 (init 0))
  = vy (simulate RAND_MAX_emscripten (stream_const 0) 48%f32 (init 0)).
Proof.
  split; [reflexivity|].
  apply (only_physics_step_is_clamped RAND_MAX_emscripten (stream_const 0)
           100%f32 (init 0)).
  reflexivity.
Defined.

(** C2 as stated fails: a frame of 100 ms and a frame of 48 ms leave
    different values of the difficulty accumulator, of the spawn timer and
    of the remaining distance. *)
Lemma clamp_is_not_on_raw_time :
  let s100 := frame RAND_MAX_emscripten (stream_const 0) [] 100 (init 0) in
  let s48 := frame RAND_MAX_emscripten (stream_const 0) [] 48 (init 0) in
  difficulty s100 <> difficulty s48 /\
  spawnTimer s100 <> spawnTimer s48 /\
  kmLeft s100 <> kmLeft s48.
Proof. vm_compute. repeat split; discriminate. Qed.

(** ** Session flags *)

Section Flags.

Variable RAND_MAX : Z.
Variable stream : nat -> Z.


Local Open Scope f32_scope.

Lemma handle_event_flags (s : Session) (e : Event) :
  e <> return_key ->
  gameOver (handle_event s e) = gameOver s /\
  victory (handle_event s e) = victory s /\
  obs (handle_event s e) = obs s /\
  kmLeft (handle_event s e) = kmLeft s.
Proof.
  intros He. destruct e as [ |k|k| | | ]; simpl; auto.
  - destruct k; simpl; auto. now elim He.
  - destruct (is_thrust_key k); simpl; auto.
Qed.

Lemma poll_flags (evs : list Event) (s : Session) :
  ~ In return_key evs ->
  gameOver (fold_left handle_event evs s) = gameOver s /\
  victory (fold_left handle_event evs s) = victory s /\
  obs (fold_left handle_event evs s) = obs s /\
  kmLeft (fold_left handle_event evs s) = kmLeft s.
Proof.
  revert s. induction evs as [|e evs IH]; intros s Hin; simpl; auto.
  destruct (IH (handle_event s e)) as (Hg & Hv & Ho & Hk).
  - intros Hi. apply Hin. now right.
  - destruct (handle_event_flags s e) as (Hg' & Hv' & Ho' & Hk').
    + intros ->. apply Hin. now left.
    + repeat split; congruence.
Qed.

(** C3, as amended.  A tick from Active sets [gameOver] exactly when the
    player hits an obstacle and [victory] exactly when the remaining
    distance is used up, each on its own, so both flags are set when both
    happen in one tick (the session then shows as Crashed, which the
    renderer tests first).  A session that is Crashed or Completed is not
    simulated, and a frame without the restart key changes neither flag,
    the obstacles nor the remaining distance. *)
Theorem flags_set_apart_and_frozen
  (evs : list Event) (now : Z) (dtms : float) (s : Session) :
  (state s = Active ->
   gameOver (simulate RAND_MAX stream dtms s)
   = existsb (player_hit (py (simulate RAND_MAX stream dtms s)))
       (obs (simulate RAND_MAX stream dtms s)) /\
   victory (simulate RAND_MAX stream dtms s)
   = (kmLeft s - kmPerSec (kmLeft s) * (dtms / 1000) <=? 0)) /\
  (state s <> Active -> simulate RAND_MAX stream dtms s = s) /\
  (state s <> Active -> ~ In return_key evs ->
   state (frame RAND_MAX stream evs now s) = state s /\
   gameOver (frame RAND_MAX stream evs now s) = gameOver s /\
   victory (frame RAND_MAX stream evs now s) = victory s /\
   obs (frame RAND_MAX stream evs now s) = obs s /\
   kmLeft (frame RAND_MAX stream evs now s) = kmLeft s).
Proof.
  split; [|split].
  - intros Hs. rewrite (simulate_active _ _ _ _ Hs).
    unfold state in Hs.
    destruct (gameOver s) eqn:Hg; [discriminate|].
    destruct (victory s) eqn:Hv; [discriminate|].
    unfold update; cbn [gameOver victory py obs]. rewrite Hg, Hv. split.
    + unfold player_hit.
      match goal with |- (if ?b then true else false) = _ => now destruct b end.
    + match goal with |- (if ?b then true else false) = _ => now destruct b end.
  - apply simulate_frozen.
  - intros Hs Hin. unfold frame.
    destruct (poll_flags evs s Hin) as (Hg & Hv & Ho & Hk).
    set (s1 := fold_left handle_event evs s) in *.
    rewrite simulate_frozen.
    + unfold state; simpl. rewrite Hg, Hv. auto.
    + unfold state in *; simpl. rewrite Hg, Hv. exact Hs.
Qed.

End Flags.

Lemma flags_set_apart_and_frozen_witness :
  let crashed := run RAND_MAX_emscripten stream_storm passes_storm (init 0) in
  state crashed = Crashed /\
  state (frame RAND_MAX_emscripten stream_storm [SDL_KEYDOWN SDLK_SPACE]
           201200 crashed) = Crashed.
Proof.
  intros crashed.
  assert (Hc : state crashed = Crashed) by (vm_compute; reflexivity).
  split; [exact Hc|].
  destruct (flags_set_apart_and_frozen RAND_MAX_emscripten stream_storm
              [SDL_KEYDOWN SDLK_SPACE] 201200 0%f32 crashed) as (_ & _ & Hf).
  destruct Hf as (Hs & _).
  - rewrite Hc. discriminate.
  - simpl. intros [Hk|[]]. discriminate Hk.
  - rewrite Hs. exact Hc.
Defined.

(** C3 as stated fails.  In the Active session [near_finish] a tick of
    16 ms moves the bird onto the player and uses up the last kilometre:
    it ends with both [gameOver] and [victory] set.  The loop itself gets
    there: after 44 passes with a storm column on the ground the session
    is Active, and the next pass, in which the player hits the column and
    200 s of distance are consumed, sets both flags. *)
Lemma crash_and_completion_in_one_tick :
  let tick := simulate RAND_MAX_emscripten (stream_const 0) 16%f32 near_finish in
  let before :=
    run RAND_MAX_emscripten stream_storm (removelast passes_storm) (init 0) in
  let after := frame RAND_MAX_emscripten stream_storm [] 201100 before in
  state near_finish = Active /\
  gameOver tick = true /\ victory tick = true /\
  state before = Active /\
  after = run RAND_MAX_emscripten stream_storm passes_storm (init 0) /\
  gameOver after = true /\ victory after = true.
Proof. vm_compute. repeat split. Qed.

(** ** Obstacle store *)

Section Store.

Variable RAND_MAX : Z.
Variable stream : nat -> Z.

Local Open Scope f32_scope.

(** [addObstacle] either returns the store as it is, without calling
    [rand], or appends exactly one obstacle to it. *)
Lemma addObstacle_cases (speed : float) (store : list Obstacle) (k : nat) :
  ((obsCount store >= 128)%Z /\
   addObstacle RAND_MAX stream speed store k = (store, k)) \/
  ((obsCount store < 128)%Z /\
   exists o k', addObstacle RAND_MAX stream speed store k = (store ++ [o], k')).
Proof.
  unfold addObstacle.
  destruct (obsCount store >=? 128)%Z eqn:Hfull.
  - left. split; [lia | reflexivity].
  - right. split; [lia|].
    unfold bind, rand, ret.
    destruct (of_int (stream k) / of_int RAND_MAX <? 0.55).
    + unfold cloud, bind, rand, ret. eauto.
    + destruct (of_int (stream k) / of_int RAND_MAX <? 0.85).
      * unfold bird, bind, rand, ret. eauto.
      * unfold storm, bind, rand, ret. eauto.
Qed.

Lemma addObstacle_capacity (speed : float) (store : list Obstacle) (k : nat) :
  (obsCount store <= 128)%Z ->
  (obsCount (fst (addObstacle RAND_MAX stream speed store k)) <= 128)%Z.
Proof.
  intros Hle.
  destruct (addObstacle_cases speed store k)
    as [[_ ->]|[Hlt (o & k' & ->)]]; simpl; [exact Hle|].
  unfold obsCount in *. rewrite length_app. simpl. lia.
Qed.

Lemma cull_advance_length (store : list Obstacle) :
  (length (cull (map advance store)) <= length store)%nat.
Proof.
  unfold cull.
  etransitivity; [apply filter_length_le|]. now rewrite length_map.
Qed.

Lemma update_capacity (dtms dt dts : float) (s : Session) :
  (obsCount (obs s) <= 128)%Z ->
  (obsCount (obs (update RAND_MAX stream dtms dt dts s)) <= 128)%Z.
Proof.
  intros Hle. unfold update; cbn [obs].
  match goal with
  | |- context [cull (map advance (fst ?sp))] =>
      assert (Hsp : (obsCount (fst sp) <= 128)%Z)
  end.
  { match goal with |- context [if ?b then _ else _] => destruct b end.
    - now apply addObstacle_capacity.
    - exact Hle. }
  revert Hsp.
  match goal with
  | |- context [cull (map advance ?l)] =>
      generalize (cull_advance_length l); generalize l
  end.
  unfold obsCount. intros; lia.
Qed.

Lemma simulate_capacity (dtms : float) (s : Session) :
  (obsCount (obs s) <= 128)%Z ->
  (obsCount (obs (simulate RAND_MAX stream dtms s)) <= 128)%Z.
Proof.
  intros Hle. unfold simulate.
  destruct (negb (gameOver s) && negb (victory s)); [|exact Hle].
  now apply update_capacity.
Qed.

Lemma handle_event_capacity (s : Session) (e : Event) :
  (obsCount (obs s) <= 128)%Z -> (obsCount (obs (handle_event s e)) <= 128)%Z.
Proof.
  intros Hle.
  destruct e as [ |k|k| | | ]; simpl; auto.
  - destruct k; simpl; auto.
    destruct (gameOver s || victory s); simpl; auto. unfold obsCount; simpl; lia.
  - destruct (is_thrust_key k); simpl; auto.
Qed.

Lemma poll_capacity (evs : list Event) (s : Session) :
  (obsCount (obs s) <= 128)%Z ->
  (obsCount (obs (fold_left handle_event evs s)) <= 128)%Z.
Proof.
  revert s. induction evs as [|e evs IH]; intros s Hle; simpl; auto.
  apply IH. now apply handle_event_capacity.
Qed.

Lemma frame_capacity (evs : list Event) (now : Z) (s : Session) :
  (obsCount (obs s) <= 128)%Z ->
  (obsCount (obs (frame RAND_MAX stream evs now s)) <= 128)%Z.
Proof.
  intros Hle. unfold frame. apply simulate_capacity.
  simpl. now apply poll_capacity.
Qed.

Lemma run_capacity (inputs : list (list Event * Z)) (s : Session) :
  (obsCount (obs s) <= 128)%Z ->
  (obsCount (obs (run RAND_MAX stream inputs s)) <= 128)%Z.
Proof.
  revert s. induction inputs as [|[evs now] rest IH]; intros s Hle; simpl; auto.
  destruct (running s); auto. apply IH. now apply frame_capacity.
Qed.

(** C6.  However long the loop runs, the store never holds more than 128
    obstacles, and [addObstacle] called on a store of 128 obstacles
    returns that store, without drawing from [rand] and without any
    error. *)
Theorem store_within_capacity
  (inputs : list (list Event * Z)) (t0 : Z)
  (speed : float) (store : list Obstacle) (k : nat) :
  obsCount store = 128%Z ->
  (obsCount (obs (run RAND_MAX stream inputs (init t0))) <= 128)%Z /\
  addObstacle RAND_MAX stream speed store k = (store, k).
Proof.
  intros Hfull. split.
  - apply run_capacity. unfold obsCount; simpl; lia.
  - destruct (addObstacle_cases speed store k) as [[_ H1]|[Hlt _]];
      [exact H1 | lia].
Qed.

Lemma spawned_bird_size (speed : float) (store : list Obstacle) (k : nat)
  (o : Obstacle) :
  fst (addObstacle RAND_MAX stream speed store k) = store ++ [o] ->
  o_type o = 1%Z -> o_w o = 44 /\ o_h o = 28.
Proof.
  unfold addObstacle.
  destruct (obsCount store >=? 128)%Z.
  - simpl. intros Heq.
    apply (f_equal (@length Obstacle)) in Heq.
    rewrite length_app in Heq. simpl in Heq. lia.
  - unfold bind, rand, ret.
    destruct (of_int (stream k) / of_int RAND_MAX <? 0.55);
      [|destruct (of_int (stream k) / of_int RAND_MAX <? 0.85)];
      unfold cloud, bird, storm, bind, rand, ret; cbn [fst];
      intros Heq; apply app_inv_head in Heq; injection Heq as <-;
      cbn [o_type o_w o_h]; intros Ht; try discriminate Ht.
    now split.
Qed.

(** C4, as amended.  A cloud gets a width in 90..169, a height in 50..79
    and an [y] in 60..299, each from its own draw; a bird always has the
    size 44 by 28 and gets an [y] in 100..359; a storm column always has
    the width 50, gets a height in 120..239 and is put at [y = 40] or with
    its foot on the ground, by the parity of a further draw. *)
Theorem spawn_by_kind (speed : float) (store : list Obstacle) (k : nat) :
  (forall i, (0 <= stream i)%Z) ->
  (obsCount store < 128)%Z ->
  exists o,
    fst (addObstacle RAND_MAX stream speed store k) = store ++ [o] /\
    ((o_type o = 0%Z /\
      exists a b c,
        a = Z.rem (stream (1 + k)) 80 /\ (0 <= a < 80)%Z /\
        b = Z.rem (stream (2 + k)) 30 /\ (0 <= b < 30)%Z /\
        c = Z.rem (stream (3 + k)) 240 /\ (0 <= c < 240)%Z /\
        o_w o = of_int (90 + a) /\ o_h o = of_int (50 + b) /\
        o_y o = of_int (60 + c)) \/
     (o_type o = 1%Z /\ o_w o = 44 /\ o_h o = 28 /\
      exists c,
        c = Z.rem (stream (1 + k)) 260 /\ (0 <= c < 260)%Z /\
        o_y o = of_int (100 + c)) \/
     (o_type o = 2%Z /\ o_w o = 50 /\
      exists b,
        b = Z.rem (stream (1 + k)) 120 /\ (0 <= b < 120)%Z /\
        o_h o = of_int (120 + b) /\
        o_y o = if (Z.rem (stream (2 + k)) 2 =? 0)%Z then 40
                else of_int GROUND_Y - o_h o)).
Proof.
  intros Hpos Hlt. unfold addObstacle.
  destruct (obsCount store >=? 128)%Z eqn:Hfull; [lia|].
  unfold bind, rand, ret.
  destruct (of_int (stream k) / of_int RAND_MAX <? 0.55).
  - unfold cloud, bind, rand, ret. eexists. split; [reflexivity|].
    left. split; [reflexivity|]. cbn [o_w o_h o_y].
    exists (Z.rem (stream (S k)) 80), (Z.rem (stream (S (S k))) 30),
      (Z.rem (stream (S (S (S k)))) 240).
    repeat split; try apply Z.rem_bound_pos; auto; lia.
  - destruct (of_int (stream k) / of_int RAND_MAX <? 0.85).
    + unfold bird, bind, rand, ret. eexists. split; [reflexivity|].
      right; left. cbn [o_w o_h o_y o_type].
      repeat split.
      exists (Z.rem (stream (S k)) 260).
      repeat split; try apply Z.rem_bound_pos; auto; lia.
    + unfold storm, bind, rand, ret. eexists. split; [reflexivity|].
      right; right. cbn [o_w o_h o_y o_type].
      repeat split.
      exists (Z.rem (stream (S k)) 120).
      repeat split; try apply Z.rem_bound_pos; auto; lia.
Qed.

End Store.

Lemma store_within_capacity_witness :
  obsCount (repeat bird_above 128) = 128 /\
  addObstacle RAND_MAX_emscripten (stream_const 0) baseSpeed
    (repeat bird_above 128) 7%nat
  = (repeat bird_above 128, 7%nat).
Proof.
  split; [reflexivity|].
  apply (store_within_capacity RAND_MAX_emscripten (stream_const 0)
           [] 0 baseSpeed (repeat bird_above 128) 7%nat).
  reflexivity.
Defined.

Lemma spawn_by_kind_witness :
  (forall i, 0 <= stream_const 5 i) /\
  obsCount [] < 128 /\
  exists o,
    fst (addObstacle RAND_MAX_emscripten (stream_const 5) baseSpeed [] 0%nat)
    = [o] /\ o_type o = 0.
Proof.
  assert (Hpos : forall i, 0 <= stream_const 5 i)
    by (intros i; unfold stream_const; lia).
  assert (Hlt : obsCount [] < 128) by reflexivity.
  split; [exact Hpos | split; [exact Hlt|]].
  destruct (spawn_by_kind RAND_MAX_emscripten (stream_const 5) baseSpeed
              [] 0%nat Hpos Hlt) as (o & Heq & _).
  exists o. split; [exact Heq|].
  vm_compute in Heq. injection Heq as <-. reflexivity.
Defined.

(** C4 as stated fails for birds: whatever the random stream, two birds
    have the same width and the same height. *)
Lemma bird_size_is_fixed :
  ~ exists (s1 s2 : nat -> Z) (speed : float) (o1 o2 : Obstacle),
      fst (addObstacle RAND_MAX_emscripten s1 speed [] 0%nat) = [o1] /\
      fst (addObstacle RAND_MAX_emscripten s2 speed [] 0%nat) = [o2] /\
      o_type o1 = 1 /\ o_type o2 = 1 /\
      (o_w o1 <> o_w o2 \/ o_h o1 <> o_h o2).
Proof.
  intros (s1 & s2 & speed & o1 & o2 & H1 & H2 & T1 & T2 & Hne).
  destruct (spawned_bird_size _ _ speed [] 0%nat o1 H1 T1) as [W1 H1'].
  destruct (spawned_bird_size _ _ speed [] 0%nat o2 H2 T2) as [W2 H2'].
  destruct Hne as [Hne|Hne]; apply Hne; congruence.
Qed.

(** ** Restart *)

(** C8.  The restart key pressed in a Crashed or Completed session puts
    the remaining distance back to [KM_TOTAL], empties the store, puts the
    player back at the initial height with no velocity, resets the
    difficulty accumulator, the spawn interval and the spawn timer to
    their initial values, and makes the session Active; pressed in an
    Active session it changes nothing. *)
Theorem restart_resets_session (s : Session) :
  (state s <> Active ->
   let s' := handle_event s return_key in
   kmLeft s' = 12000%f32 /\ obs s' = [] /\
   py s' = py (init 0) /\ vy s' = 0%f32 /\
   difficulty s' = difficulty (init 0) /\
   spawnMs s' = spawnMs (init 0) /\
   spawnTimer s' = spawnTimer (init 0) /\
   state s' = Active) /\
  (state s = Active -> handle_event s return_key = s).
Proof.
  unfold state, return_key, handle_event, is_thrust_key.
  destruct (gameOver s), (victory s); cbn [orb];
    (split; [intros Hs | intros Hs; try discriminate Hs; reflexivity]);
    try (now elim Hs); cbv zeta; unfold restart;
    cbn [kmLeft obs py vy difficulty spawnMs spawnTimer gameOver victory init];
    repeat split.
Qed.

Lemma restart_resets_session_witness :
  let crashed := run RAND_MAX_emscripten stream_storm passes_storm (init 0) in
  state crashed <> Active /\
  kmLeft (handle_event crashed return_key) = 12000%f32 /\
  state (init 0) = Active /\
  handle_event (init 0) return_key = init 0.
Proof.
  intros crashed.
  assert (Hc : state crashed <> Active) by (vm_compute; discriminate).
  split; [exact Hc|].
  split.
  - apply (proj1 (restart_resets_session crashed) Hc).
  - split; [reflexivity|].
    apply (proj2 (restart_resets_session (init 0))). reflexivity.
Defined.

(** ** Spawn timer *)

(** C10.  One tick spawns at most one obstacle, however large the elapsed
    time: the obstacles after the tick are those before it, with at most
    one added, advanced and culled.  When the timer reaches the interval
    it is set to zero, whatever the overshoot; otherwise it keeps the
    accumulated time and nothing is spawned. *)
Theorem one_spawn_per_tick
  (RAND_MAX : Z) (stream : nat -> Z) (dtms : float) (s : Session) :
  state s = Active ->
  let s' := simulate RAND_MAX stream dtms s in
  let timer := (spawnTimer s + dtms)%f32 in
  (exists new, (length new <= 1)%nat /\
               obs s' = cull (map advance (obs s ++ new))) /\
  ((timer >=? spawnMs s')%f32 = true -> spawnTimer s' = 0%f32) /\
  ((timer >=? spawnMs s')%f32 = false ->
   spawnTimer s' = timer /\ obs s' = cull (map advance (obs s)) /\
   calls s' = calls s).
Proof.
  intros Hs. rewrite (simulate_active _ _ _ _ Hs).
  unfold update; cbn [obs spawnTimer spawnMs calls]. cbv zeta.
  match goal with
  | |- context [if ?b then addObstacle _ _ ?w ?st ?k else _] =>
      destruct b eqn:Hfire;
      [destruct (addObstacle_cases RAND_MAX stream w st k)
         as [[_ Hadd]|[_ (o & k' & Hadd)]]; rewrite Hadd|];
      cbn [fst snd]
  end.
  - split; [exists []; rewrite app_nil_r; auto|].
    split; [reflexivity | discriminate].
  - split; [exists [o]; auto|].
    split; [reflexivity | discriminate].
  - split; [exists []; rewrite app_nil_r; auto|].
    split; [discriminate | auto].
Qed.

Lemma one_spawn_per_tick_witness :
  state (init 0) = Active /\
  length
    (obs (simulate RAND_MAX_emscripten (stream_const 0) 5000%f32 (init 0)))
  = 1%nat /\
  spawnTimer (simulate RAND_MAX_emscripten (stream_const 0) 5000%f32 (init 0))
  = 0%f32.
Proof.
  split; [reflexivity|].
  split; [vm_compute; reflexivity|].
  apply (one_spawn_per_tick RAND_MAX_emscripten (stream_const 0) 5000%f32
           (init 0)); vm_compute; reflexivity.
Defined.

(** ** Player physics *)

Lemma between_wf (a b x : float) : between a b x -> wf x = true.
Proof. now intros (_ & _ & Hx & _). Qed.

Lemma elapsed_between (now last : Z) :
  between 0%f32 dtms_max (of_int (u32 (now - last))).
Proof.
  apply (of_int_between 0 (2 ^ 32 - 1));
    [by_computation | by_computation |].
  unfold u32. pose proof (Z.mod_pos_bound (now - last) (2 ^ 32) eq_refl). lia.
Qed.

(** An elapsed time of more than 48 ms is above 48 as a [float]. *)
Lemma elapsed_above_48 (n : Z) :
  48 < n <= 2 ^ 32 - 1 -> (48 <? of_int n)%f32 = true.
Proof.
  intros Hn.
  assert (Hb : between (of_int 49) (of_int (2 ^ 32 - 1)) (of_int n))
    by (apply of_int_between; [by_computation | by_computation | lia]).
  destruct Hb as (_ & _ & Hw & Ho & _).
  rewrite ltb_ord by (auto; by_computation).
  apply Z.ltb_lt.
  assert (ord 48%f32 < ord (of_int 49)) by (apply Z.ltb_lt; by_computation).
  lia.
Qed.

Lemma fminf_between (c a b x : float) :
  wf c = true -> (ord a <=? ord c) = true ->
  between a b x -> between a c (fminf c x).
Proof.
  intros Hc L1 (Ha & Hb & Hx & Ho).
  apply Z.leb_le in L1.
  destruct (fminf_ord c x Hc Hx) as [Hw He].
  repeat split; auto; lia.
Qed.

Lemma clamp_vy_between (v : float) :
  wf v = true -> between (- maxVy)%f32 maxVy (clamp_vy v).
Proof.
  intros Hv. unfold clamp_vy. cbv zeta.
  assert (Hm : wf maxVy = true) by by_computation.
  assert (Hn : wf (- maxVy)%f32 = true) by by_computation.
  assert (Hle : ord (- maxVy)%f32 <= ord maxVy)
    by (apply Z.leb_le; by_computation).
  rewrite (gtb_ord v maxVy) by assumption.
  destruct (ord maxVy <? ord v) eqn:E1;
    [apply Z.ltb_lt in E1 | apply Z.ltb_ge in E1];
    rewrite ltb_ord by assumption;
    match goal with
    | |- context [?a <? ?b] =>
        destruct (a <? b) eqn:E2;
        [apply Z.ltb_lt in E2 | apply Z.ltb_ge in E2]
    end;
    repeat split; auto; lia.
Qed.

Lemma clamp_py_between (p : float) :
  wf p = true -> between 60%f32 (of_int (GROUND_Y - 20)) (clamp_py p).
Proof.
  intros Hp. unfold clamp_py. cbv zeta.
  assert (Hlo : wf 60%f32 = true) by by_computation.
  assert (Hhi : wf (of_int (GROUND_Y - 20)) = true) by by_computation.
  assert (Hle : ord 60%f32 <= ord (of_int (GROUND_Y - 20)))
    by (apply Z.leb_le; by_computation).
  rewrite (ltb_ord p 60%f32) by assumption.
  destruct (ord p <? ord 60%f32) eqn:E1;
    [apply Z.ltb_lt in E1 | apply Z.ltb_ge in E1];
    rewrite gtb_ord by assumption;
    match goal with
    | |- context [?a <? ?b] =>
        destruct (a <? b) eqn:E2;
        [apply Z.ltb_lt in E2 | apply Z.ltb_ge in E2]
    end;
    repeat split; auto; lia.
Qed.

(** The physics step of a frame lies between 0 and 48 / 16.6667. *)
Lemma dt_between (dtms : float) :
  between 0%f32 dtms_max dtms ->
  between (0 / 16.6667)%f32 (48 / 16.6667)%f32 (fminf 48 dtms / 16.6667)%f32.
Proof.
  intros Hd.
  assert (Hm : between 0%f32 48%f32 (fminf 48 dtms))
    by bound1 fminf_between Hd.
  bound1 div_between Hm.
Qed.

Lemma physics_vy_between (dt : float) (hold : bool) (v : float) :
  between (0 / 16.6667)%f32 (48 / 16.6667)%f32 dt ->
  between (- maxVy)%f32 maxVy v ->
  between (- maxVy)%f32 maxVy (physics_vy dt hold v).
Proof.
  intros Hdt Hv. unfold physics_vy. cbv zeta.
  apply clamp_vy_between.
  eassert (Hg : between _ _ (gravity * dt)%f32)
    by bound1 mul_between_l Hdt.
  eassert (H1 : between _ _ (v + gravity * dt)%f32)
    by bound2 add_between Hv Hg.
  destruct hold; [|exact (between_wf _ _ _ H1)].
  eassert (Ht : between _ _ (thrust * dt)%f32)
    by bound1 mul_between_l Hdt.
  eassert (H2 : between _ _ (v + gravity * dt - thrust * dt)%f32)
    by bound2 sub_between H1 Ht.
  exact (between_wf _ _ _ H2).
Qed.

Lemma physics_py_between (v p : float) :
  between (- maxVy)%f32 maxVy v ->
  between 60%f32 (of_int (GROUND_Y - 20)) p ->
  between 60%f32 (of_int (GROUND_Y - 20)) (clamp_py (p + v * 3.2)%f32).
Proof.
  intros Hv Hp. apply clamp_py_between.
  eassert (Hs : between _ _ (v * 3.2)%f32)
    by bound1 mul_between_r Hv.
  eassert (H1 : between _ _ (p + v * 3.2)%f32)
    by bound2 add_between Hp Hs.
  exact (between_wf _ _ _ H1).
Qed.

Section PlayerInvariant.

Variable RAND_MAX : Z.
Variable stream : nat -> Z.

Local Open Scope f32_scope.

Lemma update_player (dtms dt dts : float) (s : Session) :
  vy (update RAND_MAX stream dtms dt dts s)
  = physics_vy dt (holding s) (vy s) /\
  py (update RAND_MAX stream dtms dt dts s)
  = clamp_py (py s + physics_vy dt (holding s) (vy s) * 3.2).
Proof. split; reflexivity. Qed.

Lemma simulate_player_ok (dtms : float) (s : Session) :
  between 0 dtms_max dtms -> player_ok s ->
  player_ok (simulate RAND_MAX stream dtms s).
Proof.
  intros Hd [Hv Hp]. unfold simulate.
  destruct (negb (gameOver s) && negb (victory s)); [|now split].
  pose proof (dt_between dtms Hd) as Hdt.
  pose proof (physics_vy_between _ (holding s) _ Hdt Hv) as Hv'.
  split; unfold update; cbn [vy py].
  - exact Hv'.
  - now apply physics_py_between.
Qed.

Lemma handle_event_player_ok (s : Session) (e : Event) :
  player_ok s -> player_ok (handle_event s e).
Proof.
  intros Hs.
  assert (Hr : player_ok (restart s)).
  { split; cbn [restart vy py]; apply between_intro; by_computation. }
  destruct e as [ |k|k| | | ]; simpl; auto.
  - destruct k; simpl; auto.
    destruct (gameOver s || victory s); auto.
  - destruct (is_thrust_key k); auto.
Qed.

Lemma poll_player_ok (evs : list Event) (s : Session) :
  player_ok s -> player_ok (fold_left handle_event evs s).
Proof.
  revert s. induction evs as [|e evs IH]; intros s Hs; simpl; auto.
  apply IH. now apply handle_event_player_ok.
Qed.

Lemma frame_player_ok (evs : list Event) (now : Z) (s : Session) :
  player_ok s -> player_ok (frame RAND_MAX stream evs now s).
Proof.
  intros Hs. unfold frame.
  apply simulate_player_ok; [apply elapsed_between|].
  apply (poll_player_ok evs) in Hs. exact Hs.
Qed.

Lemma run_player_ok (inputs : list (list Event * Z)) (s : Session) :
  player_ok s -> player_ok (run RAND_MAX stream inputs s).
Proof.
  revert s. induction inputs as [|[evs now] rest IH]; intros s Hs; simpl; auto.
  destruct (running s); auto. apply IH. now apply frame_player_ok.
Qed.

Lemma init_player_ok (t0 : Z) : player_ok (init t0).
Proof. split; cbn [init vy py]; apply between_intro; by_computation. Qed.

(** C5.  After any number of passes of the loop, whatever the events and
    the elapsed times, the player's height is between 60 and 440.  The
    tick clamps the height only: the velocity it leaves is the one computed
    from gravity and thrust, whether or not the height was clamped. *)
Theorem altitude_within_band
  (inputs : list (list Event * Z)) (t0 : Z) (dtms dt dts : float)
  (s : Session) :
  (60 <=? py (run RAND_MAX stream inputs (init t0))) = true /\
  (py (run RAND_MAX stream inputs (init t0)) <=? 440) = true /\
  vy (update RAND_MAX stream dtms dt dts s)
  = physics_vy dt (holding s) (vy s) /\
  py (update RAND_MAX stream dtms dt dts s)
  = clamp_py (py s + vy (update RAND_MAX stream dtms dt dts s) * 3.2).
Proof.
  destruct (run_player_ok inputs (init t0) (init_player_ok t0)) as [_ Hp].
  apply between_leb in Hp. destruct Hp as [H1 H2].
  repeat split; auto.
Qed.

End PlayerInvariant.

(** ** Difficulty and spawn interval *)

Lemma add_zero_r (x : float) : wf x = true -> ord (x + 0)%f32 = ord x.
Proof.
  intros Hx. unfold add.
  destruct (add_spec x 0%f32 Hx eq_refl) as (-> & _).
  change (ord 0%f32) with 0. rewrite Z.add_0_r. now apply ordRQ_id.
Qed.

Lemma sub_zero_r (x : float) : wf x = true -> ord (x - 0)%f32 = ord x.
Proof.
  intros Hx. unfold sub.
  destruct (sub_spec x 0%f32 Hx eq_refl) as (-> & _).
  change (ord 0%f32) with 0. rewrite Z.sub_0_r. now apply ordRQ_id.
Qed.

(** Adding a number that is not negative does not decrease, subtracting it
    does not increase. *)
Lemma add_nonneg_ge (x y : float) :
  wf x = true -> wf y = true -> 0 <= ord y -> ord x <= ord (x + y)%f32.
Proof.
  intros Hx Hy Hpos. rewrite <- (add_zero_r x Hx) at 1.
  apply add_mono; auto. lia.
Qed.

Lemma sub_nonneg_le (x y : float) :
  wf x = true -> wf y = true -> 0 <= ord y -> ord (x - y)%f32 <= ord x.
Proof.
  intros Hx Hy Hpos. rewrite <- (sub_zero_r x Hx) at 1.
  apply sub_mono; auto. lia.
Qed.

Lemma increment_between (dtms : float) :
  between 0%f32 dtms_max dtms ->
  between (0.00045 * 0)%f32 (0.00045 * dtms_max)%f32 (0.00045 * dtms)%f32.
Proof. intros Hd. bound1 mul_between_l Hd. Qed.

Lemma difficulty_step (dtms d : float) :
  between 0%f32 dtms_max dtms -> between 1%f32 difficulty_cap d ->
  between 1%f32 difficulty_cap (d + 0.00045 * dtms)%f32 /\
  ord d <= ord (d + 0.00045 * dtms)%f32.
Proof.
  intros Hd Hdiff.
  pose proof (increment_between dtms Hd) as Hi.
  split.
  - eassert (Hs : between _ _ (d + 0.00045 * dtms)%f32)
      by bound2 add_between Hdiff Hi.
    apply (between_weaken _ _ _ _ _ Hs); by_computation.
  - destruct Hdiff as (_ & _ & Hw & _). destruct Hi as (_ & _ & Hwi & Hoi).
    apply add_nonneg_ge; auto.
    assert (0 <= ord (0.00045 * 0)%f32) by (apply Z.leb_le; by_computation).
    lia.
Qed.

(** The terms of the spawn interval are finite numbers. *)
Lemma spawn_interval_terms (d : float) :
  between 1%f32 difficulty_cap d ->
  wf (d - 1.0)%f32 = true /\
  wf ((d - 1.0) * 160.0)%f32 = true /\
  wf (1100.0 - (d - 1.0) * 160.0)%f32 = true.
Proof.
  intros Hd.
  pose proof (between_refl 1.0%f32 eq_refl) as H1.
  pose proof (between_refl 1100.0%f32 eq_refl) as H1100.
  eassert (Ha : between _ _ (d - 1.0)%f32) by bound2 sub_between Hd H1.
  eassert (Hb : between _ _ ((d - 1.0) * 160.0)%f32)
    by bound1 mul_between_r Ha.
  eassert (Hc : between _ _ (1100.0 - (d - 1.0) * 160.0)%f32)
    by bound2 sub_between H1100 Hb.
  repeat split; eapply between_wf; eassumption.
Qed.

(** The spawn interval is a finite number, at least 580, and it does not
    increase when the difficulty grows. *)
Lemma spawn_interval_wf (d : float) :
  between 1%f32 difficulty_cap d ->
  wf (spawn_interval d) = true /\ ord 580%f32 <= ord (spawn_interval d).
Proof.
  intros Hd. unfold spawn_interval.
  destruct (spawn_interval_terms d Hd) as (_ & _ & Hc).
  destruct (fmaxf_ord 580.0%f32 _ eq_refl Hc) as [Hw Ho].
  split; [exact Hw|]. rewrite Ho. lia.
Qed.

Lemma spawn_interval_antitone (d d' : float) :
  between 1%f32 difficulty_cap d -> between 1%f32 difficulty_cap d' ->
  ord d <= ord d' -> ord (spawn_interval d') <= ord (spawn_interval d).
Proof.
  intros Hd Hd' Hle. unfold spawn_interval.
  destruct (spawn_interval_terms d Hd) as (Ha & Hb & Hc).
  destruct (spawn_interval_terms d' Hd') as (Ha' & Hb' & Hc').
  destruct (fmaxf_ord 580.0%f32 _ eq_refl Hc) as [_ ->].
  destruct (fmaxf_ord 580.0%f32 _ eq_refl Hc') as [_ ->].
  apply Z.max_le_compat_l.
  apply sub_mono; try reflexivity; auto.
  apply mul_mono_r; try reflexivity; auto.
  - apply Z.leb_le; by_computation.
  - apply sub_mono; try reflexivity;
      try (exact (between_wf _ _ _ Hd)); try (exact (between_wf _ _ _ Hd'));
      lia.
Qed.

Section DifficultyInvariant.

Variable RAND_MAX : Z.
Variable stream : nat -> Z.

Local Open Scope f32_scope.

Lemma update_difficulty (dtms dt dts : float) (s : Session) :
  difficulty (update RAND_MAX stream dtms dt dts s)
  = difficulty s + 0.00045 * dtms /\
  spawnMs (update RAND_MAX stream dtms dt dts s)
  = spawn_interval (difficulty s + 0.00045 * dtms).
Proof. split; reflexivity. Qed.

Lemma simulate_difficulty_ok (dtms : float) (s : Session) :
  between 0 dtms_max dtms -> difficulty_ok s ->
  difficulty_ok (simulate RAND_MAX stream dtms s) /\
  ord (spawnMs (simulate RAND_MAX stream dtms s)) <= ord (spawnMs s).
Proof.
  intros Hd [Hdiff Hsp]. unfold simulate.
  destruct (negb (gameOver s) && negb (victory s)).
  - destruct (update_difficulty dtms (fminf 48.0 dtms / 16.6667)
                (dtms / 1000.0) s) as [E1 E2].
    destruct (difficulty_step dtms _ Hd Hdiff) as [Hb Hle].
    unfold difficulty_ok. rewrite E1, E2.
    split; [split; auto|].
    rewrite Hsp. now apply spawn_interval_antitone.
  - split; [split; auto | lia].
Qed.

Lemma restart_difficulty_ok (s : Session) : difficulty_ok (restart s).
Proof.
  split; cbn [restart difficulty spawnMs]; [|by_computation].
  apply between_intro; by_computation.
Qed.

Lemma handle_event_difficulty_ok (s : Session) (e : Event) :
  difficulty_ok s -> difficulty_ok (handle_event s e).
Proof.
  intros Hs. pose proof (restart_difficulty_ok s) as Hr.
  destruct e as [ |k|k| | | ]; simpl; auto.
  - destruct k; simpl; auto.
    destruct (gameOver s || victory s); auto.
  - destruct (is_thrust_key k); auto.
Qed.

Lemma poll_difficulty_ok (evs : list Event) (s : Session) :
  difficulty_ok s -> difficulty_ok (fold_left handle_event evs s).
Proof.
  revert s. induction evs as [|e evs IH]; intros s Hs; simpl; auto.
  apply IH. now apply handle_event_difficulty_ok.
Qed.

Lemma frame_difficulty_ok (evs : list Event) (now : Z) (s : Session) :
  difficulty_ok s -> difficulty_ok (frame RAND_MAX stream evs now s).
Proof.
  intros Hs. unfold frame.
  apply simulate_difficulty_ok; [apply elapsed_between|].
  apply (poll_difficulty_ok evs) in Hs. exact Hs.
Qed.

Lemma run_difficulty_ok (inputs : list (list Event * Z)) (s : Session) :
  difficulty_ok s -> difficulty_ok (run RAND_MAX stream inputs s).
Proof.
  revert s. induction inputs as [|[evs now] rest IH]; intros s Hs; simpl; auto.
  destruct (running s); auto. apply IH. now apply frame_difficulty_ok.
Qed.

Lemma init_difficulty_ok (t0 : Z) : difficulty_ok (init t0).
Proof.
  split; cbn [init difficulty spawnMs]; [|by_computation].
  apply between_intro; by_computation.
Qed.

Lemma handle_event_spawnMs (s : Session) (e : Event) :
  e <> return_key ->
  spawnMs (handle_event s e) = spawnMs s /\
  difficulty (handle_event s e) = difficulty s.
Proof.
  intros He. destruct e as [ |k|k| | | ]; simpl; auto.
  - destruct k; simpl; auto. now elim He.
  - destruct (is_thrust_key k); simpl; auto.
Qed.

Lemma poll_spawnMs (evs : list Event) (s : Session) :
  ~ In return_key evs ->
  spawnMs (fold_left handle_event evs s) = spawnMs s.
Proof.
  revert s. induction evs as [|e evs IH]; intros s Hin; simpl; auto.
  rewrite IH by (intros Hi; apply Hin; now right).
  apply handle_event_spawnMs. intros ->. apply Hin. now left.
Qed.

(** C7.  The spawn interval starts at 1100 ms; in every state that the
    loop reaches it is [max(580, 1100 - (difficulty - 1) * 160)] for the
    current difficulty, hence at least 580 ms; and a pass of the loop that
    handles no restart never increases it. *)
Theorem spawn_interval_never_increases
  (inputs : list (list Event * Z)) (t0 : Z) (evs : list Event) (now : Z) :
  ~ In return_key evs ->
  let s := run RAND_MAX stream inputs (init t0) in
  let s' := frame RAND_MAX stream evs now s in
  spawnMs (init t0) = 1100 /\
  spawnMs s = fmaxf 580 (1100 - (difficulty s - 1) * 160) /\
  (580 <=? spawnMs s) = true /\
  (spawnMs s' <=? spawnMs s) = true.
Proof.
  intros Hin s s'.
  pose proof (run_difficulty_ok inputs (init t0) (init_difficulty_ok t0))
    as Hs.
  fold s in Hs.
  pose proof (frame_difficulty_ok evs now s Hs) as Hs'. fold s' in Hs'.
  destruct Hs as [Hd Hsp]. destruct Hs' as [Hd' Hsp'].
  destruct (spawn_interval_wf _ Hd) as [Hw Hlo].
  destruct (spawn_interval_wf _ Hd') as [Hw' _].
  split; [reflexivity|]. split; [exact Hsp|].
  rewrite !leb_ord by (rewrite ?Hsp, ?Hsp'; auto).
  split; apply Z.leb_le.
  - rewrite Hsp. exact Hlo.
  - subst s'. unfold frame.
    pose proof (poll_difficulty_ok evs s (conj Hd Hsp)) as Hp.
    destruct (simulate_difficulty_ok
                (of_int (u32 (now - last (fold_left handle_event evs s))))
                (set_last (u32 now) (fold_left handle_event evs s))
                (elapsed_between _ _) Hp) as [_ Hle].
    etransitivity; [exact Hle|].
    cbn [set_last spawnMs]. rewrite poll_spawnMs by assumption. lia.
Qed.

End DifficultyInvariant.

(** ** Progress *)

Lemma remaining_complement (km : float) :
  between 0%f32 KM_TOTAL km ->
  between (KM_TOTAL - KM_TOTAL)%f32 (KM_TOTAL - 0)%f32 (KM_TOTAL - km)%f32.
Proof.
  intros Hk. pose proof (between_refl KM_TOTAL eq_refl) as HK.
  bound2 sub_between HK Hk.
Qed.

Lemma progress_between (km : float) :
  between 0%f32 KM_TOTAL km ->
  between ((KM_TOTAL - KM_TOTAL) / KM_TOTAL)%f32
          ((KM_TOTAL - 0) / KM_TOTAL)%f32 (progress km).
Proof.
  intros Hk. unfold progress.
  pose proof (remaining_complement km Hk) as Hc.
  bound1 div_between Hc.
Qed.

Lemma progress_monotone (km km' : float) :
  between 0%f32 KM_TOTAL km -> between 0%f32 KM_TOTAL km' ->
  ord km' <= ord km -> ord (progress km) <= ord (progress km').
Proof.
  intros Hk Hk' Hle. unfold progress.
  pose proof (remaining_complement km Hk) as Ha.
  pose proof (remaining_complement km' Hk') as Ha'.
  apply div_mono;
    [by_computation | exact (between_wf _ _ _ Ha)
     | exact (between_wf _ _ _ Ha') | apply Z.ltb_lt; by_computation |].
  apply sub_mono; try reflexivity;
    try (exact (between_wf _ _ _ Hk)); try (exact (between_wf _ _ _ Hk'));
    lia.
Qed.

(** The travel speed is a finite number between 120 and 240. *)
Lemma kmPerSec_between (km : float) :
  between 0%f32 KM_TOTAL km ->
  between 120%f32 240%f32 (kmPerSec km).
Proof.
  intros Hk. unfold kmPerSec. cbv zeta.
  pose proof (progress_between km Hk) as Hp.
  set (prog := progress km) in *.
  pose proof (between_refl 3%f32 eq_refl) as B3.
  pose proof (between_refl 120.0%f32 eq_refl) as B120.
  eassert (Hpp : between _ _ (prog * prog)%f32)
    by bound2 mul_between Hp Hp.
  eassert (H2p : between _ _ (2 * prog)%f32)
    by bound1 mul_between_l Hp.
  eassert (H3 : between _ _ (3 - 2 * prog)%f32)
    by bound2 sub_between B3 H2p.
  eassert (Ht : between _ _ (prog * prog * (3 - 2 * prog))%f32)
    by bound2 mul_between Hpp H3.
  eassert (Hm : between _ _
                  ((160.0 - 120.0) * (prog * prog * (3 - 2 * prog)))%f32)
    by bound1 mul_between_l Ht.
  eassert (Hs : between _ _
                  (120.0 + (160.0 - 120.0) * (prog * prog * (3 - 2 * prog)))%f32)
    by bound2 add_between B120 Hm.
  apply (between_weaken _ _ _ _ _ Hs); by_computation.
Qed.

(** The distance covered in a frame is a finite number that is not
    negative. *)
Lemma covered_between (km dtms : float) :
  between 0%f32 KM_TOTAL km -> between 0%f32 dtms_max dtms ->
  between (120 * (0 / 1000.0))%f32 (240 * (dtms_max / 1000.0))%f32
          (kmPerSec km * (dtms / 1000.0))%f32.
Proof.
  intros Hk Hd.
  pose proof (kmPerSec_between km Hk) as Hv.
  assert (Hs : between (0 / 1000.0)%f32 (dtms_max / 1000.0)%f32
                 (dtms / 1000.0)%f32)
    by bound1 div_between Hd.
  bound2 mul_between Hv Hs.
Qed.

Lemma remaining_step (km dtms : float) :
  between 0%f32 KM_TOTAL km -> between 0%f32 dtms_max dtms ->
  let km1 := (km - kmPerSec km * (dtms / 1000.0))%f32 in
  let km' := if (km1 <=? 0)%f32 then 0%f32 else km1 in
  between 0%f32 KM_TOTAL km' /\ ord km' <= ord km.
Proof.
  intros Hk Hd km1 km'.
  pose proof (covered_between km dtms Hk Hd) as Hc.
  eassert (H1 : between _ _ (km - kmPerSec km * (dtms / 1000.0))%f32)
    by bound2 sub_between Hk Hc.
  fold km1 in H1.
  assert (Hle : ord km1 <= ord km).
  { destruct Hk as (_ & _ & Hw & _). destruct Hc as (_ & _ & Hwc & Hoc).
    apply sub_nonneg_le; auto.
    assert (0 <= ord (120 * (0 / 1000.0))%f32)
      by (apply Z.leb_le; by_computation).
    lia. }
  destruct Hk as (H0 & HK & Hw & Ho).
  pose proof (between_wf _ _ _ H1) as Hw1.
  assert (Hz : ord 0%f32 = 0) by reflexivity.
  subst km'. rewrite (leb_ord km1 0%f32 Hw1 eq_refl), Hz.
  destruct (ord km1 <=? 0) eqn:E;
    [apply Z.leb_le in E | apply Z.leb_gt in E].
  - split; [repeat split; auto|]; rewrite ?Hz in *; lia.
  - split; [repeat split; auto|]; rewrite ?Hz in *; lia.
Qed.

Section DistanceInvariant.

Variable RAND_MAX : Z.
Variable stream : nat -> Z.

Local Open Scope f32_scope.

Lemma update_distance (dtms dt dts : float) (s : Session) :
  let km1 := kmLeft s - kmPerSec (kmLeft s) * dts in
  kmLeft (update RAND_MAX stream dtms dt dts s)
  = (if km1 <=? 0 then 0 else km1) /\
  victory (update RAND_MAX stream dtms dt dts s)
  = (if km1 <=? 0 then true else victory s).
Proof. split; reflexivity. Qed.

Lemma simulate_distance_ok (dtms : float) (s : Session) :
  between 0 dtms_max dtms -> distance_ok s ->
  distance_ok (simulate RAND_MAX stream dtms s) /\
  ord (kmLeft (simulate RAND_MAX stream dtms s)) <= ord (kmLeft s).
Proof.
  intros Hd [Hk Hv]. unfold simulate.
  destruct (negb (gameOver s) && negb (victory s)) eqn:Hact.
  - destruct (update_distance dtms (fminf 48.0 dtms / 16.6667)
                (dtms / 1000.0) s) as [E1 E2].
    destruct (remaining_step _ _ Hk Hd) as [Hb Hle].
    unfold distance_ok. rewrite E1, E2.
    split; [split; [exact Hb|]|exact Hle].
    destruct (_ <=? 0); [reflexivity|].
    intros Hvic. rewrite Hvic in Hact.
    rewrite andb_false_r in Hact. discriminate.
  - split; [split; auto | lia].
Qed.

Lemma restart_distance_ok (s : Session) : distance_ok (restart s).
Proof.
  split; cbn [restart kmLeft victory]; [|discriminate].
  apply between_intro; by_computation.
Qed.

Lemma handle_event_distance_ok (s : Session) (e : Event) :
  distance_ok s -> distance_ok (handle_event s e).
Proof.
  intros Hs. pose proof (restart_distance_ok s) as Hr.
  destruct e as [ |k|k| | | ]; simpl; auto.
  - destruct k; simpl; auto.
    destruct (gameOver s || victory s); auto.
  - destruct (is_thrust_key k); auto.
Qed.

Lemma poll_distance_ok (evs : list Event) (s : Session) :
  distance_ok s -> distance_ok (fold_left handle_event evs s).
Proof.
  revert s. induction evs as [|e evs IH]; intros s Hs; simpl; auto.
  apply IH. now apply handle_event_distance_ok.
Qed.

Lemma frame_distance_ok (evs : list Event) (now : Z) (s : Session) :
  distance_ok s -> distance_ok (frame RAND_MAX stream evs now s).
Proof.
  intros Hs. unfold frame.
  apply simulate_distance_ok; [apply elapsed_between|].
  apply (poll_distance_ok evs) in Hs. exact Hs.
Qed.

Lemma run_distance_ok (inputs : list (list Event * Z)) (s : Session) :
  distance_ok s -> distance_ok (run RAND_MAX stream inputs s).
Proof.
  revert s. induction inputs as [|[evs now] rest IH]; intros s Hs; simpl; auto.
  destruct (running s); auto. apply IH. now apply frame_distance_ok.
Qed.

Lemma init_distance_ok (t0 : Z) : distance_ok (init t0).
Proof.
  split; cbn [init kmLeft victory]; [|discriminate].
  apply between_intro; by_computation.
Qed.

(** In an Active session the restart key does nothing, and no event
    changes a flag, the obstacles or the remaining distance. *)
Lemma handle_event_active (s : Session) (e : Event) :
  state s = Active ->
  gameOver (handle_event s e) = gameOver s /\
  victory (handle_event s e) = victory s /\
  obs (handle_event s e) = obs s /\
  kmLeft (handle_event s e) = kmLeft s.
Proof.
  unfold state. intros Hs.
  destruct (gameOver s) eqn:Hg; [discriminate|].
  destruct (victory s) eqn:Hv; [discriminate|].
  destruct e as [ |k|k| | | ]; simpl; rewrite ?Hg, ?Hv; auto.
  - destruct k; simpl; rewrite ?Hg, ?Hv; simpl; rewrite ?Hg, ?Hv; auto.
  - destruct (is_thrust_key k); simpl; rewrite ?Hg, ?Hv; auto.
Qed.

Lemma poll_active (evs : list Event) (s : Session) :
  state s = Active ->
  gameOver (fold_left handle_event evs s) = gameOver s /\
  victory (fold_left handle_event evs s) = victory s /\
  obs (fold_left handle_event evs s) = obs s /\
  kmLeft (fold_left handle_event evs s) = kmLeft s.
Proof.
  revert s. induction evs as [|e evs IH]; intros s Hs; simpl; auto.
  destruct (handle_event_active s e Hs) as (Hg & Hv & Ho & Hk).
  destruct (IH (handle_event s e)) as (Hg' & Hv' & Ho' & Hk').
  - unfold state in *. rewrite Hg, Hv. exact Hs.
  - repeat split; congruence.
Qed.

(** C9.  In every state that the loop reaches the remaining distance is
    between 0 and [KM_TOTAL]; a pass of the loop over an Active session
    never decreases the progress fraction, whatever the events of the
    pass, the restart key among them, and whatever the elapsed time; and
    whenever [victory] is set after the pass the remaining distance is
    exactly zero and the progress fraction is exactly 1. *)
Theorem progress_never_decreases
  (inputs : list (list Event * Z)) (t0 : Z) (evs : list Event) (now : Z) :
  let s := run RAND_MAX stream inputs (init t0) in
  let s' := frame RAND_MAX stream evs now s in
  state s = Active ->
  (0 <=? kmLeft s) = true /\ (kmLeft s <=? KM_TOTAL) = true /\
  (progress (kmLeft s) <=? progress (kmLeft s')) = true /\
  (victory s' = true -> kmLeft s' = 0 /\ progress (kmLeft s') = 1).
Proof.
  intros s s' Hact.
  pose proof (run_distance_ok inputs (init t0) (init_distance_ok t0)) as Hs.
  fold s in Hs.
  pose proof (frame_distance_ok evs now s Hs) as Hs'. fold s' in Hs'.
  destruct Hs as [Hk Hv]. destruct Hs' as [Hk' Hv'].
  destruct (between_leb _ _ _ Hk) as [L1 L2].
  split; [exact L1|]. split; [exact L2|]. split.
  - pose proof (progress_between _ Hk) as Hp.
    pose proof (progress_between _ Hk') as Hp'.
    rewrite leb_ord
      by (try exact (between_wf _ _ _ Hp); exact (between_wf _ _ _ Hp')).
    apply Z.leb_le. apply progress_monotone; auto.
    subst s'. unfold frame.
    pose proof (poll_distance_ok evs s (conj Hk Hv)) as Hp0.
    destruct (simulate_distance_ok
                (of_int (u32 (now - last (fold_left handle_event evs s))))
                (set_last (u32 now) (fold_left handle_event evs s))
                (elapsed_between _ _) Hp0) as [_ Hle].
    etransitivity; [exact Hle|].
    cbn [set_last kmLeft].
    destruct (poll_active evs s Hact) as (_ & _ & _ & ->). lia.
  - intros Hvic. rewrite (Hv' Hvic). split; by_computation.
Qed.

End DistanceInvariant.

Lemma space_is_not_restart : ~ In return_key [SDL_KEYDOWN SDLK_SPACE].
Proof. simpl. intros [Hk|[]]. discriminate Hk. Defined.

Lemma spawn_interval_never_increases_witness :
  ~ In return_key [SDL_KEYDOWN SDLK_SPACE] /\
  leb (spawnMs (frame RAND_MAX_emscripten stream_storm
                  [SDL_KEYDOWN SDLK_SPACE] 5000
                  (run RAND_MAX_emscripten stream_storm first_pass (init 0))))
      (spawnMs (run RAND_MAX_emscripten stream_storm first_pass (init 0)))
  = true.
Proof.
  split; [exact space_is_not_restart|].
  destruct (spawn_interval_never_increases RAND_MAX_emscripten stream_storm
              first_pass 0 [SDL_KEYDOWN SDLK_SPACE] 5000
              space_is_not_restart) as (_ & _ & _ & Hle).
  exact Hle.
Defined.

Lemma progress_never_decreases_witness :
  state (run RAND_MAX_emscripten stream_storm first_pass (init 0)) = Active /\
  leb (progress
         (kmLeft (run RAND_MAX_emscripten stream_storm first_pass (init 0))))
      (progress
         (kmLeft
            (frame RAND_MAX_emscripten stream_storm
               [return_key; SDL_KEYDOWN SDLK_SPACE] 5000
               (run RAND_MAX_emscripten stream_storm first_pass (init 0)))))
  = true.
Proof.
  assert (Hact : state (run RAND_MAX_emscripten stream_storm first_pass
                          (init 0)) = Active)
    by (vm_compute; reflexivity).
  split; [exact Hact|].
  destruct (progress_never_decreases RAND_MAX_emscripten stream_storm
              first_pass 0 [return_key; SDL_KEYDOWN SDLK_SPACE] 5000 Hact)
    as (_ & _ & Hle & _).
  exact Hle.
Defined.

(** ** Event loop *)

Lemma handle_event_holding (s : Session) (e : Event) :
  holding (handle_event s e)
  = match thrust_event e with Some h => h | None => holding s end.
Proof.
  destruct e as [ |k|k| | | ]; simpl; auto.
  - destruct k; simpl; auto.
    destruct (gameOver s || victory s); reflexivity.
  - destruct k; reflexivity.
Qed.

(** X7.  The thrust flag after the event loop is the last press or
    release of the space key, the up key or a mouse button among the
    events, and the flag as it was when there is none: keys and mouse
    share the one flag, and neither the restart nor the quit event touches
    it. *)
Theorem thrust_follows_last_event (evs : list Event) (s : Session) :
  holding (fold_left handle_event evs s) = last_thrust evs (holding s).
Proof.
  unfold last_thrust. revert s.
  induction evs as [|e evs IH]; intros s; simpl; auto.
  rewrite IH, handle_event_holding. reflexivity.
Qed.

Lemma handle_event_running (s : Session) (e : Event) :
  running s = false -> running (handle_event s e) = false.
Proof.
  intros Hr. destruct e as [ |k|k| | | ]; simpl; auto.
  - destruct k; simpl; auto.
    destruct (gameOver s || victory s); simpl; auto.
  - destruct (is_thrust_key k); simpl; auto.
Qed.

Lemma poll_running (evs : list Event) (s : Session) :
  running s = false -> running (fold_left handle_event evs s) = false.
Proof.
  revert s. induction evs as [|e evs IH]; intros s Hr; simpl; auto.
  apply IH. now apply handle_event_running.
Qed.

Lemma poll_quit (evs : list Event) (s : Session) :
  In SDL_QUIT evs -> running (fold_left handle_event evs s) = false.
Proof.
  revert s. induction evs as [|e evs IH]; intros s Hin; simpl.
  - destruct Hin.
  - destruct Hin as [->|Hin]; [|now apply IH].
    apply poll_running. reflexivity.
Qed.

Lemma handle_event_last (s : Session) (e : Event) :
  last (handle_event s e) = last s /\ calls (handle_event s e) = calls s.
Proof.
  destruct e as [ |k|k| | | ]; simpl; auto.
  - destruct k; simpl; auto.
    destruct (gameOver s || victory s); simpl; auto.
  - destruct (is_thrust_key k); simpl; auto.
Qed.

Lemma poll_last (evs : list Event) (s : Session) :
  last (fold_left handle_event evs s) = last s /\
  calls (fold_left handle_event evs s) = calls s.
Proof.
  revert s. induction evs as [|e evs IH]; intros s; simpl; auto.
  destruct (IH (handle_event s e)) as [-> ->]. apply handle_event_last.
Qed.

(** An event other than the restart key changes nothing but the thrust
    flag and the quit flag. *)
Lemma handle_event_simulation (s : Session) (e : Event) :
  e <> return_key ->
  handle_event s e
  = set_holding (holding (handle_event s e))
      (set_running (running (handle_event s e)) s).
Proof.
  intros He. destruct s. destruct e as [ |k|k| | | ]; simpl; auto.
  - destruct k; simpl; auto. now elim He.
  - destruct (is_thrust_key k); simpl; auto.
Qed.

Lemma poll_simulation (evs : list Event) (s : Session) :
  ~ In return_key evs ->
  fold_left handle_event evs s
  = set_holding (holding (fold_left handle_event evs s))
      (set_running (running (fold_left handle_event evs s)) s).
Proof.
  revert s. induction evs as [|e evs IH]; intros s Hin; simpl.
  - now destruct s.
  - rewrite IH at 1 by (intros Hi; apply Hin; now right).
    rewrite (handle_event_simulation s e) at 3
      by (intros ->; apply Hin; now left).
    reflexivity.
Qed.

Section Loop.

Variable RAND_MAX : Z.
Variable stream : nat -> Z.

Lemma simulate_running (dtms : float) (s : Session) :
  running (simulate RAND_MAX stream dtms s) = running s /\
  holding (simulate RAND_MAX stream dtms s) = holding s /\
  last (simulate RAND_MAX stream dtms s) = last s.
Proof.
  unfold simulate.
  destruct (negb (gameOver s) && negb (victory s)); auto.
Qed.

Lemma run_stopped (inputs : list (list Event * Z)) (s : Session) :
  running s = false -> run RAND_MAX stream inputs s = s.
Proof. intros Hr. destruct inputs as [|[evs now] rest]; simpl; auto. now rewrite Hr. Qed.

(** X6.  A quit event ends the loop: the pass that receives it handles
    its other events and simulates as usual, and no pass follows it,
    whatever inputs are waiting.  Nothing sets the flag again. *)
Theorem quit_ends_the_loop
  (evs : list Event) (now : Z) (rest : list (list Event * Z)) (s : Session) :
  In SDL_QUIT evs -> running s = true ->
  running (frame RAND_MAX stream evs now s) = false /\
  run RAND_MAX stream ((evs, now) :: rest) s = frame RAND_MAX stream evs now s.
Proof.
  intros Hin Hr.
  assert (Hf : running (frame RAND_MAX stream evs now s) = false).
  { unfold frame. destruct (simulate_running
      (of_int (u32 (now - last (fold_left handle_event evs s))))
      (set_last (u32 now) (fold_left handle_event evs s))) as (-> & _).
    cbn [set_last running]. now apply poll_quit. }
  split; [exact Hf|]. cbn [run]. rewrite Hr. now apply run_stopped.
Qed.

(** X9.  The loop over a list of passes followed by another list is the
    loop over the first, then, from the state it reaches, the loop over
    the second; and once the running flag is cleared the passes that are
    left change nothing. *)
Theorem run_app (a b : list (list Event * Z)) (s : Session) :
  run RAND_MAX stream (a ++ b) s
  = run RAND_MAX stream b (run RAND_MAX stream a s) /\
  (running s = false -> run RAND_MAX stream a s = s).
Proof.
  split; [|apply run_stopped].
  revert s. induction a as [|[evs now] a IH]; intros s; simpl; auto.
  destruct (running s) eqn:Hr; auto.
  symmetry. now apply run_stopped.
Qed.

(** X8.  The tick counter is read modulo [2 ^ 32], and so is the
    difference of two readings: as long as less than [2 ^ 32] ms pass
    between two passes, the second is simulated for the time that really
    passed, also when the counter wrapped around in between. *)
Theorem elapsed_time_survives_wrap
  (evs evs' : list Event) (t0 t1 : Z) (s : Session) :
  0 <= t1 - t0 < 2 ^ 32 ->
  let s0 := frame RAND_MAX stream evs t0 s in
  last s0 = u32 t0 /\
  frame RAND_MAX stream evs' t1 s0
  = simulate RAND_MAX stream (of_int (t1 - t0))
      (set_last (u32 t1) (fold_left handle_event evs' s0)).
Proof.
  intros Ht s0.
  assert (Hl : last s0 = u32 t0).
  { subst s0. unfold frame.
    destruct (simulate_running
      (of_int (u32 (t0 - last (fold_left handle_event evs s))))
      (set_last (u32 t0) (fold_left handle_event evs s))) as (_ & _ & ->).
    reflexivity. }
  split; [exact Hl|]. unfold frame at 1.
  destruct (poll_last evs' s0) as [-> _]. rewrite Hl.
  replace (u32 (t1 - u32 t0)) with (t1 - t0); [reflexivity|].
  unfold u32. rewrite Zminus_mod_idemp_r. symmetry. now apply Z.mod_small.
Qed.

(** X5.  A session that is Crashed or Completed stands still: a pass
    without the restart key leaves the obstacles, the player, the
    remaining distance, the difficulty, the spawn interval and timer, the
    count of calls of [rand] and both flags as they are, and stores the
    reading of the tick counter; of the rest only the thrust flag and the
    quit flag can change. *)
Theorem ended_session_stands_still
  (evs : list Event) (now : Z) (s : Session) :
  state s <> Active -> ~ In return_key evs ->
  let s' := frame RAND_MAX stream evs now s in
  obs s' = obs s /\ calls s' = calls s /\
  py s' = py s /\ vy s' = vy s /\
  kmLeft s' = kmLeft s /\ difficulty s' = difficulty s /\
  spawnMs s' = spawnMs s /\ spawnTimer s' = spawnTimer s /\
  gameOver s' = gameOver s /\ victory s' = victory s /\
  last s' = u32 now.
Proof.
  intros Hs Hin s'. subst s'. unfold frame.
  destruct (poll_flags evs s Hin) as (Hg & Hv & _).
  rewrite simulate_frozen
    by (unfold state in *; cbn [set_last gameOver victory];
        rewrite Hg, Hv; exact Hs).
  rewrite (poll_simulation evs s Hin).
  repeat split.
Qed.

End Loop.

(** ** Bounds that the loop keeps *)

Lemma spawn_interval_below (d : float) :
  between 1%f32 difficulty_cap d -> ord (spawn_interval d) <= ord 1100%f32.
Proof.
  intros Hd. unfold spawn_interval.
  destruct (spawn_interval_terms d Hd) as (Ha & Hb & Hc).
  destruct (fmaxf_ord 580.0%f32 _ eq_refl Hc) as [_ ->].
  apply Z.max_lub; [apply Z.leb_le; by_computation|].
  apply sub_nonneg_le; [by_computation | exact Hb |].
  change 0 with (ord (0 * 160.0)%f32).
  apply mul_mono_r; [by_computation | by_computation | exact Ha
                     | apply Z.leb_le; by_computation |].
  change (ord 0%f32) with (ord (1 - 1.0)%f32).
  destruct Hd as (_ & _ & Hw & Ho & _).
  apply sub_mono; try reflexivity; auto; lia.
Qed.

Section Bounds.

Variable RAND_MAX : Z.
Variable stream : nat -> Z.

Local Open Scope f32_scope.

(** X1.  After any number of passes of the loop the vertical velocity is
    between [-maxVy] and [maxVy]. *)
Theorem velocity_within_limit (inputs : list (list Event * Z)) (t0 : Z) :
  (- maxVy <=? vy (run RAND_MAX stream inputs (init t0))) = true /\
  (vy (run RAND_MAX stream inputs (init t0)) <=? maxVy) = true.
Proof.
  destruct (run_player_ok RAND_MAX stream inputs (init t0)
              (init_player_ok t0)) as [Hv _].
  now apply between_leb.
Qed.

Lemma simulate_difficulty_grows (dtms : float) (s : Session) :
  between 0 dtms_max dtms -> difficulty_ok s ->
  (ord (difficulty s)
   <= ord (difficulty (simulate RAND_MAX stream dtms s)))%Z.
Proof.
  intros Hd [Hdiff _]. unfold simulate.
  destruct (negb (gameOver s) && negb (victory s)); [|lia].
  destruct (update_difficulty RAND_MAX stream dtms
              (fminf 48.0 dtms / 16.6667) (dtms / 1000.0) s) as [-> _].
  now apply difficulty_step.
Qed.

Lemma poll_difficulty (evs : list Event) (s : Session) :
  ~ In return_key evs ->
  difficulty (fold_left handle_event evs s) = difficulty s /\
  spawnTimer (fold_left handle_event evs s) = spawnTimer s.
Proof.
  intros Hin. rewrite (poll_simulation evs s Hin). split; reflexivity.
Qed.

Lemma frame_difficulty_grows (evs : list Event) (now : Z) (s : Session) :
  ~ In return_key evs -> difficulty_ok s ->
  (ord (difficulty s)
   <= ord (difficulty (frame RAND_MAX stream evs now s)))%Z.
Proof.
  intros Hin Hs. unfold frame.
  pose proof (poll_difficulty_ok evs s Hs) as Hp.
  pose proof (simulate_difficulty_grows
                (of_int (u32 (now - last (fold_left handle_event evs s))))
                (set_last (u32 now) (fold_left handle_event evs s))
                (elapsed_between _ _) Hp) as Hle.
  etransitivity; [|exact Hle].
  cbn [set_last difficulty].
  destruct (poll_difficulty evs s Hin) as [-> _]. lia.
Qed.

(** X2.  The difficulty accumulator is at least 1 in every state that
    the loop reaches, and a pass of the loop that handles no restart never
    decreases it. *)
Theorem difficulty_never_decreases
  (inputs : list (list Event * Z)) (t0 : Z) (evs : list Event) (now : Z) :
  ~ In return_key evs ->
  let s := run RAND_MAX stream inputs (init t0) in
  let s' := frame RAND_MAX stream evs now s in
  (1 <=? difficulty s) = true /\ (difficulty s <=? difficulty s') = true.
Proof.
  intros Hin s s'.
  pose proof (run_difficulty_ok RAND_MAX stream inputs (init t0)
                (init_difficulty_ok t0)) as Hs.
  fold s in Hs.
  pose proof (frame_difficulty_ok RAND_MAX stream evs now s Hs) as Hs'.
  fold s' in Hs'.
  destruct (between_leb _ _ _ (proj1 Hs)) as [L1 _].
  split; [exact L1|].
  rewrite leb_ord
    by (try exact (between_wf _ _ _ (proj1 Hs));
        exact (between_wf _ _ _ (proj1 Hs'))).
  apply Z.leb_le. now apply frame_difficulty_grows.
Qed.

Lemma frame_distance_le (evs : list Event) (now : Z) (s : Session) :
  ~ In return_key evs -> distance_ok s ->
  (ord (kmLeft (frame RAND_MAX stream evs now s)) <= ord (kmLeft s))%Z.
Proof.
  intros Hin Hs. unfold frame.
  pose proof (poll_distance_ok evs s Hs) as Hp.
  destruct (simulate_distance_ok RAND_MAX stream
              (of_int (u32 (now - last (fold_left handle_event evs s))))
              (set_last (u32 now) (fold_left handle_event evs s))
              (elapsed_between _ _) Hp) as [_ Hle].
  etransitivity; [exact Hle|].
  cbn [set_last kmLeft].
  destruct (poll_flags evs s Hin) as (_ & _ & _ & ->). lia.
Qed.

(** X3.  A pass of the loop that handles no restart never increases the
    remaining distance. *)
Theorem distance_never_increases
  (inputs : list (list Event * Z)) (t0 : Z) (evs : list Event) (now : Z) :
  ~ In return_key evs ->
  let s := run RAND_MAX stream inputs (init t0) in
  (kmLeft (frame RAND_MAX stream evs now s) <=? kmLeft s) = true.
Proof.
  intros Hin s.
  pose proof (run_distance_ok RAND_MAX stream inputs (init t0)
                (init_distance_ok t0)) as Hs.
  fold s in Hs.
  pose proof (frame_distance_ok RAND_MAX stream evs now s Hs) as Hs'.
  rewrite leb_ord
    by (try exact (between_wf _ _ _ (proj1 Hs));
        exact (between_wf _ _ _ (proj1 Hs'))).
  apply Z.leb_le. now apply frame_distance_le.
Qed.

Lemma update_timer (dtms dt dts : float) (s : Session) :
  spawnTimer (update RAND_MAX stream dtms dt dts s)
  = (if spawnTimer s + dtms
        >=? spawn_interval (difficulty s + 0.00045 * dtms)
     then 0.0 else spawnTimer s + dtms).
Proof. reflexivity. Qed.

Lemma simulate_timer_ok (dtms : float) (s : Session) :
  between 0 dtms_max dtms -> timer_ok s ->
  timer_ok (simulate RAND_MAX stream dtms s).
Proof.
  intros Hd (Hdo & Ht & Hlt).
  destruct (simulate_difficulty_ok RAND_MAX stream dtms s Hd Hdo)
    as [Hdo' _].
  split; [exact Hdo'|]. revert Hdo'. unfold simulate.
  destruct (negb (gameOver s) && negb (victory s)); [|now split].
  intros [Hdiff' Hsp']. rewrite Hsp'.
  destruct (update_difficulty RAND_MAX stream dtms
              (fminf 48.0 dtms / 16.6667) (dtms / 1000.0) s) as [E1 _].
  rewrite E1 in *. rewrite update_timer.
  destruct (spawn_interval_wf _ Hdiff') as [Hw Hlo].
  pose proof (spawn_interval_below _ Hdiff') as Hhi.
  eassert (Hsum : between _ _ (spawnTimer s + dtms))
    by bound2 add_between Ht Hd.
  destruct Hsum as (_ & _ & Hwt & Hot & _).
  assert (Hz : (ord (0 + 0) = 0)%Z) by reflexivity.
  assert (H580 : (0 < ord 580)%Z) by (apply Z.ltb_lt; by_computation).
  unfold geb. fold (leb (spawn_interval (difficulty s + 0.00045 * dtms))
                        (spawnTimer s + dtms)).
  rewrite leb_ord by assumption.
  match goal with
  | |- context [(?a <=? ?b)%Z] =>
      destruct (a <=? b)%Z eqn:E;
      [apply Z.leb_le in E | apply Z.leb_gt in E]
  end.
  - split; [apply between_intro; by_computation|].
    change (ord 0.0) with 0%Z. lia.
  - split; [|exact E].
    repeat split; auto; try by_computation;
      change (ord 0) with 0%Z; lia.
Qed.

Lemma restart_timer_ok (s : Session) : timer_ok (restart s).
Proof.
  split; [apply restart_difficulty_ok|].
  split; cbn [restart spawnTimer spawnMs];
    [apply between_intro; by_computation | apply Z.ltb_lt; by_computation].
Qed.

Lemma handle_event_timer_ok (s : Session) (e : Event) :
  timer_ok s -> timer_ok (handle_event s e).
Proof.
  intros Hs. pose proof (restart_timer_ok s) as Hr.
  destruct e as [ |k|k| | | ]; simpl; auto.
  - destruct k; simpl; auto.
    destruct (gameOver s || victory s); auto.
  - destruct (is_thrust_key k); auto.
Qed.

Lemma poll_timer_ok (evs : list Event) (s : Session) :
  timer_ok s -> timer_ok (fold_left handle_event evs s).
Proof.
  revert s. induction evs as [|e evs IH]; intros s Hs; simpl; auto.
  apply IH. now apply handle_event_timer_ok.
Qed.

Lemma frame_timer_ok (evs : list Event) (now : Z) (s : Session) :
  timer_ok s -> timer_ok (frame RAND_MAX stream evs now s).
Proof.
  intros Hs. unfold frame.
  apply simulate_timer_ok; [apply elapsed_between|].
  apply (poll_timer_ok evs) in Hs. exact Hs.
Qed.

Lemma run_timer_ok (inputs : list (list Event * Z)) (s : Session) :
  timer_ok s -> timer_ok (run RAND_MAX stream inputs s).
Proof.
  revert s. induction inputs as [|[evs now] rest IH]; intros s Hs; simpl; auto.
  destruct (running s); auto. apply IH. now apply frame_timer_ok.
Qed.

Lemma init_timer_ok (t0 : Z) : timer_ok (init t0).
Proof.
  split; [apply init_difficulty_ok|].
  split; cbn [init spawnTimer spawnMs];
    [apply between_intro; by_computation | apply Z.ltb_lt; by_computation].
Qed.

(** X4.  At the end of every pass the spawn timer is not negative and
    below the spawn interval, which is at most 1100 ms: time that reaches
    the interval is never carried into the next pass. *)
Theorem spawn_timer_below_interval
  (inputs : list (list Event * Z)) (t0 : Z) :
  let s := run RAND_MAX stream inputs (init t0) in
  (0 <=? spawnTimer s) = true /\ (spawnTimer s <? spawnMs s) = true /\
  (spawnMs s <=? 1100) = true.
Proof.
  intros s.
  destruct (run_timer_ok inputs (init t0) (init_timer_ok t0))
    as ([Hd Hsp] & Ht & Hlt).
  fold s in Hd, Hsp, Ht, Hlt.
  destruct (spawn_interval_wf _ Hd) as [Hw _].
  pose proof (spawn_interval_below _ Hd) as Hhi.
  rewrite <- Hsp in Hw, Hhi.
  destruct (between_leb _ _ _ Ht) as [L1 _].
  split; [exact L1|].
  rewrite ltb_ord, leb_ord
    by (auto; try exact (between_wf _ _ _ Ht); by_computation).
  split; [apply Z.ltb_lt | apply Z.leb_le]; assumption.
Qed.

End Bounds.

(** ** The obstacle array *)

Lemma write_middle (pre : list Obstacle) (c o : Obstacle)
  (post : list Obstacle) :
  write (length pre) o (pre ++ c :: post) = Some (pre ++ o :: post).
Proof.
  induction pre as [|x pre IH]; cbn [length Datatypes.app write];
    [|rewrite IH]; reflexivity.
Qed.

Lemma read_middle (pre : list Obstacle) (c : Obstacle)
  (post : list Obstacle) :
  read (length pre) (pre ++ c :: post) = Some c.
Proof.
  unfold read. induction pre as [|x pre IH];
    cbn [length Datatypes.app nth_error]; auto.
Qed.

(** Outside the array nothing is read and nothing is written. *)
Lemma out_of_bounds (i : nat) (o : Obstacle) (a : list Obstacle) :
  (length a <= i)%nat -> read i a = None /\ write i o a = None.
Proof.
  intros Hi. split; [now apply nth_error_None|].
  revert i Hi. induction a as [|c a IH]; intros i Hi; [reflexivity|].
  destruct i as [|i]; cbn [length] in Hi; [lia|].
  cbn [write]. rewrite IH by lia. reflexivity.
Qed.

Lemma advance_loop_spec (mid pre post : list Obstacle) :
  advance_loop (length mid) (length pre) (pre ++ mid ++ post)
  = Some (pre ++ map advance mid ++ post).
Proof.
  revert pre. induction mid as [|c mid IH]; intros pre;
    cbn [length advance_loop map Datatypes.app]; auto.
  rewrite read_middle. cbn [and_then]. rewrite write_middle. cbn [and_then].
  specialize (IH (pre ++ [advance c])).
  replace (length (pre ++ [advance c])) with (S (length pre)) in IH
    by lengths.
  rewrite <- !app_assoc in IH. exact IH.
Qed.

(** The compaction loop with [wix] cells written, [gap] cells read and
    not kept in their place, and the cells [mid] to go. *)
Lemma compact_loop_spec (mid out gap post : list Obstacle) :
  exists junk,
    compact_loop (length mid) (length (out ++ gap)) (length out)
      (out ++ gap ++ mid ++ post)
    = Some (out ++ filter on_screen mid ++ junk ++ post,
            (length out + length (filter on_screen mid))%nat) /\
    length (filter on_screen mid ++ junk) = length (gap ++ mid).
Proof.
  revert out gap. induction mid as [|c mid IH]; intros out gap.
  - exists gap. cbn [length compact_loop filter Datatypes.app].
    rewrite Nat.add_0_r, !app_nil_r. auto.
  - cbn [length compact_loop filter].
    replace (out ++ gap ++ (c :: mid) ++ post)
      with ((out ++ gap) ++ c :: mid ++ post)
      by (now rewrite <- app_assoc).
    rewrite read_middle. cbn [and_then].
    destruct (on_screen c) eqn:Hc.
    + destruct gap as [|g gap].
      * rewrite app_nil_r. rewrite write_middle. cbn [and_then].
        destruct (IH (out ++ [c]) []) as (junk & E & L).
        rewrite app_nil_r in E.
        replace (length (out ++ [c])) with (S (length out)) in E by lengths.
        rewrite <- !app_assoc in E.
        cbn [Datatypes.app] in E. exists junk. rewrite E.
        split; [do 2 f_equal; cbn [length]; lia | lengths].
      * replace ((out ++ g :: gap) ++ c :: mid ++ post)
          with (out ++ g :: (gap ++ c :: mid ++ post))
          by (now rewrite <- app_assoc).
        rewrite write_middle. cbn [and_then].
        destruct (IH (out ++ [c]) (gap ++ [c])) as (junk & E & L).
        replace (length ((out ++ [c]) ++ gap ++ [c]))
          with (S (length (out ++ g :: gap))) in E by lengths.
        replace (length (out ++ [c])) with (S (length out)) in E by lengths.
        rewrite <- !app_assoc in E.
        cbn [Datatypes.app] in E. exists junk. rewrite E.
        split; [do 2 f_equal; cbn [length]; lia | lengths].
    + destruct (IH out (gap ++ [c])) as (junk & E & L).
      replace (length (out ++ gap ++ [c])) with (S (length (out ++ gap))) in E
        by lengths.
      rewrite <- !app_assoc in E. cbn [Datatypes.app] in E.
      exists junk. rewrite <- app_assoc. rewrite E.
      split; [reflexivity | lengths].
Qed.

Lemma hit_loop_spec (p : float) (mid pre post : list Obstacle) :
  hit_loop (length mid) (length pre) p (pre ++ mid ++ post)
  = Some (existsb (player_hit p) mid).
Proof.
  revert pre. induction mid as [|c mid IH]; intros pre;
    cbn [hit_loop existsb length Datatypes.app]; auto.
  rewrite read_middle. cbn [and_then]. unfold player_hit at 1.
  destruct (hit _ _ _ _ c); [reflexivity|].
  specialize (IH (pre ++ [c])).
  replace (length (pre ++ [c])) with (S (length pre)) in IH by lengths.
  rewrite <- !app_assoc in IH. exact IH.
Qed.

Lemma firstn_skipn_split (n : nat) (a : list Obstacle) :
  (n <= length a)%nat ->
  a = firstn n a ++ skipn n a /\ length (firstn n a) = n.
Proof.
  intros Hn. split; [symmetry; apply firstn_skipn|].
  apply firstn_length_le. exact Hn.
Qed.

Lemma firstn_exact (l rest : list Obstacle) : firstn (length l) (l ++ rest) = l.
Proof.
  rewrite firstn_app, Nat.sub_diag, firstn_O, app_nil_r. apply firstn_all.
Qed.

(** The whole advance and the whole compaction: the live cells, then the
    cells that the loop did not reach. *)
Lemma advance_loop_shape (n : nat) (a : list Obstacle) :
  (n <= length a)%nat ->
  advance_loop n 0 a = Some (map advance (firstn n a) ++ skipn n a).
Proof.
  intros Hn. destruct (firstn_skipn_split n a Hn) as [Ea Ln].
  pose proof (advance_loop_spec (firstn n a) [] (skipn n a)) as Hadv.
  cbn [Datatypes.app length] in Hadv. rewrite Ln, <- Ea in Hadv. exact Hadv.
Qed.

Lemma compact_loop_shape (n : nat) (a : list Obstacle) :
  (n <= length a)%nat ->
  exists junk,
    compact_loop n 0 0 a
    = Some (cull (firstn n a) ++ junk ++ skipn n a,
            length (cull (firstn n a))) /\
    (length (cull (firstn n a)) + length junk = n)%nat.
Proof.
  intros Hn. destruct (firstn_skipn_split n a Hn) as [Ea Ln].
  destruct (compact_loop_spec (firstn n a) [] [] (skipn n a))
    as (junk & E & L).
  cbn [Datatypes.app length] in E. rewrite Ln, <- Ea in E.
  rewrite length_app in L. cbn [Datatypes.app] in L. rewrite Ln in L.
  exists junk. split; [exact E | exact L].
Qed.

(** X10.  The compaction of lines 135 and 136, which copies the
    obstacles to keep towards the start of the array while it reads it,
    makes no access outside the array and leaves in [obs[0 .. wix)]
    exactly the live obstacles that are not yet left of the screen, in
    their order; it changes no cell at or after the old [obsCount], and
    the new [obsCount] is not larger. *)
Theorem compaction_keeps_on_screen (n : nat) (a : list Obstacle) :
  (n <= length a)%nat ->
  exists a' wix,
    compact_loop n 0 0 a = Some (a', wix) /\
    firstn wix a' = cull (firstn n a) /\
    (wix <= n)%nat /\
    length a' = length a /\
    skipn n a' = skipn n a.
Proof.
  intros Hn. destruct (firstn_skipn_split n a Hn) as [Ea Ln].
  destruct (compact_loop_shape n a Hn) as (junk & E & L).
  eexists. eexists. split; [exact E|].
  split; [apply firstn_exact|]. split; [lia|]. split.
  - pose proof (f_equal (@length Obstacle) Ea) as La.
    rewrite length_app in La. rewrite !length_app. lia.
  - rewrite app_assoc.
    rewrite skipn_app, skipn_all2 by (rewrite length_app; lia).
    rewrite length_app, L, Nat.sub_diag. reflexivity.
Qed.

Lemma firstn_write (n : nat) (o : Obstacle) (a : list Obstacle) :
  (n < length a)%nat ->
  exists a', write n o a = Some a' /\
             firstn (S n) a' = firstn n a ++ [o] /\ length a' = length a.
Proof.
  intros Hn. destruct (firstn_skipn_split n a (Nat.lt_le_incl _ _ Hn))
    as [Ea Ln].
  destruct (skipn n a) as [|c post] eqn:Es.
  - rewrite app_nil_r in Ea. rewrite <- Ea in Ln. lia.
  - exists (firstn n a ++ o :: post). split; [|split].
    + rewrite Ea at 1. rewrite <- Ln at 1. apply write_middle.
    + replace (firstn n a ++ o :: post) with ((firstn n a ++ [o]) ++ post)
        by (now rewrite <- app_assoc).
      replace (S n) with (length (firstn n a ++ [o])) by lengths.
      apply firstn_exact.
    + pose proof (f_equal (@length Obstacle) Ea) as La. lengths.
Qed.

Section ArrayStore.

Variable RAND_MAX : Z.
Variable stream : nat -> Z.

(** [addObstacle] on the array writes inside the array, and what it
    leaves in the live cells is what [addObstacle] on the list returns. *)
Lemma addObstacle_array_spec (speed : float) (a : list Obstacle) (n k : nat) :
  length a = 128%nat -> (n <= 128)%nat ->
  exists a' n',
    addObstacle_array RAND_MAX stream speed a n k
    = (Some (a', n'),
       snd (addObstacle RAND_MAX stream speed (firstn n a) k)) /\
    firstn n' a' = fst (addObstacle RAND_MAX stream speed (firstn n a) k) /\
    length a' = 128%nat /\ (n' <= 128)%nat.
Proof.
  intros La Hn. unfold addObstacle_array, addObstacle, obsCount.
  rewrite firstn_length_le by lia.
  destruct (Z.of_nat n >=? 128)%Z eqn:Hfull;
    [exists a, n; cbn [ret fst snd]; auto|].
  assert (Hlt : (n < length a)%nat) by lia.
  unfold bind, rand, ret.
  destruct (of_int (stream k) / of_int RAND_MAX <? 0.55)%f32;
    [|destruct (of_int (stream k) / of_int RAND_MAX <? 0.85)%f32];
    unfold cloud, bird, storm, bind, rand, ret; cbn [fst snd];
    match goal with
    | |- context [write n ?o a] =>
        destruct (firstn_write n o a Hlt) as (a' & -> & Ef & Ll)
    end;
    exists a', (S n); cbn [option_map];
    (split; [reflexivity | split; [exact Ef | split; lia]]).
Qed.

(** X11.  The store code of lines 131 to 138 on the array of 128 cells
    makes no access outside the array, keeps [obsCount] within the 128
    cells and computes what the model on lists does: its live cells are
    the obstacles of the list model after the spawn, the advance and the
    cull, it calls [rand] as often, and the collision loop, which stops at
    the first hit, sets [gameOver] when some live obstacle hits the
    player. *)
Theorem array_code_is_list_model
  (fire : bool) (worldSpeed p : float) (a : list Obstacle) (n k : nat) :
  length a = 128%nat -> (n <= 128)%nat ->
  let spawned :=
    if fire then addObstacle RAND_MAX stream worldSpeed (firstn n a) k
    else (firstn n a, k) in
  exists a' n',
    store_pass RAND_MAX stream fire worldSpeed p a n k
    = Some (a', n', snd spawned, existsb (player_hit p) (firstn n' a')) /\
    length a' = 128%nat /\ (n' <= 128)%nat /\
    firstn n' a' = cull (map advance (fst spawned)).
Proof.
  intros La Hn spawned. unfold store_pass.
  assert (Hsp : exists a1 n1,
    (if fire then addObstacle_array RAND_MAX stream worldSpeed a n k
     else (Some (a, n), k)) = (Some (a1, n1), snd spawned) /\
    firstn n1 a1 = fst spawned /\
    length a1 = 128%nat /\ (n1 <= 128)%nat).
  { subst spawned. destruct fire.
    - apply addObstacle_array_spec; assumption.
    - exists a, n. auto. }
  destruct Hsp as (a1 & n1 & -> & E & L1 & B1).
  rewrite <- E. cbn [and_then].
  assert (Hn1 : (n1 <= length a1)%nat) by lia.
  rewrite (advance_loop_shape n1 a1 Hn1). cbn [and_then].
  set (a2 := map advance (firstn n1 a1) ++ skipn n1 a1).
  destruct (firstn_skipn_split n1 a1 Hn1) as [Ea Ln].
  assert (L2 : length a2 = 128%nat).
  { subst a2. rewrite length_app, length_map, <- length_app, <- Ea.
    exact L1. }
  assert (F2 : firstn n1 a2 = map advance (firstn n1 a1)).
  { subst a2. rewrite <- Ln at 1. rewrite <- (length_map advance).
    apply firstn_exact. }
  assert (Hn2 : (n1 <= length a2)%nat) by lia.
  destruct (compact_loop_shape n1 a2 Hn2) as (junk & Ec & Lc).
  rewrite Ec. cbn [and_then]. rewrite F2 in *.
  set (live := cull (map advance (firstn n1 a1))) in *.
  pose proof (hit_loop_spec p live [] (junk ++ skipn n1 a2)) as Hh.
  cbn [length Datatypes.app] in Hh. rewrite Hh. cbn [and_then].
  exists (live ++ junk ++ skipn n1 a2), (length live).
  rewrite firstn_exact.
  split; [reflexivity|]. split; [|split; [lia | reflexivity]].
  destruct (firstn_skipn_split n1 a2 Hn2) as [Ea2 Ln2].
  pose proof (f_equal (@length Obstacle) Ea2) as La2.
  rewrite length_app in La2. rewrite !length_app. lia.
Qed.

End ArrayStore.

(** ** Rendering *)

(** The integer part of a finite number is the quotient, rounded towards
    zero, of its value by one unit. *)
Lemma trunc_ord (x : float) :
  wf x = true -> trunc x = Z.quot (ord x) (2 ^ 301).
Proof.
  intros Hw. destruct x as [s|s| |s m e]; try discriminate.
  - reflexivity.
  - apply wf_finite, bounded_elim in Hw. destruct Hw as (He & _).
    cbn [trunc ord].
    assert (Hq : (if 0 <=? e then Z.pos m * 2 ^ e else Z.pos m / 2 ^ (- e))
                 = Z.quot (Z.pos m * 2 ^ (e + 301)) (2 ^ 301)).
    { assert (0 < 2 ^ (e + 301)) by (apply Z.pow_pos_nonneg; lia).
      rewrite Z.quot_div_nonneg by lia.
      destruct (0 <=? e) eqn:E; [apply Z.leb_le in E | apply Z.leb_gt in E].
      - rewrite pow2_split, Z.mul_assoc by lia.
        symmetry. apply Z.div_mul. lia.
      - replace (2 ^ 301) with (2 ^ (- e) * 2 ^ (e + 301))
          by (rewrite <- pow2_split by lia; f_equal; lia).
        symmetry. apply Z.div_mul_cancel_r;
          [apply Z.pow_nonzero; lia | lia]. }
    rewrite Hq. destruct s; cbn [cond_Zopp]; [|reflexivity].
    symmetry. apply Z.quot_opp_l. lia.
Qed.

Lemma trunc_mono (x y : float) :
  wf x = true -> wf y = true -> ord x <= ord y -> trunc x <= trunc y.
Proof.
  intros Hx Hy Hle. rewrite !trunc_ord by assumption.
  apply Z.quot_le_mono; lia.
Qed.

(** Between two numbers whose integer parts are [int]s, the integer part
    is an [int], between theirs. *)
Lemma to_int_between (a b x : float) (na nb : Z) :
  to_int a = Some na -> to_int b = Some nb -> between a b x ->
  exists n, to_int x = Some n /\ na <= n <= nb.
Proof.
  unfold to_int. intros Ea Eb (Ha & Hb & Hx & Hlo & Hhi).
  pose proof (trunc_mono a x Ha Hx Hlo) as L1.
  pose proof (trunc_mono x b Hx Hb Hhi) as L2.
  destruct (finite a && (- 2 ^ 31 <=? trunc a) && (trunc a <? 2 ^ 31)) eqn:Ra;
    [|discriminate].
  destruct (finite b && (- 2 ^ 31 <=? trunc b) && (trunc b <? 2 ^ 31)) eqn:Rb;
    [|discriminate].
  injection Ea as <-. injection Eb as <-.
  apply andb_prop in Ra. destruct Ra as [Ra _].
  apply andb_prop in Ra. destruct Ra as [_ Ra]. apply Z.leb_le in Ra.
  apply andb_prop in Rb. destruct Rb as [_ Rb]. apply Z.ltb_lt in Rb.
  assert (Hf : finite x = true)
    by (unfold wf in Hx; apply andb_prop in Hx; tauto).
  rewrite Hf.
  assert (R1 : (- 2 ^ 31 <=? trunc x) = true) by (apply Z.leb_le; lia).
  assert (R2 : (trunc x <? 2 ^ 31) = true) by (apply Z.ltb_lt; lia).
  rewrite R1, R2. exists (trunc x). split; [reflexivity | lia].
Qed.

Lemma to_int_mono (x y : float) (n m : Z) :
  wf x = true -> wf y = true -> ord x <= ord y ->
  to_int x = Some n -> to_int y = Some m -> n <= m.
Proof.
  unfold to_int. intros Hx Hy Hle Ex Ey.
  destruct (_ && _ && _) in Ex; [|discriminate].
  destruct (_ && _ && _) in Ey; [|discriminate].
  injection Ex as <-. injection Ey as <-. now apply trunc_mono.
Qed.

Lemma craft_row (c : float) (p : float) (lo hi : Z) :
  to_int (60 - c)%f32 = Some lo ->
  to_int (of_int (GROUND_Y - 20) - c)%f32 = Some hi ->
  wf c = true -> wf (60 - c)%f32 = true ->
  wf (of_int (GROUND_Y - 20) - c)%f32 = true ->
  between 60%f32 (of_int (GROUND_Y - 20)) p ->
  exists y, to_int (p - c)%f32 = Some y /\ lo <= y <= hi.
Proof.
  intros Elo Ehi Hc Hwlo Hwhi Hp.
  apply (to_int_between (60 - c)%f32 (of_int (GROUND_Y - 20) - c)%f32);
    auto.
  apply sub_between; auto. now apply between_refl.
Qed.

Section Rendering.

Variable RAND_MAX : Z.
Variable stream : nat -> Z.

(** X12.  In every state that the loop reaches the three rectangles of the
    craft are drawn at fixed columns 181, 229 and 213, at rows that the
    conversions to [int] define, and they lie inside the window and above
    the ground line: the body between rows 46 and 454. *)
Theorem craft_is_drawn_inside_window
  (inputs : list (list Event * Z)) (t0 : Z) :
  let s := run RAND_MAX stream inputs (init t0) in
  exists yb yn yw,
    body (py s) = Some (mkRect 181 yb 60 28) /\
    nose (py s) = Some (mkRect 229 yn 20 24) /\
    winr (py s) = Some (mkRect 213 yw 18 12) /\
    46 <= yb <= 426 /\ 48 <= yn <= 428 /\ 54 <= yw <= 434.
Proof.
  intros s.
  destruct (run_player_ok RAND_MAX stream inputs (init t0)
              (init_player_ok t0)) as [_ Hp].
  fold s in Hp.
  destruct (craft_row 14%f32 (py s) 46 426) as (yb & Eb & Bb);
    try by_computation; auto.
  destruct (craft_row 12%f32 (py s) 48 428) as (yn & En & Bn);
    try by_computation; auto.
  destruct (craft_row 6%f32 (py s) 54 434) as (yw & Ew & Bw);
    try by_computation; auto.
  exists yb, yn, yw. unfold body, nose, winr. rewrite Eb, En, Ew.
  repeat split; try lia; by_computation.
Qed.

Lemma bar_between (km : float) :
  between 0%f32 KM_TOTAL km ->
  between (of_int (W - 40) * ((KM_TOTAL - KM_TOTAL) / KM_TOTAL))%f32
          (of_int (W - 40) * ((KM_TOTAL - 0) / KM_TOTAL))%f32
          (of_int (W - 40) * progress km)%f32.
Proof.
  intros Hk. pose proof (progress_between km Hk) as Hp.
  bound1 mul_between_l Hp.
Qed.

Lemma bar_width (km : float) :
  between 0%f32 KM_TOTAL km ->
  exists w, progBar km = Some (mkRect 20 512 w 10) /\ 0 <= w <= 920.
Proof.
  intros Hk. pose proof (bar_between km Hk) as Hb.
  assert (E0 : to_int (of_int (W - 40) * ((KM_TOTAL - KM_TOTAL) / KM_TOTAL))%f32
               = Some 0) by by_computation.
  assert (E1 : to_int (of_int (W - 40) * ((KM_TOTAL - 0) / KM_TOTAL))%f32
               = Some 920) by by_computation.
  destruct (to_int_between _ _ _ _ _ E0 E1 Hb) as (w & Ew & Bw).
  exists w. unfold progBar. cbv zeta. fold (progress km). rewrite Ew.
  split; [reflexivity | exact Bw].
Qed.

(** X13.  In every state that the loop reaches the filled part of the
    progress bar has a width between 0 and the 920 pixels of its track;
    a pass of the loop that handles no restart never makes it shorter;
    and it is the whole track when no distance is left. *)
Theorem progress_bar_stays_on_track
  (inputs : list (list Event * Z)) (t0 : Z) (evs : list Event) (now : Z) :
  ~ In return_key evs ->
  let s := run RAND_MAX stream inputs (init t0) in
  let s' := frame RAND_MAX stream evs now s in
  exists w w',
    progBar (kmLeft s) = Some (mkRect 20 512 w 10) /\
    progBar (kmLeft s') = Some (mkRect 20 512 w' 10) /\
    0 <= w <= w' /\ w' <= r_w track /\
    (victory s' = true -> w' = r_w track).
Proof.
  intros Hin s s'.
  pose proof (run_distance_ok RAND_MAX stream inputs (init t0)
                (init_distance_ok t0)) as Hs.
  fold s in Hs.
  pose proof (frame_distance_ok RAND_MAX stream evs now s Hs) as Hs'.
  fold s' in Hs'.
  destruct Hs as [Hk Hv]. destruct Hs' as [Hk' Hv'].
  destruct (bar_width _ Hk) as (w & Ew & Bw).
  destruct (bar_width _ Hk') as (w' & Ew' & Bw').
  exists w, w'. split; [exact Ew|]. split; [exact Ew'|].
  assert (Hle : ord (kmLeft s') <= ord (kmLeft s))
    by (apply frame_distance_le; [exact Hin | now split]).
  assert (Hmono : w <= w').
  { pose proof (progress_between _ Hk) as Hp.
    pose proof (progress_between _ Hk') as Hp'.
    pose proof (bar_between _ Hk) as Hb.
    pose proof (bar_between _ Hk') as Hb'.
    unfold progBar in Ew, Ew'. cbv zeta in Ew, Ew'.
    fold (progress (kmLeft s)) in Ew. fold (progress (kmLeft s')) in Ew'.
    destruct (to_int (of_int (W - 40) * progress (kmLeft s))%f32)
      as [n|] eqn:En; [|discriminate].
    destruct (to_int (of_int (W - 40) * progress (kmLeft s'))%f32)
      as [n'|] eqn:En'; [|discriminate].
    injection Ew as <-. injection Ew' as <-.
    apply (to_int_mono _ _ _ _ (between_wf _ _ _ Hb) (between_wf _ _ _ Hb'));
      auto.
    apply mul_mono_l;
      [by_computation | exact (between_wf _ _ _ Hp)
       | exact (between_wf _ _ _ Hp') | apply Z.leb_le; by_computation |].
    now apply progress_monotone. }
  change (r_w track) with 920.
  split; [lia|]. split; [lia|].
  intros Hvic. rewrite (Hv' Hvic) in Ew'.
  vm_compute in Ew'. injection Ew' as <-. reflexivity.
Qed.

End Rendering.

(** ** Integers as [float] *)

(** A multiple [n * 2 ^ (- j)] with [n] below [2 ^ 24] is a binary32
    number: rounding leaves it as it is. *)
Lemma ordR_dyadic (n j : Z) :
  0 < n < 2 ^ 24 -> 0 <= j <= 125 ->
  ordR (n * 2 ^ (301 - j)) 1 = n * 2 ^ (301 - j).
Proof.
  intros Hn Hj.
  pose proof (Zdigits2_bounds n ltac:(lia)) as Hd.
  pose proof (Zdigits2_nonneg n) as Hd0.
  set (d := Zdigits2 n) in *.
  assert (Hd1 : 1 <= d <= 24).
  { split.
    - destruct (Z_lt_le_dec d 1); [|lia].
      assert (2 ^ d <= 2 ^ 0) by (apply Z.pow_le_mono_r; lia).
      simpl in *. lia.
    - destruct (Z_lt_le_dec 24 d); [|lia].
      assert (2 ^ 24 <= 2 ^ (d - 1)) by (apply Z.pow_le_mono_r; lia). lia. }
  assert (Hp : 0 < 2 ^ (24 - d)) by (apply Z.pow_pos_nonneg; lia).
  assert (Hm : 2 ^ 23 <= n * 2 ^ (24 - d) < 2 ^ 24).
  { replace (2 ^ 23) with (2 ^ (d - 1) * 2 ^ (24 - d))
      by (rewrite <- pow2_split by lia; f_equal; lia).
    replace (2 ^ 24) with (2 ^ d * 2 ^ (24 - d))
      by (rewrite <- pow2_split by lia; f_equal; lia).
    split; [apply Z.mul_le_mono_nonneg_r | apply Z.mul_lt_mono_pos_r]; lia. }
  destruct (n * 2 ^ (24 - d)) as [|m|m] eqn:Em; try lia.
  assert (Hb : bounded prec emax m (d - 24 - j) = true)
    by (apply bounded_intro; lia).
  pose proof (ordR_id m (d - 24 - j) Hb) as Hid.
  replace (Z.pos m * 2 ^ (d - 24 - j + 301)) with (n * 2 ^ (301 - j)) in Hid;
    [exact Hid|].
  rewrite <- Em, <- Z.mul_assoc, <- pow2_split by lia. f_equal. f_equal. lia.
Qed.

Lemma ordRQ_dyadic (n j : Z) :
  Z.abs n < 2 ^ 24 -> 0 <= j <= 125 ->
  ordRQ (n * 2 ^ (301 - j)) 1 = n * 2 ^ (301 - j).
Proof.
  intros Hn Hj.
  assert (Hu : 0 < 2 ^ (301 - j)) by (apply Z.pow_pos_nonneg; lia).
  destruct (Z.lt_trichotomy n 0) as [L|[E|G]].
  - replace (n * 2 ^ (301 - j)) with (- (- n * 2 ^ (301 - j))) by lia.
    rewrite ordRQ_opp by lia. f_equal.
    unfold ordRQ. destruct (_ <? 0) eqn:E; [apply Z.ltb_lt in E; nia|].
    apply ordR_dyadic; lia.
  - subst n. unfold ordRQ. simpl. now rewrite ordR_0.
  - unfold ordRQ. destruct (_ <? 0) eqn:E; [apply Z.ltb_lt in E; nia|].
    apply ordR_dyadic; lia.
Qed.

Lemma ordRQ_small_int (n : Z) :
  Z.abs n < 2 ^ 24 -> ordRQ (n * 2 ^ 301) 1 = n * 2 ^ 301.
Proof. intros Hn. apply (ordRQ_dyadic n 0); lia. Qed.

(** A result that is an integer below [2 ^ 24] is exact. *)
Lemma is_int_intro (n : Z) (x : float) :
  Z.abs n < 2 ^ 24 ->
  ord x = ordRQ (n * 2 ^ 301) 1 ->
  valid_binary prec emax x = true -> is_nan x = false ->
  is_int n x.
Proof.
  intros Hn Ho Hv Hnan. rewrite ordRQ_small_int in Ho by exact Hn.
  split; [|exact Ho].
  apply (wf_of_bounds x (of_int (- 2 ^ 24)) (of_int (2 ^ 24)));
    auto; try by_computation.
  rewrite Ho.
  change (ord (of_int (- 2 ^ 24))) with (- 2 ^ 24 * 2 ^ 301).
  change (ord (of_int (2 ^ 24))) with (2 ^ 24 * 2 ^ 301).
  assert (Hu : 0 < 2 ^ 301) by (apply Z.pow_pos_nonneg; lia). nia.
Qed.

Lemma of_int_exact (n : Z) : Z.abs n < 2 ^ 24 -> is_int n (of_int n).
Proof.
  intros Hn. destruct (of_int_spec n) as (Ho & Hv & Hnan).
  now apply is_int_intro.
Qed.

Lemma is_int_add (a b : Z) (x y : float) :
  is_int a x -> is_int b y -> Z.abs (a + b) < 2 ^ 24 ->
  is_int (a + b) (x + y)%f32.
Proof.
  intros [Hx Ox] [Hy Oy] Hn. unfold add.
  destruct (add_spec x y Hx Hy) as (Ho & Hv & Hnan).
  apply is_int_intro; auto. rewrite Ho, Ox, Oy. f_equal. ring.
Qed.

Lemma is_int_sub (a b : Z) (x y : float) :
  is_int a x -> is_int b y -> Z.abs (a - b) < 2 ^ 24 ->
  is_int (a - b) (x - y)%f32.
Proof.
  intros [Hx Ox] [Hy Oy] Hn. unfold sub.
  destruct (sub_spec x y Hx Hy) as (Ho & Hv & Hnan).
  apply is_int_intro; auto. rewrite Ho, Ox, Oy. f_equal. ring.
Qed.

Lemma is_int_trunc (n : Z) (x : float) : is_int n x -> trunc x = n.
Proof.
  intros [Hx Ox]. rewrite trunc_ord, Ox by exact Hx.
  apply Z.quot_mul. apply Z.pow_nonzero; lia.
Qed.

Lemma is_int_to_int (n : Z) (x : float) :
  is_int n x -> - 2 ^ 31 <= n < 2 ^ 31 -> to_int x = Some n.
Proof.
  intros Hi Hn. unfold to_int. rewrite (is_int_trunc n x Hi).
  destruct Hi as [Hx _]. unfold wf in Hx. apply andb_prop in Hx.
  destruct Hx as [_ ->].
  assert (R1 : (- 2 ^ 31 <=? n) = true) by (apply Z.leb_le; lia).
  assert (R2 : (n <? 2 ^ 31) = true) by (apply Z.ltb_lt; lia).
  now rewrite R1, R2.
Qed.

Lemma is_int_le (a b : Z) (x y : float) :
  is_int a x -> is_int b y -> a <= b -> ord x <= ord y.
Proof.
  intros [_ ->] [_ ->] Hle. apply Z.mul_le_mono_nonneg_r; [|exact Hle].
  apply Z.pow_nonneg. lia.
Qed.

Lemma is_int_between (a b n : Z) (lo hi x : float) :
  is_int a lo -> is_int b hi -> is_int n x -> a <= n <= b ->
  between lo hi x.
Proof.
  intros Ha Hb Hx Hn.
  pose proof (is_int_le _ _ _ _ Ha Hx (proj1 Hn)).
  pose proof (is_int_le _ _ _ _ Hx Hb (proj2 Hn)).
  destruct Ha, Hb, Hx. repeat split; auto.
Qed.

(** ** What the store holds *)

Lemma worldSpeed_between (d : float) :
  between 1%f32 difficulty_cap d ->
  between baseSpeed (worldSpeed difficulty_cap) (worldSpeed d).
Proof.
  intros Hd. unfold worldSpeed.
  pose proof (between_refl 1.0%f32 eq_refl) as H1.
  eassert (Ha : between _ _ (d - 1.0)%f32) by bound2 sub_between Hd H1.
  eassert (Hb : between _ _ ((d - 1.0) * 0.35)%f32)
    by bound1 mul_between_r Ha.
  eassert (Hc : between _ _ (1.0 + (d - 1.0) * 0.35)%f32)
    by bound2 add_between H1 Hb.
  eassert (He : between _ _ (baseSpeed * (1.0 + (d - 1.0) * 0.35))%f32)
    by bound1 mul_between_l Hc.
  apply (between_weaken _ _ _ _ _ He); by_computation.
Qed.

Lemma kind_speed_between (k speed : float) :
  wf k = true -> (ord 1.0%f32 <=? ord k) = true ->
  (ord k <=? ord 1.35%f32) = true ->
  between baseSpeed (worldSpeed difficulty_cap) speed ->
  between baseSpeed speed_cap (speed * k)%f32.
Proof.
  intros Hk L1 L2 Hs.
  apply Z.leb_le in L1. apply Z.leb_le in L2.
  assert (P1 : 0 < ord 1.0%f32) by (apply Z.ltb_lt; by_computation).
  destruct Hs as (Hlo & Hhi & Hw & Ho1 & Ho2).
  assert (Pb : 0 <= ord baseSpeed) by (apply Z.leb_le; by_computation).
  assert (Hlow : ord baseSpeed <= ord (speed * k)%f32).
  { transitivity (ord (baseSpeed * 1.0)%f32);
      [apply Z.leb_le; by_computation|].
    apply mul_mono; auto; try by_computation; lia. }
  assert (Hupp : ord (speed * k)%f32 <= ord speed_cap).
  { unfold speed_cap. apply mul_mono; auto; try by_computation; lia. }
  repeat split; try by_computation; auto.
  destruct (mul_spec speed k Hw Hk) as (_ & Hv & Hn).
  apply (wf_of_bounds _ baseSpeed speed_cap); auto; by_computation.
Qed.

Section StoreInvariant.

Variable RAND_MAX : Z.
Variable stream : nat -> Z.

(** [rand] returns numbers that are not negative. *)
Hypothesis stream_nonneg : forall i, 0 <= stream i.

Lemma draw_range (i : nat) (m : Z) : 0 < m -> 0 <= Z.rem (stream i) m < m.
Proof. intros Hm. apply Z.rem_bound_pos; auto. Qed.

(** The obstacle that [addObstacle] appends: its column is an integer
    between 1000 and 1119. *)
Lemma addObstacle_ok (speed : float) (store : list Obstacle) (k : nat) :
  between baseSpeed (worldSpeed difficulty_cap) speed ->
  obsCount store < 128 ->
  exists o k',
    addObstacle RAND_MAX stream speed store k = (store ++ [o], k') /\
    obstacle_ok o /\
    exists n, 1000 <= n <= 1119 /\ is_int n (o_x o).
Proof.
  intros Hs Hlt. unfold addObstacle.
  destruct (obsCount store >=? 128) eqn:Hfull; [lia|].
  unfold bind, rand, ret.
  assert (Hx : forall j, is_int (1000 + Z.rem (stream j) 120)
                 (of_int W + 40.0 + of_int (Z.rem (stream j) 120))%f32).
  { intros j. pose proof (draw_range j 120 eq_refl).
    apply is_int_add; [split; by_computation | apply of_int_exact | ]; lia. }
  assert (Ilo : is_int (-179) (- 179)%f32) by (split; by_computation).
  assert (Ihi : is_int 1119 1119%f32) by (split; by_computation).
  assert (Hxb : forall j x, is_int (1000 + Z.rem (stream j) 120) x ->
                 between (- 179)%f32 1119%f32 x).
  { intros j x Hi. pose proof (draw_range j 120 eq_refl).
    apply (is_int_between (-179) 1119 _ _ _ _ Ilo Ihi Hi). lia. }
  assert (I44 : is_int 44 44%f32) by (split; by_computation).
  assert (I28 : is_int 28 28%f32) by (split; by_computation).
  assert (I50 : is_int 50 50%f32) by (split; by_computation).
  assert (I40 : is_int 40 40%f32) by (split; by_computation).
  pose proof (kind_speed_between 1.0%f32 speed eq_refl eq_refl eq_refl Hs)
    as S0.
  pose proof (kind_speed_between 1.35%f32 speed eq_refl eq_refl eq_refl Hs)
    as S1.
  pose proof (kind_speed_between 1.1%f32 speed eq_refl eq_refl eq_refl Hs)
    as S2.
  destruct (of_int (stream k) / of_int RAND_MAX <? 0.55)%f32;
    [|destruct (of_int (stream k) / of_int RAND_MAX <? 0.85)%f32];
    unfold cloud, bird, storm, bind, rand, ret;
    eexists; eexists; (split; [reflexivity|]);
    (split; [|eexists; split; [|apply Hx]; 
              match goal with |- context [stream ?j] =>
                pose proof (draw_range j 120 eq_refl) end; lia]);
    unfold obstacle_ok; cbn [o_type o_w o_h o_y o_speed o_x];
    (split; [auto|]); (split; [|split; [assumption | eapply Hxb, Hx]]).
  - pose proof (draw_range (S k) 80 eq_refl).
    pose proof (draw_range (S (S k)) 30 eq_refl).
    pose proof (draw_range (S (S (S k))) 240 eq_refl).
    exists (90 + Z.rem (stream (S k)) 80),
      (50 + Z.rem (stream (S (S k))) 30),
      (60 + Z.rem (stream (S (S (S k)))) 240).
    unfold GROUND_Y.
    repeat split; try apply of_int_exact; lia.
  - pose proof (draw_range (S k) 260 eq_refl).
    exists 44, 28, (100 + Z.rem (stream (S k)) 260).
    unfold GROUND_Y.
    repeat split; try apply of_int_exact; try apply I44; try apply I28; lia.
  - pose proof (draw_range (S k) 120 eq_refl).
    destruct (Z.rem (stream (S (S k))) 2 =? 0).
    + exists 50, (120 + Z.rem (stream (S k)) 120), 40.
      unfold GROUND_Y.
      repeat split; try apply of_int_exact; try apply I50; try apply I40;
        lia.
    + exists 50, (120 + Z.rem (stream (S k)) 120),
        (460 - (120 + Z.rem (stream (S k)) 120)).
      unfold GROUND_Y.
      split; [exact I50|]. split; [apply of_int_exact; lia|].
      split; [apply is_int_sub; try apply of_int_exact; lia | lia].
Qed.

(** An obstacle that the advance leaves on the screen. *)
Lemma advance_ok (o : Obstacle) :
  obstacle_ok o -> on_screen (advance o) = true ->
  obstacle_ok (advance o) /\ (ord (o_x (advance o)) <= ord (o_x o)).
Proof.
  intros (Hk & (w & h & y & Iw & Ih & Iy & R) & Hs & Hx) Hon.
  unfold on_screen in Hon. unfold obstacle_ok.
  cbn [advance o_type o_w o_h o_y o_speed o_x] in *.
  assert (I44 : is_int 44 44%f32) by (split; by_computation).
  assert (I169 : is_int 169 169%f32) by (split; by_computation).
  assert (Hw : between 44%f32 169%f32 (o_w o))
    by (apply (is_int_between 44 169 w _ _ _ I44 I169 Iw); lia).
  eassert (Hm : between _ _ (o_speed o * 3.2)%f32)
    by bound1 mul_between_r Hs.
  eassert (Hx' : between _ _ (o_x o - o_speed o * 3.2)%f32)
    by bound2 sub_between Hx Hm.
  eassert (Hsum : between _ _ (o_x o - o_speed o * 3.2 + o_w o)%f32)
    by bound2 add_between Hx' Hw.
  rewrite gtb_ord in Hon
    by (try exact (between_wf _ _ _ Hsum); by_computation).
  apply Z.ltb_lt in Hon.
  assert (Hle : ord (o_x o - o_speed o * 3.2)%f32 <= ord (o_x o)).
  { apply sub_nonneg_le;
      [exact (between_wf _ _ _ Hx) | exact (between_wf _ _ _ Hm) |].
    destruct Hm as (_ & _ & _ & Hlo & _).
    assert (0 <= ord (baseSpeed * 3.2)%f32)
      by (apply Z.leb_le; by_computation).
    lia. }
  split; [|exact Hle].
  split; [exact Hk|]. split; [exists w, h, y; auto|]. split; [exact Hs|].
  pose proof (between_wf _ _ _ Hx') as Hwx.
  destruct Hx as (Wlo & Whi & _ & _ & Hup).
  repeat split; auto; [|lia].
  destruct (Z_lt_le_dec (ord (o_x o - o_speed o * 3.2)%f32)
              (ord (- 179)%f32)) as [Hlt|]; [|assumption].
  exfalso.
  assert (ord (o_x o - o_speed o * 3.2 + o_w o)%f32
          <= ord (- 179 + 169)%f32).
  { destruct Hw as (_ & W169 & Ww & _ & Hw169).
    apply add_mono; auto; lia. }
  assert (ord (- 179 + 169)%f32 = ord (-10)%f32) by by_computation.
  lia.
Qed.

Lemma cull_advance_ok (store : list Obstacle) :
  Forall obstacle_ok store -> Forall obstacle_ok (cull (map advance store)).
Proof.
  intros Hall. apply Forall_forall. intros o' Hin.
  unfold cull in Hin. apply filter_In in Hin. destruct Hin as [Hin Hon].
  apply in_map_iff in Hin. destruct Hin as (o & <- & Hin).
  rewrite Forall_forall in Hall. now apply advance_ok; auto.
Qed.

(** The advance moves an obstacle of the store left by 13 at least. *)
Lemma advance_step (o : Obstacle) (B : Z) :
  obstacle_ok o -> ord (o_x o) <= B * 2 ^ 301 ->
  ord (o_x (advance o)) <= (B - 13) * 2 ^ 301.
Proof.
  intros (_ & _ & Hs & Hx) HB. cbn [advance o_x].
  assert (Hu : 0 < 2 ^ 301) by (apply Z.pow_pos_nonneg; lia).
  eassert (Hm : between _ _ (o_speed o * 3.2)%f32)
    by bound1 mul_between_r Hs.
  destruct Hm as (_ & _ & Hwm & Hlo & _).
  assert (H13 : 13 * 2 ^ 301 <= ord (baseSpeed * 3.2)%f32)
    by (apply Z.leb_le; by_computation).
  destruct Hx as (_ & _ & Hwx & Hxlo & Hxhi).
  assert (E179 : ord (- 179)%f32 = -179 * 2 ^ 301) by by_computation.
  assert (E1119 : ord 1119%f32 = 1119 * 2 ^ 301) by by_computation.
  set (B' := Z.min B 1119).
  assert (HB' : ord (o_x o) <= B' * 2 ^ 301)
    by (unfold B'; destruct (Z.min_spec B 1119) as [[_ ->]|[_ ->]]; lia).
  assert (Hr : -179 <= B' <= 1119) by (unfold B'; nia).
  unfold sub. destruct (sub_spec (o_x o) (o_speed o * 3.2)%f32 Hwx Hwm)
    as (-> & _).
  transitivity ((B' - 13) * 2 ^ 301); [|unfold B'; nia].
  rewrite <- (ordRQ_small_int (B' - 13)) by lia.
  apply ordRQ_mono; lia.
Qed.

Lemma aged_weaken (k k' : Z) (store : list Obstacle) :
  k' <= k -> aged k store -> aged k' store.
Proof.
  intros Hk. induction store as [|o rest IH]; cbn [aged]; auto.
  intros [Ho Hr]. split; [|auto].
  etransitivity; [exact Ho|].
  apply Z.mul_le_mono_nonneg_r; [apply Z.pow_nonneg|]; lia.
Qed.

Lemma aged_spawn (store : list Obstacle) (o : Obstacle) :
  aged 1 store -> ord (o_x o) <= 1119 * 2 ^ 301 -> aged 0 (store ++ [o]).
Proof.
  intros Hs Ho. induction store as [|c rest IH]; cbn [aged Datatypes.app].
  - split; [|exact I]. exact Ho.
  - destruct Hs as [Hc Hr]. split; [|auto].
    unfold obsCount in *. rewrite length_app. cbn [length].
    replace (0 + Z.of_nat (length rest + 1)) with (1 + Z.of_nat (length rest))
      by lia.
    exact Hc.
Qed.

Lemma aged_advance (store : list Obstacle) :
  Forall obstacle_ok store -> aged 0 store -> aged 1 (map advance store).
Proof.
  induction store as [|o rest IH]; cbn [aged map]; auto.
  intros Hall [Ho Hr]. inversion Hall as [|? ? Hok Hrest]; subst.
  split; [|auto].
  unfold obsCount in *. rewrite length_map.
  replace (1119 - 13 * (1 + Z.of_nat (length rest)))
    with (1119 - 13 * (0 + Z.of_nat (length rest)) - 13) by lia.
  now apply advance_step.
Qed.

Lemma aged_filter (f : Obstacle -> bool) (k : Z) (store : list Obstacle) :
  aged k store -> aged k (filter f store).
Proof.
  induction store as [|o rest IH]; cbn [aged filter]; auto.
  intros [Ho Hr]. destruct (f o); cbn [aged]; auto.
  split; [|auto].
  pose proof (filter_length_le f rest). unfold obsCount in *.
  etransitivity; [exact Ho|].
  apply Z.mul_le_mono_nonneg_r; [apply Z.pow_nonneg|]; lia.
Qed.

(** A store in which the oldest obstacle is still on the screen holds 99
    obstacles at most. *)
Lemma aged_count (store : list Obstacle) :
  Forall obstacle_ok store -> aged 1 store -> obsCount store <= 99.
Proof.
  destruct store as [|o rest]; [unfold obsCount; cbn [length]; lia|].
  intros Hall [Ho _]. inversion Hall as [|? ? Hok _]; subst.
  destruct Hok as (_ & _ & _ & (_ & _ & _ & Hlo & _)).
  assert (E179 : ord (- 179)%f32 = -179 * 2 ^ 301) by by_computation.
  assert (Hu : 0 < 2 ^ 301) by (apply Z.pow_pos_nonneg; lia).
  unfold obsCount in *. cbn [length].
  assert (Hc : -179 * 2 ^ 301
               <= (1119 - 13 * (1 + Z.of_nat (length rest))) * 2 ^ 301)
    by lia.
  apply Z.mul_le_mono_pos_r in Hc; lia.
Qed.

Lemma update_store_ok (dtms dt dts : float) (s : Session) :
  between 0%f32 dtms_max dtms -> store_ok s ->
  Forall obstacle_ok (obs (update RAND_MAX stream dtms dt dts s)) /\
  aged 1 (obs (update RAND_MAX stream dtms dt dts s)).
Proof.
  intros Hd ([Hdiff _] & Hall & Hage). unfold update; cbn [obs].
  match goal with
  | |- context [cull (map advance ?l)] =>
      assert (Hsp : Forall obstacle_ok l /\ aged 0 l)
  end.
  { match goal with |- context [if ?b then _ else _] => destruct b end;
      [|split; [exact Hall | now apply (aged_weaken 1)]].
    destruct (difficulty_step dtms _ Hd Hdiff) as [Hb _].
    pose proof (worldSpeed_between _ Hb) as Hws. unfold worldSpeed in Hws.
    destruct (addObstacle_cases RAND_MAX stream
                (baseSpeed
                 * (1.0 + (difficulty s + 0.00045 * dtms - 1.0) * 0.35))%f32
                (obs s) (calls s))
      as [[_ ->]|[Hlt _]];
      [split; [exact Hall | now apply (aged_weaken 1)]|].
    destruct (addObstacle_ok _ (obs s) (calls s) Hws Hlt)
      as (o & k' & -> & Hok & n & Hn & _ & Hon).
    cbn [fst]. split.
    - apply Forall_app. split; [exact Hall|]. now constructor.
    - apply aged_spawn; [exact Hage|]. rewrite Hon.
      apply Z.mul_le_mono_nonneg_r; [apply Z.pow_nonneg|]; lia. }
  destruct Hsp as [Hall1 Hage1]. split.
  - now apply cull_advance_ok.
  - unfold cull. apply aged_filter. now apply aged_advance.
Qed.

Lemma simulate_store_ok (dtms : float) (s : Session) :
  between 0%f32 dtms_max dtms -> store_ok s ->
  store_ok (simulate RAND_MAX stream dtms s).
Proof.
  intros Hd Hs.
  split; [apply simulate_difficulty_ok; [exact Hd | exact (proj1 Hs)]|].
  unfold simulate.
  destruct (negb (gameOver s) && negb (victory s)); [|exact (proj2 Hs)].
  now apply update_store_ok.
Qed.

Lemma handle_event_store_ok (s : Session) (e : Event) :
  store_ok s -> store_ok (handle_event s e).
Proof.
  intros Hs.
  assert (Hr : store_ok (restart s)).
  { split; [apply restart_difficulty_ok|]. split; [constructor | exact I]. }
  destruct e as [ |k|k| | | ]; simpl; auto.
  - destruct k; simpl; auto.
    destruct (gameOver s || victory s); auto.
  - destruct (is_thrust_key k); auto.
Qed.

Lemma poll_store_ok (evs : list Event) (s : Session) :
  store_ok s -> store_ok (fold_left handle_event evs s).
Proof.
  revert s. induction evs as [|e evs IH]; intros s Hs; simpl; auto.
  apply IH. now apply handle_event_store_ok.
Qed.

Lemma frame_store_ok (evs : list Event) (now : Z) (s : Session) :
  store_ok s -> store_ok (frame RAND_MAX stream evs now s).
Proof.
  intros Hs. unfold frame.
  apply simulate_store_ok; [apply elapsed_between|].
  apply (poll_store_ok evs) in Hs. exact Hs.
Qed.

Lemma run_store_ok (inputs : list (list Event * Z)) (s : Session) :
  store_ok s -> store_ok (run RAND_MAX stream inputs s).
Proof.
  revert s. induction inputs as [|[evs now] rest IH]; intros s Hs; simpl; auto.
  destruct (running s); auto. apply IH. now apply frame_store_ok.
Qed.

Lemma init_store_ok (t0 : Z) : store_ok (init t0).
Proof.
  split; [apply init_difficulty_ok|]. split; [constructor | exact I].
Qed.

End StoreInvariant.

Lemma obstacle_ok_bounds (o : Obstacle) :
  obstacle_ok o ->
  (40 <=? o_y o)%f32 = true /\
  (o_y o + o_h o <=? of_int GROUND_Y)%f32 = true /\
  (44 <=? o_w o)%f32 = true /\ (o_w o <=? 169)%f32 = true /\
  (28 <=? o_h o)%f32 = true /\ (o_h o <=? 239)%f32 = true /\
  (- 179 <=? o_x o)%f32 = true /\ (o_x o <=? 1119)%f32 = true /\
  (baseSpeed <=? o_speed o)%f32 = true /\ (o_speed o <=? speed_cap)%f32 = true.
Proof.
  intros (_ & (w & h & y & Iw & Ih & Iy & Rw & Rh & Ry & Rg) & Hs & Hx).
  unfold GROUND_Y in *.
  assert (I40 : is_int 40 40%f32) by (split; by_computation).
  assert (I44 : is_int 44 44%f32) by (split; by_computation).
  assert (I169 : is_int 169 169%f32) by (split; by_computation).
  assert (I28 : is_int 28 28%f32) by (split; by_computation).
  assert (I239 : is_int 239 239%f32) by (split; by_computation).
  assert (I460 : is_int 460 (of_int 460)) by (split; by_computation).
  assert (Iyh : is_int (y + h) (o_y o + o_h o)%f32)
    by (apply is_int_add; auto; lia).
  destruct (between_leb _ _ _ Hs) as [S1 S2].
  destruct (between_leb _ _ _ Hx) as [X1 X2].
  repeat split; auto;
    match goal with
    | |- (?a <=? ?b)%f32 = true =>
        rewrite leb_ord
          by (first [apply I40 | apply I44 | apply I169 | apply I28
                    | apply I239 | apply I460 | apply Iw | apply Ih
                    | apply Iy | apply Iyh]);
        apply Z.leb_le; eapply is_int_le; eauto; lia
    end.
Qed.

Lemma obstacle_ok_box (o : Obstacle) :
  obstacle_ok o ->
  exists r, box o = Some r /\
    -179 <= r_x r <= 1119 /\ 40 <= r_y r /\ r_y r + r_h r <= GROUND_Y /\
    44 <= r_w r <= 169 /\ 28 <= r_h r <= 239.
Proof.
  intros (_ & (w & h & y & Iw & Ih & Iy & Rw & Rh & Ry & Rg) & _ & Hx).
  unfold GROUND_Y in *.
  assert (Elo : to_int (- 179)%f32 = Some (-179)) by by_computation.
  assert (Ehi : to_int 1119%f32 = Some 1119) by by_computation.
  destruct (to_int_between _ _ _ _ _ Elo Ehi Hx) as (x & Ex & Rx).
  exists (mkRect x y w h). unfold box.
  rewrite Ex, (is_int_to_int _ _ Iw), (is_int_to_int _ _ Ih),
    (is_int_to_int _ _ Iy) by lia.
  cbn [rect r_x r_y r_w r_h]. repeat split; lia.
Qed.

Section StoreProperties.

Variable RAND_MAX : Z.
Variable stream : nat -> Z.

(** X14.  With a [rand] that returns no negative number, the store never
    holds more than 99 obstacles: a tick spawns one obstacle at most and
    moves every obstacle left by 13 at least, so that the oldest has left
    the screen before a hundredth is spawned.  [addObstacle] therefore
    never finds the store full in a state that the loop reaches. *)
Theorem store_is_never_full
  (inputs : list (list Event * Z)) (t0 : Z) (speed : float) (k : nat) :
  (forall i, 0 <= stream i) ->
  let s := run RAND_MAX stream inputs (init t0) in
  obsCount (obs s) <= 99 /\
  exists o k',
    addObstacle RAND_MAX stream speed (obs s) k = (obs s ++ [o], k').
Proof.
  intros Hpos s.
  destruct (run_store_ok RAND_MAX stream Hpos inputs (init t0)
              (init_store_ok t0)) as (_ & Hall & Hage).
  fold s in Hall, Hage.
  pose proof (aged_count _ Hall Hage) as Hc.
  split; [exact Hc|].
  destruct (addObstacle_cases RAND_MAX stream speed (obs s) k)
    as [[Hfull _]|[_ Hadd]]; [lia | exact Hadd].
Qed.

(** X15.  With a [rand] that returns no negative number, every obstacle
    of the store is of one of the three kinds, lies between the row 40
    and the ground line, is between 44 and 169 wide and between 28 and
    239 high, has its left edge between -179 and 1119, and is at least as
    fast as [baseSpeed]. *)
Theorem obstacles_stay_in_their_band
  (inputs : list (list Event * Z)) (t0 : Z) (o : Obstacle) :
  (forall i, 0 <= stream i) ->
  In o (obs (run RAND_MAX stream inputs (init t0))) ->
  (o_type o = 0 \/ o_type o = 1 \/ o_type o = 2) /\
  (40 <=? o_y o)%f32 = true /\
  (o_y o + o_h o <=? of_int GROUND_Y)%f32 = true /\
  (44 <=? o_w o)%f32 = true /\ (o_w o <=? 169)%f32 = true /\
  (28 <=? o_h o)%f32 = true /\ (o_h o <=? 239)%f32 = true /\
  (- 179 <=? o_x o)%f32 = true /\ (o_x o <=? 1119)%f32 = true /\
  (baseSpeed <=? o_speed o)%f32 = true.
Proof.
  intros Hpos Hin.
  destruct (run_store_ok RAND_MAX stream Hpos inputs (init t0)
              (init_store_ok t0)) as (_ & Hall & _).
  rewrite Forall_forall in Hall. specialize (Hall o Hin).
  split; [exact (proj1 Hall)|].
  pose proof (obstacle_ok_bounds o Hall). tauto.
Qed.

(** X16.  With a [rand] that returns no negative number, the rectangle
    drawn for an obstacle of the store is defined (every conversion to
    [int] is of a number in range), and it lies between the row 40 and the
    ground line, with its left edge between -179 and 1119. *)
Theorem obstacles_are_drawn_above_ground
  (inputs : list (list Event * Z)) (t0 : Z) (o : Obstacle) :
  (forall i, 0 <= stream i) ->
  In o (obs (run RAND_MAX stream inputs (init t0))) ->
  exists r, box o = Some r /\
    -179 <= r_x r <= 1119 /\ 40 <= r_y r /\ r_y r + r_h r <= GROUND_Y /\
    44 <= r_w r <= 169 /\ 28 <= r_h r <= 239.
Proof.
  intros Hpos Hin.
  destruct (run_store_ok RAND_MAX stream Hpos inputs (init t0)
              (init_store_ok t0)) as (_ & Hall & _).
  rewrite Forall_forall in Hall. now apply obstacle_ok_box, Hall.
Qed.

(** X17.  With a [rand] that returns no negative number, an obstacle that
    is in the store after a tick of an Active session was in the store
    before it, or was spawned in it at a column from 1000 to 1119; the
    tick moved it left by 13 at least and changed nothing else of it. *)
Theorem obstacles_move_left
  (inputs : list (list Event * Z)) (t0 : Z) (n : Z) (o' : Obstacle) :
  (forall i, 0 <= stream i) -> 0 <= n < 2 ^ 32 ->
  let s := run RAND_MAX stream inputs (init t0) in
  state s = Active ->
  In o' (obs (simulate RAND_MAX stream (of_int n) s)) ->
  exists o,
    (In o (obs s) \/
     (1000 <=? o_x o)%f32 = true /\ (o_x o <=? 1119)%f32 = true) /\
    o' = advance o /\
    o_y o' = o_y o /\ o_w o' = o_w o /\ o_h o' = o_h o /\
    o_speed o' = o_speed o /\ o_type o' = o_type o /\
    (o_x o' <=? o_x o - 13)%f32 = true.
Proof.
  intros Hpos Hn s Hact Hin.
  destruct (run_store_ok RAND_MAX stream Hpos inputs (init t0)
              (init_store_ok t0)) as ([Hdiff _] & Hall & _).
  fold s in Hdiff, Hall.
  assert (Hd : between 0%f32 dtms_max (of_int n))
    by (apply (of_int_between 0 (2 ^ 32 - 1));
        [by_computation | by_computation | lia]).
  rewrite (simulate_active _ _ _ _ Hact) in Hin.
  unfold update in Hin; cbn [obs] in Hin.
  unfold cull in Hin. apply filter_In in Hin. destruct Hin as [Hin Hon].
  apply in_map_iff in Hin. destruct Hin as (o & <- & Hin).
  assert (Ho : obstacle_ok o /\
               (In o (obs s) \/
                (1000 <=? o_x o)%f32 = true /\ (o_x o <=? 1119)%f32 = true)).
  { revert Hin.
    match goal with |- context [if ?b then _ else _] => destruct b end;
      [|rewrite Forall_forall in Hall; intros Hin; split; auto].
    destruct (difficulty_step (of_int n) _ Hd Hdiff) as [Hb _].
    pose proof (worldSpeed_between _ Hb) as Hws. unfold worldSpeed in Hws.
    match goal with
    | |- context [addObstacle _ _ ?w ?st ?k] =>
        destruct (addObstacle_cases RAND_MAX stream w st k)
          as [[_ ->]|[Hlt _]];
        [rewrite Forall_forall in Hall; intros Hin; split; auto|];
        destruct (addObstacle_ok RAND_MAX stream Hpos w st k Hws Hlt)
          as (onew & k' & -> & Hok & m & Hm & Him)
    end.
    cbn [fst]. intros Hin. apply in_app_or in Hin.
    destruct Hin as [Hin|[<-|[]]].
    - rewrite Forall_forall in Hall. split; auto.
    - split; [exact Hok|]. right.
      assert (I1000 : is_int 1000 1000%f32) by (split; by_computation).
      assert (I1119 : is_int 1119 1119%f32) by (split; by_computation).
      rewrite !leb_ord
        by (first [apply I1000 | apply I1119 | apply Him]).
      split; apply Z.leb_le; eapply is_int_le; eauto; lia. }
  destruct Ho as [Hok Hfrom].
  exists o. split; [exact Hfrom|]. split; [reflexivity|].
  cbn [advance o_y o_w o_h o_speed o_type o_x]. repeat split.
  destruct Hok as (_ & _ & Hs & Hx).
  eassert (Hm : between _ _ (o_speed o * 3.2)%f32)
    by bound1 mul_between_r Hs.
  pose proof (between_refl 13%f32 eq_refl) as H13.
  eassert (H1 : between _ _ (o_x o - o_speed o * 3.2)%f32)
    by bound2 sub_between Hx Hm.
  eassert (H2 : between _ _ (o_x o - 13)%f32)
    by bound2 sub_between Hx H13.
  rewrite leb_ord
    by (try exact (between_wf _ _ _ H1); exact (between_wf _ _ _ H2)).
  apply Z.leb_le. apply sub_mono;
    try exact (between_wf _ _ _ Hx); try exact (between_wf _ _ _ Hm);
    try reflexivity; try by_computation.
  destruct Hm as (_ & _ & _ & Hlo & _).
  assert (ord 13%f32 <= ord (baseSpeed * 3.2)%f32)
    by (apply Z.leb_le; by_computation).
  lia.
Qed.

End StoreProperties.

(** ** The kind of a spawned obstacle *)

(** [r < c] is decided by the draw: it holds up to [t - 1] and fails from
    [t] on. *)
Lemma draw_threshold (c : float) (t r0 : Z) :
  wf c = true -> 0 < t <= RAND_MAX_emscripten ->
  wf (of_int 0 / of_int RAND_MAX_emscripten)%f32 = true ->
  wf (of_int (t - 1) / of_int RAND_MAX_emscripten)%f32 = true ->
  wf (of_int t / of_int RAND_MAX_emscripten)%f32 = true ->
  wf (of_int RAND_MAX_emscripten / of_int RAND_MAX_emscripten)%f32 = true ->
  (ord (of_int (t - 1) / of_int RAND_MAX_emscripten)%f32 <? ord c) = true ->
  (ord c <=? ord (of_int t / of_int RAND_MAX_emscripten)%f32) = true ->
  0 <= r0 <= RAND_MAX_emscripten ->
  (of_int r0 / of_int RAND_MAX_emscripten <? c)%f32 = (r0 <? t).
Proof.
  intros Hc Ht W0 W1 W2 W3 L1 L2 Hr.
  apply Z.ltb_lt in L1. apply Z.leb_le in L2.
  assert (Hk : wf (of_int RAND_MAX_emscripten) = true) by by_computation.
  assert (Pk : (0 <? ord (of_int RAND_MAX_emscripten)) = true)
    by by_computation.
  destruct (r0 <? t) eqn:E; [apply Z.ltb_lt in E | apply Z.ltb_ge in E].
  - assert (Hb : between (of_int 0) (of_int (t - 1)) (of_int r0)).
    { apply of_int_between; [by_computation | | lia].
      destruct (of_int_between 0 RAND_MAX_emscripten (t - 1));
        [by_computation | by_computation | lia | tauto]. }
    pose proof (div_between _ _ _ _ Hk Pk W0 W1 Hb) as (_ & _ & Hw & _ & Hle).
    rewrite ltb_ord by assumption. apply Z.ltb_lt. lia.
  - assert (Hb : between (of_int t) (of_int RAND_MAX_emscripten) (of_int r0)).
    { apply of_int_between; [ | by_computation | lia].
      destruct (of_int_between 0 RAND_MAX_emscripten t);
        [by_computation | by_computation | lia | tauto]. }
    pose proof (div_between _ _ _ _ Hk Pk W2 W3 Hb) as (_ & _ & Hw & Hle & _).
    rewrite ltb_ord by assumption. apply Z.ltb_ge. lia.
Qed.

(** X18.  With [RAND_MAX = 2 ^ 31 - 1] the first draw alone decides the
    kind of a spawned obstacle: a cloud for the 1181115969 draws below
    [cloud_draws], a bird for the draws from there to below [bird_draws],
    a storm column for the others.  A cloud takes five calls of [rand], a
    bird three, a storm column four, and the speed is the world speed
    times 1.0, 1.35 or 1.1. *)
Theorem kind_is_decided_by_first_draw
  (stream : nat -> Z) (speed : float) (store : list Obstacle) (k : nat) :
  0 <= stream k <= RAND_MAX_emscripten -> obsCount store < 128 ->
  exists o,
    addObstacle RAND_MAX_emscripten stream speed store k
    = (store ++ [o], (k + calls_of_kind (o_type o))%nat) /\
    o_type o = kind_of_draw (stream k) /\
    o_speed o = (speed * speed_of_kind (o_type o))%f32.
Proof.
  intros Hr Hlt. unfold addObstacle.
  destruct (obsCount store >=? 128) eqn:Hfull; [lia|].
  unfold bind, rand, ret, kind_of_draw.
  rewrite (draw_threshold 0.55%f32 cloud_draws) by first [exact Hr | by_computation
             | unfold cloud_draws, bird_draws, RAND_MAX_emscripten; lia].
  rewrite (draw_threshold 0.85%f32 bird_draws) by first [exact Hr | by_computation
             | unfold cloud_draws, bird_draws, RAND_MAX_emscripten; lia].
  destruct (stream k <? cloud_draws);
    [|destruct (stream k <? bird_draws)];
    unfold cloud, bird, storm, bind, rand, ret;
    eexists;
    (split;
     [apply f_equal2;
      [reflexivity | unfold calls_of_kind; simpl; lia]
     | split; reflexivity]).
Qed.

Lemma below_by_cases (P : Z -> bool) (n : nat) :
  forallb P (map Z.of_nat (seq 0 n)) = true ->
  forall i, 0 <= i < Z.of_nat n -> P i = true.
Proof.
  intros Hall i Hi. rewrite forallb_forall in Hall. apply Hall.
  apply in_map_iff. exists (Z.to_nat i). split; [lia|].
  apply in_seq. lia.
Qed.

(** X19.  The 80 stars of the backdrop, each drawn as two points side by
    side, are inside the window and above the ground line; the 40 points
    of the victory scene are inside the window whatever the tick counter
    reads. *)
Theorem decorations_stay_in_window (ticks i : Z) :
  (0 <= i < 80 ->
   0 <= fst (star i) /\ fst (star i) + 1 < W /\
   20 <= snd (star i) < GROUND_Y) /\
  (0 <= i < 40 ->
   0 <= fst (confetti ticks i) < W /\ 40 <= snd (confetti ticks i) < H).
Proof.
  split; intros Hi.
  - pose proof (below_by_cases star_in_window 80 eq_refl i Hi) as Hs.
    unfold star_in_window in Hs. apply andb_prop in Hs.
    destruct Hs as [H1 H2]. apply Z.leb_le in H1. apply Z.ltb_lt in H2.
    split; [exact H1|]. split; [exact H2|].
    unfold star, GROUND_Y, H. cbn [snd].
    pose proof (Z.rem_bound_pos (i * 53) (540 - 160) ltac:(lia) ltac:(lia)).
    lia.
  - unfold confetti, W, H. cbn [fst snd].
    assert (0 <= u32 ticks) by (unfold u32; apply Z.mod_pos_bound; lia).
    assert (0 <= Z.quot (u32 ticks) 30) by (apply Z.quot_pos; lia).
    pose proof (Z.rem_bound_pos (i * 137 + Z.quot (u32 ticks) 30) 960
                  ltac:(lia) ltac:(lia)).
    pose proof (Z.rem_bound_pos (i * 71) (540 - 200) ltac:(lia) ltac:(lia)).
    lia.
Qed.

Section Avoid.

Variable RAND_MAX : Z.
Variable stream : nat -> Z.

Lemma obstacle_ok_avoidable (o : Obstacle) :
  obstacle_ok o ->
  player_hit (of_int (GROUND_Y - 20)) o = false \/
  player_hit 60%f32 o = false.
Proof.
  intros (_ & (w & h & y & Iw & Ih & Iy & Rw & Rh & Ry & Rg) & _).
  unfold GROUND_Y in *.
  assert (Iyh : is_int (y + h) (o_y o + o_h o)%f32)
    by (apply is_int_add; auto; lia).
  unfold player_hit, hit. cbv zeta.
  destruct (Z_le_gt_dec (y + h) 418) as [Hlow|Hhigh].
  - left.
    assert (I418 : is_int 418 418%f32) by (split; by_computation).
    match goal with
    | |- _ && (?a <? ?b)%f32 && _ = false =>
        assert (E : (a <? b)%f32 = false)
    end.
    { rewrite ltb_ord by (try apply Iyh; by_computation).
      apply Z.ltb_ge.
      transitivity (ord 418%f32);
        [eapply is_int_le; eauto | apply Z.leb_le; by_computation]. }
    rewrite E. now rewrite andb_false_r.
  - right.
    assert (I68 : is_int 68 68%f32) by (split; by_computation).
    match goal with
    | |- _ && (?a >? ?b)%f32 = false =>
        assert (E : (a >? b)%f32 = false)
    end.
    { rewrite gtb_ord by (try apply Iy; by_computation).
      apply Z.ltb_ge.
      transitivity (ord 68%f32);
        [apply Z.leb_le; by_computation | eapply is_int_le; eauto; lia]. }
    rewrite E. now rewrite andb_false_r.
Qed.

(** X20.  With a [rand] that returns no negative number, no obstacle of
    the store bars the way by itself: the player is not hit by it at the
    height 440, or is not hit by it at the height 60, the two ends of the
    altitude band. *)
Theorem every_obstacle_can_be_avoided
  (inputs : list (list Event * Z)) (t0 : Z) (o : Obstacle) :
  (forall i, 0 <= stream i) ->
  In o (obs (run RAND_MAX stream inputs (init t0))) ->
  player_hit (of_int (GROUND_Y - 20)) o = false \/
  player_hit 60%f32 o = false.
Proof.
  intros Hpos Hin.
  destruct (run_store_ok RAND_MAX stream Hpos inputs (init t0)
              (init_store_ok t0)) as (_ & Hall & _).
  rewrite Forall_forall in Hall. now apply obstacle_ok_avoidable, Hall.
Qed.

End Avoid.

(** ** World speed and thrust *)

Lemma worldSpeed_monotone (d d' : float) :
  between 1%f32 difficulty_cap d -> between 1%f32 difficulty_cap d' ->
  ord d <= ord d' -> ord (worldSpeed d) <= ord (worldSpeed d').
Proof.
  intros Hd Hd' Hle. unfold worldSpeed.
  pose proof (between_refl 1.0%f32 eq_refl) as H1.
  eassert (Ha : between _ _ (d - 1.0)%f32) by bound2 sub_between Hd H1.
  eassert (Ha' : between _ _ (d' - 1.0)%f32) by bound2 sub_between Hd' H1.
  eassert (Hb : between _ _ ((d - 1.0) * 0.35)%f32)
    by bound1 mul_between_r Ha.
  eassert (Hb' : between _ _ ((d' - 1.0) * 0.35)%f32)
    by bound1 mul_between_r Ha'.
  eassert (Hc : between _ _ (1.0 + (d - 1.0) * 0.35)%f32)
    by bound2 add_between H1 Hb.
  eassert (Hc' : between _ _ (1.0 + (d' - 1.0) * 0.35)%f32)
    by bound2 add_between H1 Hb'.
  apply mul_mono_l;
    [by_computation | exact (between_wf _ _ _ Hc)
     | exact (between_wf _ _ _ Hc') | apply Z.leb_le; by_computation |].
  apply add_mono;
    [by_computation | by_computation | exact (between_wf _ _ _ Hb)
     | exact (between_wf _ _ _ Hb') | lia |].
  apply mul_mono_r;
    [by_computation | exact (between_wf _ _ _ Ha)
     | exact (between_wf _ _ _ Ha') | apply Z.leb_le; by_computation |].
  apply sub_mono;
    [exact (between_wf _ _ _ Hd) | exact (between_wf _ _ _ Hd')
     | by_computation | by_computation | exact Hle | lia].
Qed.

Lemma clamp_vy_monotone (v v' : float) :
  wf v = true -> wf v' = true -> ord v <= ord v' ->
  ord (clamp_vy v) <= ord (clamp_vy v').
Proof.
  intros Hv Hv' Hle. unfold clamp_vy. cbv zeta.
  assert (Hm : wf maxVy = true) by by_computation.
  assert (Hn : wf (- maxVy)%f32 = true) by by_computation.
  assert (Hmn : ord (- maxVy)%f32 <= ord maxVy)
    by (apply Z.leb_le; by_computation).
  rewrite (gtb_ord v maxVy), (gtb_ord v' maxVy) by assumption.
  destruct (ord maxVy <? ord v) eqn:E1;
    [apply Z.ltb_lt in E1 | apply Z.ltb_ge in E1];
    (destruct (ord maxVy <? ord v') eqn:E1';
     [apply Z.ltb_lt in E1' | apply Z.ltb_ge in E1']);
    rewrite !ltb_ord by assumption;
    repeat match goal with
    | |- context [?a <? ?b] =>
        let E := fresh "E" in
        destruct (a <? b) eqn:E;
        [apply Z.ltb_lt in E | apply Z.ltb_ge in E]
    end; lia.
Qed.

Lemma clamp_vy_inside (v : float) :
  between (- maxVy)%f32 maxVy v -> clamp_vy v = v.
Proof.
  intros (Hn & Hm & Hv & Hlo & Hhi). unfold clamp_vy. cbv zeta.
  rewrite (gtb_ord v maxVy) by assumption.
  destruct (ord maxVy <? ord v) eqn:E1; [apply Z.ltb_lt in E1; lia|].
  rewrite ltb_ord by assumption.
  destruct (ord v <? ord (- maxVy)%f32) eqn:E2;
    [apply Z.ltb_lt in E2; lia | reflexivity].
Qed.

(** X22.  For a physics step of a frame and a velocity within the
    limit, gravity alone never decreases the downward velocity, and the
    velocity with the thrust held is never larger than without. *)
Theorem thrust_lifts_and_gravity_pulls (dtms v : float) :
  between 0%f32 dtms_max dtms -> between (- maxVy)%f32 maxVy v ->
  let dt := (fminf 48 dtms / 16.6667)%f32 in
  (v <=? physics_vy dt false v)%f32 = true /\
  (physics_vy dt true v <=? physics_vy dt false v)%f32 = true.
Proof.
  intros Hd Hv dt. pose proof (dt_between dtms Hd) as Hdt. fold dt in Hdt.
  pose proof (physics_vy_between dt false v Hdt Hv) as B0.
  pose proof (physics_vy_between dt true v Hdt Hv) as B1.
  rewrite !leb_ord
    by (first [exact (between_wf _ _ _ B0) | exact (between_wf _ _ _ B1)
              | exact (between_wf _ _ _ Hv)]).
  unfold physics_vy. cbv zeta.
  eassert (Hg : between _ _ (gravity * dt)%f32)
    by bound1 mul_between_l Hdt.
  eassert (H1 : between _ _ (v + gravity * dt)%f32)
    by bound2 add_between Hv Hg.
  eassert (Ht : between _ _ (thrust * dt)%f32)
    by bound1 mul_between_l Hdt.
  eassert (H2 : between _ _ (v + gravity * dt - thrust * dt)%f32)
    by bound2 sub_between H1 Ht.
  assert (P0 : 0 <= ord (gravity * (0 / 16.6667))%f32)
    by (apply Z.leb_le; by_computation).
  assert (P1 : 0 <= ord (thrust * (0 / 16.6667))%f32)
    by (apply Z.leb_le; by_computation).
  split; apply Z.leb_le.
  - rewrite <- (clamp_vy_inside v Hv) at 1.
    apply clamp_vy_monotone;
      [exact (between_wf _ _ _ Hv) | exact (between_wf _ _ _ H1) |].
    apply add_nonneg_ge;
      [exact (between_wf _ _ _ Hv) | exact (between_wf _ _ _ Hg) |].
    destruct Hg as (_ & _ & _ & Hlo & _). lia.
  - apply clamp_vy_monotone;
      [exact (between_wf _ _ _ H2) | exact (between_wf _ _ _ H1) |].
    apply sub_nonneg_le;
      [exact (between_wf _ _ _ H1) | exact (between_wf _ _ _ Ht) |].
    destruct Ht as (_ & _ & _ & Hlo & _). lia.
Qed.

Section WorldSpeed.

Variable RAND_MAX : Z.
Variable stream : nat -> Z.

(** X21.  The world speed, from which a spawned obstacle gets its speed,
    is at least [baseSpeed] in every state that the loop reaches, and a
    pass of the loop that handles no restart never decreases it. *)
Theorem world_speed_never_decreases
  (inputs : list (list Event * Z)) (t0 : Z) (evs : list Event) (now : Z) :
  ~ In return_key evs ->
  let s := run RAND_MAX stream inputs (init t0) in
  let s' := frame RAND_MAX stream evs now s in
  (baseSpeed <=? worldSpeed (difficulty s))%f32 = true /\
  (worldSpeed (difficulty s) <=? worldSpeed (difficulty s'))%f32 = true.
Proof.
  intros Hin s s'.
  pose proof (run_difficulty_ok RAND_MAX stream inputs (init t0)
                (init_difficulty_ok t0)) as Hs.
  fold s in Hs.
  pose proof (frame_difficulty_ok RAND_MAX stream evs now s Hs) as Hs'.
  fold s' in Hs'.
  pose proof (worldSpeed_between _ (proj1 Hs)) as Hw.
  pose proof (worldSpeed_between _ (proj1 Hs')) as Hw'.
  destruct (between_leb _ _ _ Hw) as [L1 _].
  split; [exact L1|].
  rewrite leb_ord
    by (try exact (between_wf _ _ _ Hw); exact (between_wf _ _ _ Hw')).
  apply Z.leb_le.
  apply worldSpeed_monotone; [exact (proj1 Hs) | exact (proj1 Hs') |].
  now apply frame_difficulty_grows.
Qed.

End WorldSpeed.

Lemma world_speed_never_decreases_witness :
  ~ In return_key [SDL_KEYDOWN SDLK_SPACE] /\
  leb (worldSpeed
         (difficulty
            (run RAND_MAX_emscripten stream_storm first_pass (init 0))))
      (worldSpeed
         (difficulty
            (frame RAND_MAX_emscripten stream_storm [SDL_KEYDOWN SDLK_SPACE]
               5000
               (run RAND_MAX_emscripten stream_storm first_pass (init 0)))))
  = true.
Proof.
  split; [exact space_is_not_restart|].
  destruct (world_speed_never_decreases RAND_MAX_emscripten stream_storm
              first_pass 0 [SDL_KEYDOWN SDLK_SPACE] 5000
              space_is_not_restart) as [_ Hle].
  exact Hle.
Defined.

Lemma thrust_lifts_and_gravity_pulls_witness :
  between 0%f32 dtms_max 16%f32 /\ between (- maxVy)%f32 maxVy 1%f32 /\
  leb (physics_vy (fminf 48 16 / 16.6667)%f32 true 1%f32)
      (physics_vy (fminf 48 16 / 16.6667)%f32 false 1%f32) = true.
Proof.
  assert (Hd : between 0%f32 dtms_max 16%f32)
    by (apply between_intro; vm_compute; reflexivity).
  assert (Hv : between (- maxVy)%f32 maxVy 1%f32)
    by (apply between_intro; vm_compute; reflexivity).
  split; [exact Hd|]. split; [exact Hv|].
  apply (thrust_lifts_and_gravity_pulls 16%f32 1%f32 Hd Hv).
Defined.

(** ** The properties on concrete inputs *)

Lemma stream_const_nonneg : forall i, 0 <= stream_const 0 i.
Proof. intros i. unfold stream_const. lia. Defined.

Lemma the_cloud_in_store : In the_cloud (obs one_cloud).
Proof. vm_compute. left. reflexivity. Defined.

Lemma difficulty_never_decreases_witness :
  ~ In return_key [SDL_KEYDOWN SDLK_SPACE] /\
  leb (difficulty (run RAND_MAX_emscripten stream_storm first_pass (init 0)))
      (difficulty
         (frame RAND_MAX_emscripten stream_storm [SDL_KEYDOWN SDLK_SPACE]
            5000
            (run RAND_MAX_emscripten stream_storm first_pass (init 0))))
  = true.
Proof.
  split; [exact space_is_not_restart|].
  destruct (difficulty_never_decreases RAND_MAX_emscripten stream_storm
              first_pass 0 [SDL_KEYDOWN SDLK_SPACE] 5000
              space_is_not_restart) as [_ Hle].
  exact Hle.
Defined.

Lemma distance_never_increases_witness :
  ~ In return_key [SDL_KEYDOWN SDLK_SPACE] /\
  leb (kmLeft
         (frame RAND_MAX_emscripten stream_storm [SDL_KEYDOWN SDLK_SPACE]
            5000
            (run RAND_MAX_emscripten stream_storm first_pass (init 0))))
      (kmLeft (run RAND_MAX_emscripten stream_storm first_pass (init 0)))
  = true.
Proof.
  split; [exact space_is_not_restart|].
  exact (distance_never_increases RAND_MAX_emscripten stream_storm
           first_pass 0 [SDL_KEYDOWN SDLK_SPACE] 5000 space_is_not_restart).
Defined.

Lemma ended_session_stands_still_witness :
  let crashed := run RAND_MAX_emscripten stream_storm passes_storm (init 0) in
  state crashed <> Active /\
  ~ In return_key [SDL_KEYDOWN SDLK_SPACE] /\
  obs (frame RAND_MAX_emscripten stream_storm [SDL_KEYDOWN SDLK_SPACE]
         201200 crashed) = obs crashed.
Proof.
  intros crashed.
  assert (Hc : state crashed <> Active) by (vm_compute; discriminate).
  split; [exact Hc|]. split; [exact space_is_not_restart|].
  apply (ended_session_stands_still RAND_MAX_emscripten stream_storm
           [SDL_KEYDOWN SDLK_SPACE] 201200 crashed Hc space_is_not_restart).
Defined.

Lemma quit_ends_the_loop_witness :
  In SDL_QUIT [SDL_KEYDOWN SDLK_SPACE; SDL_QUIT] /\
  running (init 0) = true /\
  run RAND_MAX_emscripten (stream_const 0)
    [([SDL_KEYDOWN SDLK_SPACE; SDL_QUIT], 16); ([], 32); ([], 48)] (init 0)
  = frame RAND_MAX_emscripten (stream_const 0)
      [SDL_KEYDOWN SDLK_SPACE; SDL_QUIT] 16 (init 0).
Proof.
  assert (Hin : In SDL_QUIT [SDL_KEYDOWN SDLK_SPACE; SDL_QUIT])
    by (simpl; right; left; reflexivity).
  split; [exact Hin|]. split; [reflexivity|].
  apply (quit_ends_the_loop RAND_MAX_emscripten (stream_const 0)
           [SDL_KEYDOWN SDLK_SPACE; SDL_QUIT] 16 [([], 32); ([], 48)]
           (init 0) Hin eq_refl).
Defined.

Lemma run_app_witness :
  running (frame RAND_MAX_emscripten (stream_const 0) [SDL_QUIT] 16 (init 0))
  = false /\
  run RAND_MAX_emscripten (stream_const 0) [([], 32); ([], 48)]
    (frame RAND_MAX_emscripten (stream_const 0) [SDL_QUIT] 16 (init 0))
  = frame RAND_MAX_emscripten (stream_const 0) [SDL_QUIT] 16 (init 0).
Proof.
  assert (Hr : running (frame RAND_MAX_emscripten (stream_const 0) [SDL_QUIT]
                          16 (init 0)) = false) by reflexivity.
  split; [exact Hr|].
  apply (proj2 (run_app RAND_MAX_emscripten (stream_const 0)
                  [([], 32); ([], 48)] []
                  (frame RAND_MAX_emscripten (stream_const 0) [SDL_QUIT] 16
                     (init 0))) Hr).
Defined.

Lemma elapsed_time_survives_wrap_witness :
  0 <= (2 ^ 32 + 6) - (2 ^ 32 - 10) < 2 ^ 32 /\
  last (frame RAND_MAX_emscripten (stream_const 0) [] (2 ^ 32 - 10) (init 0))
  = u32 (2 ^ 32 - 10).
Proof.
  assert (Ht : 0 <= (2 ^ 32 + 6) - (2 ^ 32 - 10) < 2 ^ 32) by lia.
  split; [exact Ht|].
  apply (elapsed_time_survives_wrap RAND_MAX_emscripten (stream_const 0)
           [] [] (2 ^ 32 - 10) (2 ^ 32 + 6) (init 0) Ht).
Defined.

Lemma compaction_keeps_on_screen_witness :
  (2 <= length [bird_above; bird_below; bird_ahead])%nat /\
  exists a' wix,
    compact_loop 2 0 0 [bird_above; bird_below; bird_ahead] = Some (a', wix) /\
    (wix <= 2)%nat.
Proof.
  assert (Hn : (2 <= length [bird_above; bird_below; bird_ahead])%nat)
    by (simpl; lia).
  split; [exact Hn|].
  destruct (compaction_keeps_on_screen 2 [bird_above; bird_below; bird_ahead]
              Hn) as (a' & wix & E & _ & Hle & _).
  exists a', wix. split; [exact E | exact Hle].
Defined.

Lemma array_code_is_list_model_witness :
  length obs_array = 128%nat /\ (0 <= 128)%nat /\
  exists a' n',
    store_pass RAND_MAX_emscripten (stream_const 0) true baseSpeed 270%f32
      obs_array 0%nat 0%nat
    = Some (a', n',
            snd (addObstacle RAND_MAX_emscripten (stream_const 0) baseSpeed
                   (firstn 0 obs_array) 0%nat),
            existsb (player_hit 270%f32) (firstn n' a')) /\
    length a' = 128%nat.
Proof.
  assert (Hn : (0 <= 128)%nat) by lia.
  split; [reflexivity|]. split; [exact Hn|].
  destruct (array_code_is_list_model RAND_MAX_emscripten (stream_const 0) true
              baseSpeed 270%f32 obs_array 0%nat 0%nat eq_refl Hn)
    as (a' & n' & E & L & _).
  exists a', n'. split; [exact E | exact L].
Defined.

Lemma progress_bar_stays_on_track_witness :
  ~ In return_key [SDL_KEYDOWN SDLK_SPACE] /\
  exists w w',
    progBar (kmLeft (run RAND_MAX_emscripten stream_storm first_pass (init 0)))
    = Some (mkRect 20 512 w 10) /\
    progBar
      (kmLeft
         (frame RAND_MAX_emscripten stream_storm [SDL_KEYDOWN SDLK_SPACE]
            5000
            (run RAND_MAX_emscripten stream_storm first_pass (init 0))))
    = Some (mkRect 20 512 w' 10) /\
    w <= w'.
Proof.
  split; [exact space_is_not_restart|].
  destruct (progress_bar_stays_on_track RAND_MAX_emscripten stream_storm
              first_pass 0 [SDL_KEYDOWN SDLK_SPACE] 5000
              space_is_not_restart) as (w & w' & E & E' & Hle & _).
  exists w, w'. split; [exact E|]. split; [exact E'|]. lia.
Defined.

Lemma store_is_never_full_witness :
  (forall i, 0 <= stream_const 0 i) /\
  obsCount (obs (run RAND_MAX_emscripten (stream_const 0) first_pass (init 0)))
  <= 99.
Proof.
  split; [exact stream_const_nonneg|].
  apply (store_is_never_full RAND_MAX_emscripten (stream_const 0)
           first_pass 0 baseSpeed 0%nat stream_const_nonneg).
Defined.

Lemma obstacles_stay_in_their_band_witness :
  (forall i, 0 <= stream_const 0 i) /\
  In the_cloud (obs one_cloud) /\
  leb 40%f32 (o_y the_cloud) = true.
Proof.
  split; [exact stream_const_nonneg|].
  split; [exact the_cloud_in_store|].
  apply (obstacles_stay_in_their_band RAND_MAX_emscripten (stream_const 0)
           first_pass 0 the_cloud stream_const_nonneg the_cloud_in_store).
Defined.

Lemma obstacles_are_drawn_above_ground_witness :
  (forall i, 0 <= stream_const 0 i) /\
  In the_cloud (obs one_cloud) /\
  exists r, box the_cloud = Some r /\ r_y r + r_h r <= GROUND_Y.
Proof.
  split; [exact stream_const_nonneg|].
  split; [exact the_cloud_in_store|].
  destruct (obstacles_are_drawn_above_ground RAND_MAX_emscripten
              (stream_const 0) first_pass 0 the_cloud stream_const_nonneg
              the_cloud_in_store) as (r & E & _ & _ & Hg & _).
  exists r. split; [exact E | exact Hg].
Defined.

Lemma obstacles_move_left_witness :
  (forall i, 0 <= stream_const 0 i) /\
  0 <= 16 < 2 ^ 32 /\
  state one_cloud = Active /\
  In (advance the_cloud)
    (obs (simulate RAND_MAX_emscripten (stream_const 0) (of_int 16)
            one_cloud)) /\
  exists o,
    advance the_cloud = advance o /\
    leb (o_x (advance the_cloud)) (o_x o - 13)%f32 = true.
Proof.
  assert (Hn : 0 <= 16 < 2 ^ 32) by lia.
  assert (Hs : state one_cloud = Active) by (vm_compute; reflexivity).
  assert (Hin : In (advance the_cloud)
                  (obs (simulate RAND_MAX_emscripten (stream_const 0)
                          (of_int 16) one_cloud)))
    by (vm_compute; left; reflexivity).
  split; [exact stream_const_nonneg|]. split; [exact Hn|].
  split; [exact Hs|]. split; [exact Hin|].
  destruct (obstacles_move_left RAND_MAX_emscripten (stream_const 0)
              first_pass 0 16 (advance the_cloud) stream_const_nonneg Hn
              Hs Hin) as (o & _ & E & _ & _ & _ & _ & _ & Hle).
  exists o. split; [exact E | exact Hle].
Defined.

Lemma kind_is_decided_by_first_draw_witness :
  0 <= stream_const 5 0%nat <= RAND_MAX_emscripten /\
  obsCount [] < 128 /\
  exists o,
    fst (addObstacle RAND_MAX_emscripten (stream_const 5) baseSpeed [] 0%nat)
    = [o] /\
    o_type o = 0.
Proof.
  assert (Hr : 0 <= stream_const 5 0%nat <= RAND_MAX_emscripten)
    by (unfold stream_const, RAND_MAX_emscripten; lia).
  assert (Hlt : obsCount [] < 128) by reflexivity.
  split; [exact Hr|]. split; [exact Hlt|].
  destruct (kind_is_decided_by_first_draw (stream_const 5) baseSpeed [] 0%nat
              Hr Hlt) as (o & E & Hk & _).
  exists o. split; [now rewrite E | exact Hk].
Defined.

Lemma decorations_stay_in_window_witness :
  0 <= 79 < 80 /\ fst (star 79) + 1 < W /\
  0 <= 39 < 40 /\ 0 <= fst (confetti 123456 39) < W.
Proof.
  assert (H1 : 0 <= 79 < 80) by lia.
  assert (H2 : 0 <= 39 < 40) by lia.
  split; [exact H1|]. split.
  - apply (proj1 (decorations_stay_in_window 0 79) H1).
  - split; [exact H2|].
    apply (proj2 (decorations_stay_in_window 123456 39) H2).
Defined.

Lemma every_obstacle_can_be_avoided_witness :
  (forall i, 0 <= stream_const 0 i) /\
  In the_cloud (obs one_cloud) /\
  (player_hit (of_int (GROUND_Y - 20)) the_cloud = false \/
   player_hit 60%f32 the_cloud = false).
Proof.
  split; [exact stream_const_nonneg|].
  split; [exact the_cloud_in_store|].
  apply (every_obstacle_can_be_avoided RAND_MAX_emscripten (stream_const 0)
           first_pass 0 the_cloud stream_const_nonneg the_cloud_in_store).
Defined.

(** ** Time makes progress *)

(** A frame of 1 ms or more covers more than 3/32 km. *)
Lemma covered_at_least (km : float) (n : Z) :
  between 0%f32 KM_TOTAL km -> 1 <= n < 2 ^ 32 ->
  wf (kmPerSec km * (of_int n / 1000.0))%f32 = true /\
  3 * 2 ^ 296 <= ord (kmPerSec km * (of_int n / 1000.0))%f32.
Proof.
  intros Hk Hn.
  pose proof (kmPerSec_between km Hk) as Hv.
  assert (Hd : between (of_int 1) (of_int (2 ^ 32 - 1)) (of_int n))
    by (apply of_int_between; [by_computation | by_computation | lia]).
  eassert (Hs : between _ _ (of_int n / 1000.0)%f32)
    by bound1 div_between Hd.
  eassert (Hc : between _ _ (kmPerSec km * (of_int n / 1000.0))%f32)
    by bound2 mul_between Hv Hs.
  split; [exact (between_wf _ _ _ Hc)|].
  destruct Hc as (_ & _ & _ & Hlo & _).
  assert (3 * 2 ^ 296 <= ord (120 * (of_int 1 / 1000.0))%f32)
    by (apply Z.leb_le; by_computation).
  lia.
Qed.

(** Subtracting more than 3/32 from a number between 0 and 12000 gives a
    number that is smaller by 1/16 at least, or none above zero. *)
Lemma sub_strict (km step : float) :
  between 0%f32 KM_TOTAL km -> wf step = true ->
  3 * 2 ^ 296 <= ord step ->
  ord (km - step)%f32 + 2 ^ 297 <= ord km \/ ord (km - step)%f32 <= 0.
Proof.
  intros (_ & _ & Hw & Hlo & Hhi) Hs Hstep.
  change (ord 0%f32) with 0 in Hlo.
  assert (EK : ord KM_TOTAL = 384000 * 2 ^ 296) by by_computation.
  assert (Hg : 0 < 2 ^ 296) by (apply Z.pow_pos_nonneg; lia).
  assert (Hg2 : 2 ^ 297 = 2 * 2 ^ 296) by (change 297 with (1 + 296);
    rewrite pow2_split by lia; reflexivity).
  unfold sub. destruct (sub_spec km step Hw Hs) as (-> & _).
  destruct (Z.eq_dec (ord km) 0) as [E0|Hne].
  - right. rewrite E0.
    replace 0 with (ordRQ (0 * 2 ^ (301 - 5)) 1) at 2
      by (rewrite ordRQ_dyadic; lia).
    apply ordRQ_mono; lia.
  - left.
    set (n := (ord km - 1) / 2 ^ 296).
    pose proof (Z.div_mod (ord km - 1) (2 ^ 296) ltac:(lia)) as Hdm.
    pose proof (Z.mod_pos_bound (ord km - 1) (2 ^ 296) Hg) as Hmod.
    fold n in Hdm.
    assert (Hn0 : 0 <= n) by (apply Z.div_pos; lia).
    assert (Hn1 : n < 384000) by (apply Z.div_lt_upper_bound; lia).
    assert (Hr : ordRQ (ord km - ord step) 1 <= (n - 2) * 2 ^ 296).
    { change (2 ^ 296) with (2 ^ (301 - 5)).
      rewrite <- (ordRQ_dyadic (n - 2) 5) by lia.
      change (2 ^ (301 - 5)) with (2 ^ 296).
      apply ordRQ_mono; nia. }
    nia.
Qed.

Section Progress.

Variable RAND_MAX : Z.
Variable stream : nat -> Z.

(** X23.  Time makes progress: in an Active session a tick for an
    elapsed time of 1 ms or more ends with less distance left than before,
    or with [victory] set. *)
Theorem time_makes_progress
  (inputs : list (list Event * Z)) (t0 : Z) (n : Z) :
  1 <= n < 2 ^ 32 ->
  let s := run RAND_MAX stream inputs (init t0) in
  state s = Active ->
  let s' := simulate RAND_MAX stream (of_int n) s in
  victory s' = true \/ (kmLeft s' <? kmLeft s)%f32 = true.
Proof.
  intros Hn s Hact s'.
  destruct (run_distance_ok RAND_MAX stream inputs (init t0)
              (init_distance_ok t0)) as [Hk _].
  fold s in Hk.
  destruct (covered_at_least (kmLeft s) n Hk Hn) as [Hws Hstep].
  subst s'. rewrite (simulate_active _ _ _ _ Hact).
  destruct (update_distance RAND_MAX stream (of_int n)
              (fminf 48.0 (of_int n) / 16.6667)%f32
              (of_int n / 1000.0)%f32 s) as [-> ->].
  assert (Hw1 : wf (kmLeft s
                    - kmPerSec (kmLeft s) * (of_int n / 1000.0))%f32 = true).
  { pose proof (covered_between (kmLeft s) (of_int n) Hk
                  (of_int_between 0 (2 ^ 32 - 1) n eq_refl eq_refl
                     ltac:(lia))) as Hc.
    eassert (H1 : between _ _
              (kmLeft s - kmPerSec (kmLeft s) * (of_int n / 1000.0))%f32)
      by bound2 sub_between Hk Hc.
    exact (between_wf _ _ _ H1). }
  rewrite (leb_ord _ 0%f32 Hw1 eq_refl). change (ord 0%f32) with 0.
  destruct (_ <=? 0) eqn:E; [now left|]. apply Z.leb_gt in E. right.
  rewrite ltb_ord by (try exact Hw1; exact (between_wf _ _ _ Hk)).
  apply Z.ltb_lt.
  destruct (sub_strict _ _ Hk Hws Hstep) as [Hlt|Hle]; lia.
Qed.


End Progress.

Lemma time_makes_progress_witness :
  1 <= 16 < 2 ^ 32 /\ state (init 0) = Active /\
  (victory (simulate RAND_MAX_emscripten (stream_const 0) (of_int 16)
              (init 0)) = true \/
   ltb (kmLeft (simulate RAND_MAX_emscripten (stream_const 0) (of_int 16)
                  (init 0)))
       (kmLeft (init 0)) = true).
Proof.
  assert (Hn : 1 <= 16 < 2 ^ 32) by lia.
  split; [exact Hn|]. split; [reflexivity|].
  apply (time_makes_progress RAND_MAX_emscripten (stream_const 0) [] 0 16 Hn
           eq_refl).
Defined.


Section Ending.

Variable RAND_MAX : Z.
Variable stream : nat -> Z.

Lemma simulate_progress_ok (n : Z) (s : Session) :
  1 <= n < 2 ^ 32 -> progress_ok s ->
  let s' := simulate RAND_MAX stream (of_int n) s in
  progress_ok s' /\
  (state s <> Active -> state s' <> Active) /\
  (state s' = Active -> ord (kmLeft s') + 2 ^ 297 <= ord (kmLeft s)).
Proof.
  intros Hn [Hd Hpos] s'.
  assert (Hb : between 0%f32 dtms_max (of_int n))
    by (apply (of_int_between 0 (2 ^ 32 - 1));
        [by_computation | by_computation | lia]).
  destruct (simulate_distance_ok RAND_MAX stream (of_int n) s Hb Hd)
    as [Hd' _]. fold s' in Hd'.
  destruct (state s) eqn:Hst.
  - (* Active *)
    destruct Hd as [Hk Hv].
    destruct (covered_at_least (kmLeft s) n Hk Hn) as [Hws Hstep].
    assert (Hw1 : wf (kmLeft s
                      - kmPerSec (kmLeft s) * (of_int n / 1000.0))%f32
                  = true).
    { pose proof (covered_between (kmLeft s) (of_int n) Hk Hb) as Hc.
      eassert (H1 : between _ _
                (kmLeft s - kmPerSec (kmLeft s) * (of_int n / 1000.0))%f32)
        by bound2 sub_between Hk Hc.
      exact (between_wf _ _ _ H1). }
    assert (Hvic : victory s = false)
      by (unfold state in Hst; destruct (gameOver s), (victory s);
          congruence).
    assert (E : kmLeft s' = (if (kmLeft s
                   - kmPerSec (kmLeft s) * (of_int n / 1000.0) <=? 0)%f32
                 then 0%f32
                 else (kmLeft s
                       - kmPerSec (kmLeft s) * (of_int n / 1000.0))%f32) /\
                victory s' = (if (kmLeft s
                   - kmPerSec (kmLeft s) * (of_int n / 1000.0) <=? 0)%f32
                 then true else victory s)).
    { subst s'. rewrite (simulate_active _ _ _ _ Hst).
      apply update_distance. }
    destruct E as [Ek Ev].
    rewrite (leb_ord _ 0%f32 Hw1 eq_refl) in Ek, Ev.
    change (ord 0%f32) with 0 in Ek, Ev.
    destruct (_ <=? 0) eqn:E0;
      [|apply Z.leb_gt in E0].
    + split; [split; [exact Hd'|]; rewrite Ev; discriminate|].
      split; [congruence|].
      unfold state. rewrite Ev. destruct (gameOver s'); discriminate.
    + split; [split; [exact Hd'|]; intros _; rewrite Ek; exact E0|].
      split; [congruence|]. intros _. rewrite Ek.
      destruct (sub_strict _ _ Hk Hws Hstep) as [Hlt|Hle]; lia.
  - subst s'. rewrite simulate_frozen by congruence.
    split; [now split|]. rewrite Hst. split; [auto | discriminate].
  - subst s'. rewrite simulate_frozen by congruence.
    split; [now split|]. rewrite Hst. split; [auto | discriminate].
Qed.

Lemma frame_progress_ok (evs : list Event) (t now : Z) (s : Session) :
  1 <= now - t < 2 ^ 32 -> ~ In return_key evs ->
  progress_ok s -> last s = u32 t ->
  let s' := frame RAND_MAX stream evs now s in
  progress_ok s' /\ last s' = u32 now /\
  (state s <> Active -> state s' <> Active) /\
  (state s' = Active -> ord (kmLeft s') + 2 ^ 297 <= ord (kmLeft s)).
Proof.
  intros Ht Hin Hs Hl s'. subst s'. unfold frame.
  destruct (poll_last evs s) as [El _]. rewrite El, Hl.
  replace (u32 (now - u32 t)) with (now - t)
    by (unfold u32; rewrite Zminus_mod_idemp_r; symmetry;
        apply Z.mod_small; lia).
  set (s1 := set_last (u32 now) (fold_left handle_event evs s)).
  destruct (poll_flags evs s Hin) as (Hg & Hv & _ & Hk).
  assert (Hs1 : progress_ok s1).
  { destruct Hs as [[Hb Hz] Hpos]. unfold progress_ok, distance_ok.
    subst s1. cbn [set_last kmLeft victory]. rewrite Hk, Hv. auto. }
  assert (Est : state s1 = state s)
    by (unfold state; subst s1; cbn [set_last gameOver victory];
        now rewrite Hg, Hv).
  assert (Ekm : kmLeft s1 = kmLeft s) by (subst s1; exact Hk).
  destruct (simulate_progress_ok (now - t) s1 Ht Hs1) as (P & Q & R).
  rewrite Est in Q. rewrite Ekm in R.
  split; [exact P|]. split; [|split; assumption].
  destruct (simulate_running RAND_MAX stream (of_int (now - t)) s1)
    as (_ & _ & ->).
  reflexivity.
Qed.

Lemma run_progress (inputs : list (list Event * Z)) (t k : Z) (s : Session) :
  paced t inputs -> progress_ok s -> last s = u32 t ->
  (state s = Active -> ord (kmLeft s) <= (192000 - k) * 2 ^ 297) ->
  let s' := run RAND_MAX stream inputs s in
  progress_ok s' /\
  (running s' = true -> state s' = Active ->
   ord (kmLeft s') <= (192000 - k - Z.of_nat (length inputs)) * 2 ^ 297).
Proof.
  revert t k s. induction inputs as [|[evs now] rest IH];
    intros t k s Hp Hs Hl Hk; cbn [run length].
  - split; [exact Hs|]. intros _ Ha.
    replace (192000 - k - Z.of_nat 0) with (192000 - k) by lia. auto.
  - destruct Hp as (Ht & Hin & Hrest).
    destruct (running s) eqn:Hr;
      [|split; [exact Hs | intros Hr'; congruence]].
    destruct (frame_progress_ok evs t now s Ht Hin Hs Hl)
      as (P & L & Q & R).
    destruct (IH now (k + 1) (frame RAND_MAX stream evs now s) Hrest P L)
      as [P' K'].
    + intros Ha. specialize (R Ha).
      assert (Hs0 : state s = Active).
      { destruct (state s) eqn:E; auto; exfalso; apply Q; congruence. }
      specialize (Hk Hs0).
      replace ((192000 - (k + 1)) * 2 ^ 297)
        with ((192000 - k) * 2 ^ 297 - 2 ^ 297) by ring.
      lia.
    + split; [exact P'|]. intros Hr' Ha. specialize (K' Hr' Ha).
      replace (192000 - k - Z.of_nat (S (length rest)))
        with (192000 - (k + 1) - Z.of_nat (length rest)) by lia.
      exact K'.
Qed.

Lemma init_progress_ok (t0 : Z) : progress_ok (init t0).
Proof.
  split; [apply init_distance_ok|]. intros _. cbn [init kmLeft].
  apply Z.ltb_lt. by_computation.
Qed.

(** X25.  A session ends.  Over passes that follow one another by 1 ms
    at least, with no restart, every pass in which the session is Active
    takes 1/16 km or more off the remaining distance: while the loop runs
    and the session is Active, at most [12000 - k / 16] km are left after
    [k] passes ([2 ^ 297] is 1/16 on the scale of [ord]), so that after
    192000 passes the session is Crashed or Completed, or the loop has
    been quit. *)
Theorem session_ends (inputs : list (list Event * Z)) (t0 : Z) :
  paced t0 inputs ->
  let s := run RAND_MAX stream inputs (init t0) in
  (running s = true -> state s = Active ->
   ord (kmLeft s) <= (12000 * 16 - Z.of_nat (length inputs)) * 2 ^ 297) /\
  (192000 <= Z.of_nat (length inputs) ->
   running s = false \/ state s <> Active).
Proof.
  intros Hp s.
  destruct (run_progress inputs t0 0 (init t0) Hp (init_progress_ok t0)
              eq_refl) as [[Hd Hpos] Hk].
  { intros _. cbn [init kmLeft]. apply Z.leb_le. by_computation. }
  fold s in Hd, Hpos, Hk.
  replace (192000 - 0 - Z.of_nat (length inputs))
    with (12000 * 16 - Z.of_nat (length inputs)) in Hk by lia.
  split; [exact Hk|]. intros Hlen.
  destruct (running s) eqn:Hr; [|now left]. right. intros Ha.
  specialize (Hk eq_refl Ha).
  assert (Hv : victory s = false)
    by (unfold state in Ha; destruct (gameOver s), (victory s); congruence).
  specialize (Hpos Hv).
  assert (0 < 2 ^ 297) by (apply Z.pow_pos_nonneg; lia). nia.
Qed.

End Ending.

Lemma paced_steady (n : nat) (t : Z) : paced t (steady n t).
Proof.
  revert t. induction n as [|n IH]; intros t; cbn [steady paced]; auto.
  split; [lia|]. split; [intros []|apply IH].
Defined.

Lemma length_steady (n : nat) (t : Z) : length (steady n t) = n.
Proof.
  revert t. induction n as [|n IH]; intros t; cbn [steady length]; auto.
Defined.

Lemma session_ends_witness :
  paced 0 (steady (Z.to_nat 192000) 0) /\
  192000 <= Z.of_nat (length (steady (Z.to_nat 192000) 0)) /\
  (running (run RAND_MAX_emscripten (stream_const 0)
              (steady (Z.to_nat 192000) 0) (init 0)) = false \/
   state (run RAND_MAX_emscripten (stream_const 0)
            (steady (Z.to_nat 192000) 0) (init 0)) <> Active).
Proof.
  assert (Hp : paced 0 (steady (Z.to_nat 192000) 0)) by apply paced_steady.
  assert (Hl : 192000 <= Z.of_nat (length (steady (Z.to_nat 192000) 0)))
    by (rewrite length_steady; lia).
  split; [exact Hp|]. split; [exact Hl|].
  apply (session_ends RAND_MAX_emscripten (stream_const 0)
           (steady (Z.to_nat 192000) 0) 0 Hp).
  exact Hl.
Defined.
